(** * An interrupt driven software timer for Arduino: the scheduler of
    [Timer.cpp] / [Timer.h] over the pointer list of [List.cpp] / [List.h].

    The development is a shallow embedding.  The C++ objects become records,
    the member functions become functions on those records, and the caller
    owned [timeElement] objects live in an explicit store that is indexed by
    their address, because the list keeps addresses only and several slots may
    hold the same address.

    Integer widths.  The time registers are [uint16_t]; they are modelled in
    [Z] with the wrap-around written out ([u16], [Z.land], [Z.lor]).  The
    counter of the list and all loop indices are [uint8_t]; every increment of
    one of them in the source sits behind a guard [i < m_Counter] or
    [m_Counter < MAX_LIST_PTRS], and every decrement behind [i > index] or
    [index < m_Counter], so none of them can wrap; they are modelled in [nat].

    Interrupt masking ([SREG], [noInterrupts], [ATOMIC_BLOCK]) has no
    counterpart here: every operation of the model runs to completion. *)

From Stdlib Require Import ZArith Lia.
From stdpp Require Import base numbers list functions sorting.

(** ** Machine integers *)

Definition u16 (x : Z) : Z := (x mod 65536)%Z.

(** ** [timeElement] (Timer.h) *)

(** Addresses of [timeElement] objects; [null] is the null pointer. *)
Definition ptr := nat.
Bind Scope nat_scope with ptr.
Definition null : ptr := 0.

Record timeElement := mk_timeElement {
  _timeOut : Z;      (* uint16_t: the future expiration time *)
  _timePeriod : Z;   (* uint16_t: ticks between callbacks *)
  _repeats : Z;      (* uint16_t: 0 means never stop *)
  _callBack : Z;     (* timerCallBack_t: address of the callback *)
  _arg : Z           (* void *: passed along to the callback *)
}.

(** One execution of [callFunction]: the object it ran on, the function called,
    the argument passed, and the object as the callback finds it on entry. *)
Record Call := mk_Call {
  call_this : ptr;
  call_fn : Z;
  call_arg : Z;
  call_view : timeElement
}.

Definition getTimePeriod (te : timeElement) : Z := _timePeriod te.
Definition getTimeOut (te : timeElement) : Z := _timeOut te.
Definition getRemaining (te : timeElement) : Z := _repeats te.

(** [void setTimeOut (uint16_t to) {_timeOut = to & 0x7FFF;}]; the conversion
    of the argument to [uint16_t] is part of the call. *)
Definition setTimeOut (to : Z) (te : timeElement) : timeElement :=
  {| _timeOut := Z.land (u16 to) 0x7FFF;
     _timePeriod := _timePeriod te;
     _repeats := _repeats te;
     _callBack := _callBack te;
     _arg := _arg te |}.

(** [return _timeOut = (_timePeriod + _timeOut) & 0x7fff;] *)
Definition updateTimeOut (te : timeElement) : Z * timeElement :=
  let t := Z.land (u16 (_timePeriod te + _timeOut te)) 0x7fff in
  (t, {| _timeOut := t;
         _timePeriod := _timePeriod te;
         _repeats := _repeats te;
         _callBack := _callBack te;
         _arg := _arg te |}).

(** [void callFunction () {( *_callBack) (_arg);}] *)
Definition callFunction (this : ptr) (te : timeElement) : Call :=
  {| call_this := this; call_fn := _callBack te; call_arg := _arg te;
     call_view := te |}.

Definition set_repeats (r : Z) (te : timeElement) : timeElement :=
  {| _timeOut := _timeOut te;
     _timePeriod := _timePeriod te;
     _repeats := r;
     _callBack := _callBack te;
     _arg := _arg te |}.

(** [timeElement::clockAlarm]: the call that was made, the returned flag and
    the object afterwards. *)
Definition clockAlarm (this : ptr) (te : timeElement)
  : Call * bool * timeElement :=
  let c := callFunction this te in
  if negb (0 =? _repeats te)%Z then
    let te' := set_repeats (u16 (_repeats te - 1)) te in
    if (0 =? _repeats te')%Z then (c, false, te')
    else (c, true, te')
  else (c, true, te).

(** ** [List] (List.h, List.cpp) *)

(** [#define MAX_LIST_PTRS 5], the value List.h gives it unless the user
    defines it first.  The lemmas below use the name only; the examples use
    the value. *)
Definition MAX_LIST_PTRS : nat := 5.

Record List := mk_List {
  m_Counter : nat;          (* uint8_t *)
  m_ptrList : list ptr      (* pObject m_ptrList [MAX_LIST_PTRS] *)
}.

(** Array cells; a write outside the array is undefined in the source and
    does nothing here. *)
Definition cell (a : list ptr) (i : nat) : ptr := a !!! i.

(** A [List] in static storage after its constructor ran. *)
Definition List_new : List :=
  {| m_Counter := 0; m_ptrList := replicate MAX_LIST_PTRS null |}.

Definition GetCount (l : List) : nat := m_Counter l.

Definition isFull (l : List) : bool := m_Counter l =? MAX_LIST_PTRS.

(** [List::operator []] *)
Definition at_ (l : List) (index : nat) : ptr := cell (m_ptrList l) index.

Definition Add (pData : ptr) (l : List) : nat * List :=
  if m_Counter l <? MAX_LIST_PTRS then
    (m_Counter l + 1,
     {| m_Counter := m_Counter l + 1;
        m_ptrList := <[m_Counter l := pData]> (m_ptrList l) |})
  else (m_Counter l, l).

(** [for (uint8_t i=m_Counter; i>index; i--) m_ptrList [i] = m_ptrList [i-1];] *)
Fixpoint InsertAt_loop (i index : nat) (a : list ptr) : list ptr :=
  match i with
  | O => a
  | S i' =>
      if index <? i then InsertAt_loop i' index (<[i := cell a i']> a)
      else a
  end.

Definition InsertAt (index : nat) (pData : ptr) (l : List) : List :=
  if m_Counter l <? MAX_LIST_PTRS then
    {| m_Counter := m_Counter l + 1;
       m_ptrList :=
         <[index := pData]> (InsertAt_loop (m_Counter l) index (m_ptrList l)) |}
  else l.

Definition Swap (i1 i2 : nat) (l : List) : List :=
  let temp := cell (m_ptrList l) i1 in
  let a1 := <[i1 := cell (m_ptrList l) i2]> (m_ptrList l) in
  {| m_Counter := m_Counter l; m_ptrList := <[i2 := temp]> a1 |}.

(** [for (uint8_t i=index; i<m_Counter-1; i++) m_ptrList [i] = m_ptrList [i+1];]
    The bound [m_Counter-1] is computed in [int]; for [m_Counter = 0] it is
    [-1] and the loop body never runs, as with the truncated subtraction of
    [nat].  At most [m_Counter] rounds are possible. *)
Fixpoint Remove_loop (rounds cnt i : nat) (a : list ptr) : list ptr :=
  match rounds with
  | O => a
  | S rounds' =>
      if i <? cnt - 1 then Remove_loop rounds' cnt (S i) (<[i := cell a (S i)]> a)
      else a
  end.

Definition Remove (index : nat) (l : List) : List :=
  let a := Remove_loop (m_Counter l) (m_Counter l) index (m_ptrList l) in
  if index <? m_Counter l then {| m_Counter := m_Counter l - 1; m_ptrList := a |}
  else {| m_Counter := m_Counter l; m_ptrList := a |}.

(** ** [Timer] (Timer.h, Timer.cpp) *)

Record Timer := mk_Timer {
  _timeOutList : List;
  _presentTime : Z          (* uint16_t: the interrupt clock *)
}.

(** The machine: the global [timer], the caller owned [timeElement] objects by
    address, and the callback calls made so far, oldest first.  A callback is
    opaque user code; the model records that it was called and assumes it
    leaves the scheduler and the objects alone. *)
Record World := mk_World {
  timer : Timer;
  heap : ptr → timeElement;
  calls : list Call
}.

Definition set_list (l : List) (w : World) : World :=
  {| timer := {| _timeOutList := l; _presentTime := _presentTime (timer w) |};
     heap := heap w; calls := calls w |}.

Definition set_clock (t : Z) (w : World) : World :=
  {| timer := {| _timeOutList := _timeOutList (timer w); _presentTime := t |};
     heap := heap w; calls := calls w |}.

Definition set_elem (p : ptr) (te : timeElement) (w : World) : World :=
  {| timer := timer w; heap := <[p := te]> (heap w); calls := calls w |}.

Definition log_call (c : Call) (w : World) : World :=
  {| timer := timer w; heap := heap w; calls := calls w ++ [c] |}.

(** The global [timer] in static storage after [Timer::Timer ()]. *)
Definition Timer_new : Timer :=
  {| _timeOutList := List_new; _presentTime := 0 |}.

Definition World_new (h : ptr → timeElement) : World :=
  {| timer := Timer_new; heap := h; calls := [] |}.

Definition getPresentTime (w : World) : Z := _presentTime (timer w).
Definition getCount (w : World) : nat := GetCount (_timeOutList (timer w)).
Definition Timer_isFull (w : World) : bool := isFull (_timeOutList (timer w)).

(** [#define GET_TIMEOUT(x) static_cast<p_timeElement>(_timeOutList[x])->getTimeOut ()] *)
Definition GET_TIMEOUT (w : World) (x : nat) : Z :=
  getTimeOut (heap w (at_ (_timeOutList (timer w)) x)).

(** [if (_presentTime > time) t = time | 0x8000; else t = time;] *)
Definition normalizeTimeOut (w : World) (time : Z) : Z :=
  if (_presentTime (timer w) >? time)%Z then Z.lor time 0x8000 else time.

(** The scan of [Timer::Search]; it leaves the loop by [break], or with
    [i = GetCount ()] after at most [GetCount ()] rounds. *)
Fixpoint Search_loop (rounds : nat) (w : World) (pArg : ptr) (i : nat) : nat :=
  match rounds with
  | O => i
  | S rounds' =>
      if i <? getCount w then
        if (normalizeTimeOut w (getTimeOut (heap w pArg))
            <? normalizeTimeOut w (GET_TIMEOUT w i))%Z
        then i
        else Search_loop rounds' w pArg (S i)
      else i
  end.

Definition Search (w : World) (pArg : ptr) : nat :=
  if 0 =? getCount w then 0
  else Search_loop (getCount w) w pArg 0.

Definition InsertTimer (pArg : ptr) (w : World) : World :=
  if 0 <? getCount w then
    set_list (InsertAt (Search w pArg) pArg (_timeOutList (timer w))) w
  else
    set_list (snd (Add pArg (_timeOutList (timer w)))) w.

Definition startTimer (pArg : ptr) (w : World) : World :=
  let w1 :=
    set_elem pArg
      (setTimeOut (_presentTime (timer w) + getTimePeriod (heap w pArg))
         (heap w pArg)) w in
  InsertTimer pArg w1.

(** [for (i=0; i<_timeOutList.GetCount (); i++) if (_timeOutList[i] == pTE) break;] *)
Fixpoint cancel_scan (rounds : nat) (w : World) (pTE : ptr) (i : nat) : nat :=
  match rounds with
  | O => i
  | S rounds' =>
      if i <? getCount w then
        if decide (at_ (_timeOutList (timer w)) i = pTE) then i
        else cancel_scan rounds' w pTE (S i)
      else i
  end.

Definition cancelTimer (pTE : ptr) (w : World) : World :=
  let i := cancel_scan (getCount w) w pTE 0 in
  set_list (Remove i (_timeOutList (timer w))) w.

(** The [for] loop of [NextTick] that moves the head forward, from index [i]. *)
Fixpoint sort_loop (rounds : nat) (w : World) (i : nat) : World :=
  match rounds with
  | O => w
  | S rounds' =>
      if i <? getCount w then
        if (normalizeTimeOut w (GET_TIMEOUT w (i - 1))
            >? normalizeTimeOut w (GET_TIMEOUT w i))%Z
        then sort_loop rounds' (set_list (Swap (i - 1) i (_timeOutList (timer w))) w) (S i)
        else w
      else w
  end.

(** One round of the [while] loop of [NextTick]: update the head, call it
    back, move it forward. *)
Definition fire_head (w : World) : World :=
  let p := at_ (_timeOutList (timer w)) 0 in
  let w1 := set_elem p (snd (updateTimeOut (heap w p))) w in
  let '(c, _, te) := clockAlarm p (heap w1 p) in
  let w2 := log_call c (set_elem p te w1) in
  sort_loop (getCount w2) w2 1.

(** [while (_presentTime == GET_TIMEOUT (0))]: the loop has no bound in the
    source; [None] says that [fuel] rounds did not end it. *)
Fixpoint NextTick_while (fuel : nat) (w : World) : option World :=
  match fuel with
  | O => None
  | S fuel' =>
      if (_presentTime (timer w) =? GET_TIMEOUT w 0)%Z
      then NextTick_while fuel' (fire_head w)
      else Some w
  end.

Definition NextTick (fuel : nat) (w : World) : option World :=
  let w0 := set_clock (Z.land (u16 (_presentTime (timer w) + 1)) 0x7fff) w in
  if 0 =? getCount w0 then Some w0
  else NextTick_while fuel w0.

(** * Vocabulary of the properties *)

(** ** Time *)

Definition in_clock_range (t : Z) : Prop := (0 ≤ t < 0x8000)%Z.

(** Ticks from the present time until the clock shows [t]. *)
Definition ticks_until (now t : Z) : Z := ((t - now) mod 0x8000)%Z.

(** The time the clock shows once [NextTick] has advanced it. *)
Definition next_time (w : World) : Z :=
  Z.land (u16 (_presentTime (timer w) + 1)) 0x7fff.

(** The machine as the [while] loop of [NextTick] has it after at most [n]
    rounds, whether or not the loop ever ends. *)
Fixpoint NextTick_rounds (n : nat) (w : World) : World :=
  match n with
  | O => w
  | S n' =>
      if (_presentTime (timer w) =? GET_TIMEOUT w 0)%Z
      then NextTick_rounds n' (fire_head w)
      else w
  end.

(** ** The list and its stored sequence *)

(** The references a [List] holds, in order: the first [m_Counter] cells. *)
Definition content (l : List) : list ptr := take (m_Counter l) (m_ptrList l).

(** What the declaration [pObject m_ptrList [MAX_LIST_PTRS]] and the guards on
    [m_Counter] maintain. *)
Definition wf_List (l : List) : Prop :=
  length (m_ptrList l) = MAX_LIST_PTRS ∧ m_Counter l ≤ MAX_LIST_PTRS.

(** The pending sequence: the references the timer holds, in list order. *)
Definition pending (w : World) : list ptr := content (_timeOutList (timer w)).

Definition wf (w : World) : Prop := wf_List (_timeOutList (timer w)).

(** ** Comparison and order *)

(** The value by which the scheduler compares the object at [p]. *)
Definition key (w : World) (p : ptr) : Z :=
  normalizeTimeOut w (getTimeOut (heap w p)).

(** The index the specification describes: the first slot whose wake time is
    not earlier than that of the new object. *)
Definition first_not_earlier (w : World) (pArg : ptr) (i : nat) : Prop :=
  i ≤ getCount w
  ∧ (∀ j, j < i →
       (normalizeTimeOut w (GET_TIMEOUT w j) < key w pArg)%Z)
  ∧ (i < getCount w →
       (normalizeTimeOut w (GET_TIMEOUT w i) >= key w pArg)%Z).

(** The index the code computes: the first slot whose wake time is later than
    that of the new object. *)
Definition first_later (w : World) (pArg : ptr) (i : nat) : Prop :=
  i ≤ getCount w
  ∧ (∀ j, j < i →
       (normalizeTimeOut w (GET_TIMEOUT w j) ≤ key w pArg)%Z)
  ∧ (i < getCount w →
       (normalizeTimeOut w (GET_TIMEOUT w i) > key w pArg)%Z).

(** The sort invariant, as the scheduler compares: no slot compares greater
    than its successor. *)
Definition sort_invariant (w : World) : Prop :=
  ∀ i, S i < getCount w →
    ¬ (normalizeTimeOut w (GET_TIMEOUT w i)
       > normalizeTimeOut w (GET_TIMEOUT w (S i)))%Z.

(** ** Due records and periods *)

(** An object is due when its wake time is the present time. *)
Definition due (w : World) (q : ptr) : Prop :=
  _timeOut (heap w q) = _presentTime (timer w).

#[global] Instance due_dec w q : Decision (due w q).
Proof. unfold due. apply _. Defined.

(** Periods that move the wake time: not a multiple of [0x8000]. *)
Definition period_ok (te : timeElement) : Prop :=
  (_timePeriod te mod 0x8000 ≠ 0)%Z.

Definition periods_ok (w : World) : Prop :=
  ∀ p, p ∈ pending w → period_ok (heap w p).

(** ** The invariant *)

(** Ticks until the object at [p] is due. *)
Definition until (w : World) (p : ptr) : Z :=
  ticks_until (_presentTime (timer w)) (_timeOut (heap w p)).

(** [p] is due no later than [q]. *)
Definition before (w : World) : relation ptr :=
  λ p q, (until w p ≤ until w q)%Z.

(** What holds of the list at every test of the [while] loop of [NextTick]:
    distinct references to objects with registers in range and periods that
    move the wake time, in the order in which they are due. *)
Record Ordered (w : World) : Prop := mk_Ordered {
  ord_wf : wf w;
  ord_clock : in_clock_range (_presentTime (timer w));
  ord_nodup : NoDup (pending w);
  ord_range : ∀ p, p ∈ pending w → in_clock_range (_timeOut (heap w p));
  ord_period : periods_ok w;
  ord_sorted : StronglySorted (before w) (pending w)
}.

(** What holds between the operations: moreover nothing is due now. *)
Definition Inv (w : World) : Prop :=
  Ordered w ∧ ∀ p, p ∈ pending w → ¬ due w p.

(** ** Runs *)

(** The states the scheduler reaches from the empty one when the caller
    registers only records that are not pending and whose period is not a
    multiple of [0x8000].  Besides registering, cancelling and ticking, the
    caller may write any record that is not pending. *)
Inductive reachable : World → Prop :=
| reach_new h :
    reachable (World_new h)
| reach_startTimer w p :
    reachable w → p ∉ pending w → period_ok (heap w p) →
    reachable (startTimer p w)
| reach_cancelTimer w p :
    reachable w → reachable (cancelTimer p w)
| reach_NextTick w fuel w' :
    reachable w → NextTick fuel w = Some w' → reachable w'
| reach_write w p te :
    reachable w → p ∉ pending w → reachable (set_elem p te w).

(** Operations as the caller may issue them, without any discipline. *)
Inductive op : Type :=
| op_startTimer (p : ptr)
| op_cancelTimer (p : ptr)
| op_NextTick.

Definition run_op (fuel : nat) (o : op) (w : World) : option World :=
  match o with
  | op_startTimer p => Some (startTimer p w)
  | op_cancelTimer p => Some (cancelTimer p w)
  | op_NextTick => NextTick fuel w
  end.

Fixpoint run (fuel : nat) (ops : list op) (w : World) : option World :=
  match ops with
  | [] => Some w
  | o :: ops' =>
      match run_op fuel o w with
      | Some w' => run fuel ops' w'
      | None => None
      end
  end.

(** ** Pairs of records *)

(** Two records under observation, and the calls made on them. *)
Definition ab (a b : ptr) (q : ptr) : Prop := q = a ∨ q = b.
Definition ab_call (a b : ptr) (c : Call) : Prop := ab a b (call_this c).

#[global] Instance ab_dec a b q : Decision (ab a b q).
Proof. unfold ab. apply _. Defined.
#[global] Instance ab_call_dec a b c : Decision (ab_call a b c).
Proof. unfold ab_call. apply _. Defined.

(** [a] is pending ahead of [b], with the same wake time, and nothing is due. *)
Definition tied (a b : ptr) (w : World) : Prop :=
  Inv w
  ∧ filter (ab a b) (pending w) = [a; b]
  ∧ _timeOut (heap w a) = _timeOut (heap w b).

(** What may follow the registration of [b]: the operations of [reachable],
    except that neither [a] nor [b] is cancelled. *)
Inductive continues (a b : ptr) : World → World → Prop :=
| cont_here w :
    continues a b w w
| cont_startTimer w w' p :
    continues a b w w' → p ∉ pending w' → period_ok (heap w' p) →
    continues a b w (startTimer p w')
| cont_cancelTimer w w' p :
    continues a b w w' → p ≠ a → p ≠ b →
    continues a b w (cancelTimer p w')
| cont_NextTick w w' fuel w'' :
    continues a b w w' → NextTick fuel w' = Some w'' →
    continues a b w w''
| cont_write w w' p te :
    continues a b w w' → p ∉ pending w' →
    continues a b w (set_elem p te w').

(** The calls on [a] and [b] among [cs] begin with one on [a], then one on
    [b]. *)
Definition a_then_b (a b : ptr) (cs : list Call) : Prop :=
  ∃ ca cb rest,
    filter (ab_call a b) cs = ca :: cb :: rest
    ∧ call_this ca = a ∧ call_this cb = b.

(** ** Example states *)

(** Objects for the examples: periods 5, 7 and 0x8000 at the addresses 1, 2
    and 3. *)
Definition example_heap : ptr → timeElement :=
  λ p, match p with
       | 1 => mk_timeElement 0 5 0 7 11
       | 2 => mk_timeElement 0 7 0 7 12
       | 3 => mk_timeElement 0 0x8000 0 7 13
       | _ => mk_timeElement 0 9 0 7 14
       end.

(** Records with period 5 at every address. *)
Definition tie_heap : ptr → timeElement :=
  λ p, mk_timeElement 0 5 0 7 (Z.of_nat p).

(** Objects with the periods 5, 7 and 4 at the addresses 1, 2 and 3. *)
Definition late_tie_heap : ptr → timeElement :=
  λ p, match p with
       | 1 => mk_timeElement 0 5 0 7 11
       | 2 => mk_timeElement 0 7 0 7 12
       | _ => mk_timeElement 0 4 0 7 13
       end.

(** A full list for the examples: five objects, at addresses 1 to 5. *)
Definition full_example : World :=
  {| timer := {| _timeOutList := {| m_Counter := 5; m_ptrList := [1; 2; 3; 4; 5] |};
                 _presentTime := 10 |};
     heap := λ p, mk_timeElement (10 + Z.of_nat p) 20 0 7 (Z.of_nat p);
     calls := [] |}.

(** One pending object due at 5 with the clock at 0, and a second object that
    is due at 5 as well and is about to be inserted. *)
Definition tie_example : World :=
  {| timer := {| _timeOutList := {| m_Counter := 1; m_ptrList := [1; 0; 0; 0; 0] |};
                 _presentTime := 0 |};
     heap := λ p, mk_timeElement 5 5 0 7 (Z.of_nat p);
     calls := [] |}.

(** A list of three in which the head is due on the next tick and will then
    have used up its repeats. *)
Definition exhausted_example : World :=
  {| timer := {| _timeOutList := {| m_Counter := 3; m_ptrList := [1; 2; 3; 0; 0] |};
                 _presentTime := 99 |};
     heap := λ p, match p with
                  | 1 => mk_timeElement 100 4 1 7 11
                  | 2 => mk_timeElement 102 9 0 7 12
                  | _ => mk_timeElement 107 9 0 7 13
                  end;
     calls := [] |}.

(** A list of two whose head is due on the next tick, at 100, and has the
    period 0x8000. *)
Definition stuck_example : World :=
  {| timer := {| _timeOutList := {| m_Counter := 2; m_ptrList := [1; 2; 0; 0; 0] |};
                 _presentTime := 99 |};
     heap := λ p, match p with
                  | 1 => mk_timeElement 100 0x8000 0 7 11
                  | _ => mk_timeElement 105 9 0 7 12
                  end;
     calls := [] |}.

(** ** Further operations and runs *)


(** The calls of the member functions of [List] that change it. *)
Inductive List_op : Type :=
| L_Add (pData : ptr)
| L_InsertAt (index : nat) (pData : ptr)
| L_Remove (index : nat)
| L_Swap (i1 i2 : nat).

Definition List_do (o : List_op) (l : List) : List :=
  match o with
  | L_Add pData => (Add pData l).2
  | L_InsertAt index pData => InsertAt index pData l
  | L_Remove index => Remove index l
  | L_Swap i1 i2 => Swap i1 i2 l
  end.

(** The calls that stay inside the array [m_ptrList]: [InsertAt] and [Swap]
    write the cells they are given without looking at [m_Counter]. *)
Definition List_op_in_array (o : List_op) : Prop :=
  match o with
  | L_InsertAt index _ => index < MAX_LIST_PTRS
  | L_Swap i1 i2 => i1 < MAX_LIST_PTRS ∧ i2 < MAX_LIST_PTRS
  | _ => True
  end.

(** [n] calls of [updateTimeOut], and [n] calls of [clockAlarm], on an
    object. *)
Definition updateTimeOut_times (n : nat) (te : timeElement) : timeElement :=
  Nat.iter n (λ te', (updateTimeOut te').2) te.

Definition clockAlarm_times (this : ptr) (n : nat) (te : timeElement) : timeElement :=
  Nat.iter n (λ te', (clockAlarm this te').2) te.

(** The calls made on the object at [p]. *)
Definition calls_on (p : ptr) (cs : list Call) : list Call :=
  filter (λ c, call_this c = p) cs.

#[global] Instance op_eq_dec : EqDecision op.
Proof. solve_decision. Defined.

(** The number of ticks among the operations [ops]. *)
Definition count_ticks (ops : list op) : nat :=
  length (filter (λ o, o = op_NextTick) ops).

(** What is on record about a call made while the clock shows [now]: it was
    made on a pending object, with the callback and the argument the object
    holds, and the callback found the wake time one period after [now]. *)
Definition call_in_order (w : World) (now : Z) (c : Call) : Prop :=
  call_this c ∈ pending w
  ∧ call_fn c = _callBack (heap w (call_this c))
  ∧ call_arg c = _arg (heap w (call_this c))
  ∧ _timeOut (call_view c)
    = ((_timePeriod (heap w (call_this c)) + now) mod 0x8000)%Z.

(** The scheduler [k] ticks later, as far as the record [p] is concerned:
    between the ticks other records may be registered as in [reachable],
    cancelled or, while they are not pending, written by their owner; [p]
    itself is left to the scheduler. *)
Inductive ticks_later (p : ptr) : nat → World → World → Prop :=
| later_now w :
    ticks_later p 0 w w
| later_startTimer k w w' q :
    ticks_later p k w w' → q ≠ p → q ∉ pending w' → period_ok (heap w' q) →
    ticks_later p k w (startTimer q w')
| later_cancelTimer k w w' q :
    ticks_later p k w w' → q ≠ p →
    ticks_later p k w (cancelTimer q w')
| later_write k w w' q te :
    ticks_later p k w w' → q ≠ p → q ∉ pending w' →
    ticks_later p k w (set_elem q te w')
| later_NextTick k w w' fuel w'' :
    ticks_later p k w w' → NextTick fuel w' = Some w'' →
    ticks_later p (S k) w w''.








(** * Properties *)

(** ** Time arithmetic *)

(** Linear arithmetic with [mod] by a constant. *)
Ltac zmod := Z.to_euclidean_division_equations; lia.

Lemma land_u16_7fff x : Z.land (u16 x) 0x7fff = (x mod 0x8000)%Z.
Proof.
  unfold u16. change 0x7fff%Z with (Z.ones 15).
  rewrite Z.land_ones by lia. change (2 ^ 15)%Z with 0x8000%Z.
  apply Z.mod_mod_divide. by exists 2%Z.
Qed.

Lemma land_u16_7fff_range x : in_clock_range (Z.land (u16 x) 0x7fff).
Proof.
  rewrite land_u16_7fff. unfold in_clock_range.
  apply Z.mod_pos_bound. lia.
Qed.

Lemma lor_bit15 t : in_clock_range t → Z.lor t 0x8000 = (t + 0x8000)%Z.
Proof.
  intros [H0 H1].
  assert (Hl : Z.land t 0x8000 = 0%Z).
  { apply Z.bits_inj'. intros n Hn. rewrite Z.land_spec, Z.bits_0.
    change 0x8000%Z with (2 ^ 15)%Z. rewrite Z.pow2_bits_eqb by lia.
    destruct (Z.eqb_spec 15 n) as [<-|Hne].
    - rewrite andb_true_r.
      destruct (Z.eq_dec t 0%Z) as [->|Hnz]; [apply Z.bits_0|].
      apply Z.bits_above_log2; [lia|].
      apply Z.log2_lt_pow2; [lia|]. exact H1.
    - apply andb_false_r. }
  pose proof (Z.add_lor_land t 0x8000) as Ha. rewrite Hl in Ha. lia.
Qed.

Lemma normalizeTimeOut_ticks w t :
  in_clock_range (_presentTime (timer w)) → in_clock_range t →
  normalizeTimeOut w t = (_presentTime (timer w) + ticks_until (_presentTime (timer w)) t)%Z.
Proof.
  intros Hn Ht. unfold normalizeTimeOut, ticks_until.
  set (now := _presentTime (timer w)) in *.
  unfold in_clock_range in *.
  destruct (Z.gtb_spec now t) as [Hgt|Hle].
  - rewrite lor_bit15 by (unfold in_clock_range; lia). zmod.
  - zmod.
Qed.

(** C2.  With the clock at [now], the normalised values of two wake times in
    [0, 0x7FFF] compare exactly as their numbers of ticks until wake,
    [(t - now) mod 0x8000]; in particular a wake time that lies before [now]
    normalises to a larger value than every wake time at or after [now]. *)
Theorem normalizeTimeOut_orders_by_ticks_until :
  ∀ (w : World) (t1 t2 : Z),
    in_clock_range (_presentTime (timer w)) →
    in_clock_range t1 →
    in_clock_range t2 →
    ((normalizeTimeOut w t1 < normalizeTimeOut w t2)%Z ↔
     (ticks_until (_presentTime (timer w)) t1 < ticks_until (_presentTime (timer w)) t2)%Z)
    ∧ ((t1 < _presentTime (timer w))%Z → (_presentTime (timer w) ≤ t2)%Z →
       (normalizeTimeOut w t2 < normalizeTimeOut w t1)%Z).
Proof.
  intros w t1 t2 Hn H1 H2. split.
  - rewrite !normalizeTimeOut_ticks by assumption. lia.
  - intros Hpast Hfut. unfold normalizeTimeOut.
    destruct (Z.gtb_spec (_presentTime (timer w)) t1); [|lia].
    destruct (Z.gtb_spec (_presentTime (timer w)) t2); [lia|].
    rewrite lor_bit15 by assumption. unfold in_clock_range in *. lia.
Qed.

Lemma normalizeTimeOut_orders_by_ticks_until_witness :
  let w := set_clock 0x7FFE (World_new (λ _, mk_timeElement 0 1 0 0 0)) in
  ((normalizeTimeOut w 3 < normalizeTimeOut w 0x7FFF)%Z ↔
   (ticks_until 0x7FFE 3 < ticks_until 0x7FFE 0x7FFF)%Z)
  ∧ ((3 < 0x7FFE)%Z → (0x7FFE ≤ 0x7FFF)%Z →
     (normalizeTimeOut w 0x7FFF < normalizeTimeOut w 3)%Z).
Proof.
  apply (normalizeTimeOut_orders_by_ticks_until
           (set_clock 0x7FFE (World_new (λ _, mk_timeElement 0 1 0 0 0))) 3 0x7FFF);
    unfold in_clock_range; simpl; lia.
Defined.

(** ** The array of [List], cell by cell *)

Section array.
Implicit Types (a l rest : list ptr) (x y z : ptr).

Lemma cell_middle l1 l2 x n : n = length l1 → cell (l1 ++ x :: l2) n = x.
Proof. apply list_lookup_total_middle. Qed.

Lemma write_middle l1 l2 x y n :
  n = length l1 → <[n := y]> (l1 ++ x :: l2) = l1 ++ y :: l2.
Proof.
  intros ->. replace (length l1) with (length l1 + 0) by lia.
  by rewrite insert_app_r.
Qed.

(** The shifting loop of [InsertAt] opens a gap at [length l1]; the cell in
    the gap keeps what it held. *)
Lemma InsertAt_loop_app l2 : ∀ l1 x rest,
  InsertAt_loop (length l1 + length l2) (length l1) (l1 ++ l2 ++ x :: rest)
  = l1 ++ hd x l2 :: l2 ++ rest.
Proof.
  induction l2 as [|y l2 IH] using rev_ind; intros l1 x rest.
  - simpl. rewrite Nat.add_0_r.
    destruct (length l1) as [|n] eqn:E; [done|].
    simpl. destruct (Nat.ltb_spec (S n) (S n)); [lia|done].
  - rewrite length_app. simpl.
    replace (length l1 + (length l2 + 1)) with (S (length l1 + length l2)) by lia.
    cbn [InsertAt_loop].
    destruct (Nat.ltb_spec (length l1) (S (length l1 + length l2))) as [_|Hlt]; [|lia].
    { rewrite <- (app_assoc l2 [y] (x :: rest)). simpl.
      rewrite (app_assoc l1 l2 (y :: x :: rest)).
      rewrite cell_middle by (rewrite length_app; lia).
      replace ((l1 ++ l2) ++ y :: x :: rest)
        with (((l1 ++ l2) ++ [y]) ++ x :: rest) by (by rewrite <- !app_assoc).
      rewrite write_middle by (rewrite !length_app; simpl; lia).
      rewrite <- !app_assoc. simpl.
      rewrite (IH l1 y (y :: rest)).
      by destruct l2. }
Qed.

Lemma default_last_cons y z l : default y (last (z :: l)) = default z (last l).
Proof.
  destruct l as [|p l]; [done|].
  change (last (z :: p :: l)) with (last (p :: l)).
  destruct (last (p :: l)) eqn:E; [done|].
  by apply last_None in E.
Qed.

(** The shifting loop of [Remove] closes the gap at [length l1]; the last
    cell of the shifted range keeps what it held. *)
Lemma Remove_loop_app l2 : ∀ rounds l1 y rest,
  length l2 ≤ rounds →
  Remove_loop rounds (length l1 + S (length l2)) (length l1) (l1 ++ y :: l2 ++ rest)
  = l1 ++ l2 ++ default y (last l2) :: rest.
Proof.
  induction l2 as [|z l2 IH]; intros rounds l1 y rest Hr.
  - destruct rounds; simpl; [done|].
    destruct (Nat.ltb_spec (length l1) (length l1 + 1 - 1)); [lia|done].
  - destruct rounds as [|rounds]; [simpl in Hr; lia|].
    cbn [Remove_loop].
    destruct (Nat.ltb_spec (length l1) (length l1 + S (length (z :: l2)) - 1)) as [_|Hge];
      [|simpl in Hge; lia].
    replace (l1 ++ y :: (z :: l2) ++ rest) with ((l1 ++ [y]) ++ z :: l2 ++ rest)
      by (by rewrite <- app_assoc).
    rewrite cell_middle by (rewrite length_app; simpl; lia).
    rewrite <- app_assoc. simpl.
    rewrite write_middle by done.
    specialize (IH rounds (l1 ++ [z]) z rest).
    rewrite length_app in IH. simpl in IH.
    replace (length l1 + S (length (z :: l2))) with (length l1 + 1 + S (length l2))
      by (simpl; lia).
    replace (length l1 + S (S (length l2))) with (length l1 + 1 + S (length l2))
      by lia.
    replace (S (length l1)) with (length l1 + 1) by lia.
    replace (l1 ++ z :: z :: l2 ++ rest) with ((l1 ++ [z]) ++ z :: l2 ++ rest)
      by (by rewrite <- app_assoc).
    rewrite IH by (simpl in Hr; lia).
    rewrite <- app_assoc. simpl. by rewrite default_last_cons.
Qed.

Lemma Swap_adjacent l1 l2 x y cnt n :
  n = length l1 →
  Swap n (S n) {| m_Counter := cnt; m_ptrList := l1 ++ x :: y :: l2 |}
  = {| m_Counter := cnt; m_ptrList := l1 ++ y :: x :: l2 |}.
Proof.
  intros ->. unfold Swap. simpl. f_equal.
  rewrite cell_middle by done.
  replace (l1 ++ x :: y :: l2) with ((l1 ++ [x]) ++ y :: l2) at 1
    by (by rewrite <- app_assoc).
  rewrite cell_middle by (rewrite length_app; simpl; lia).
  rewrite write_middle by done.
  replace (l1 ++ y :: y :: l2) with ((l1 ++ [y]) ++ y :: l2)
    by (by rewrite <- app_assoc).
  rewrite write_middle by (rewrite length_app; simpl; lia).
  by rewrite <- app_assoc.
Qed.
End array.

(** ** The stored sequence of a [List] *)

Lemma wf_List_new : wf_List List_new.
Proof. split; [apply length_replicate | simpl; lia]. Qed.

Lemma wf_List_split l :
  wf_List l →
  ∃ rest, m_ptrList l = content l ++ rest
          ∧ length (content l) = m_Counter l
          ∧ m_Counter l + length rest = MAX_LIST_PTRS.
Proof.
  intros [Hlen Hc]. exists (drop (m_Counter l) (m_ptrList l)).
  unfold content. rewrite take_drop, length_take, length_drop.
  split; [done | lia].
Qed.

Lemma List_eta l : {| m_Counter := m_Counter l; m_ptrList := m_ptrList l |} = l.
Proof. by destruct l. Qed.

Lemma at_content l i :
  wf_List l → i < m_Counter l → at_ l i = content l !!! i.
Proof.
  intros Hwf Hi. destruct (wf_List_split l Hwf) as (rest & Ha & Hl & _).
  unfold at_, cell. rewrite Ha. rewrite lookup_total_app_l by lia. done.
Qed.

Lemma Add_content p l :
  wf_List l → m_Counter l < MAX_LIST_PTRS →
  content (snd (Add p l)) = content l ++ [p] ∧ wf_List (snd (Add p l)).
Proof.
  intros Hwf Hlt. destruct (wf_List_split l Hwf) as (rest & Ha & Hl & Hr).
  unfold Add. destruct (Nat.ltb_spec (m_Counter l) MAX_LIST_PTRS); [|lia]. simpl.
  destruct rest as [|x rest]; [simpl in Hr; lia|].
  split.
  - unfold content at 1. simpl. rewrite Ha.
    rewrite write_middle by done.
    replace (content l ++ p :: rest) with ((content l ++ [p]) ++ rest)
      by (by rewrite <- app_assoc).
    apply take_app_length'. rewrite length_app. simpl. lia.
  - split; simpl; [|lia]. rewrite length_insert. apply Hwf.
Qed.

Lemma InsertAt_full index p l : MAX_LIST_PTRS ≤ m_Counter l → InsertAt index p l = l.
Proof.
  intros H. unfold InsertAt.
  by destruct (Nat.ltb_spec (m_Counter l) MAX_LIST_PTRS); [lia|].
Qed.

Lemma InsertAt_content index p l :
  wf_List l → m_Counter l < MAX_LIST_PTRS → index ≤ m_Counter l →
  content (InsertAt index p l) = take index (content l) ++ p :: drop index (content l)
  ∧ wf_List (InsertAt index p l).
Proof.
  intros Hwf Hlt Hi. destruct (wf_List_split l Hwf) as (rest & Ha & Hl & Hr).
  unfold InsertAt. destruct (Nat.ltb_spec (m_Counter l) MAX_LIST_PTRS); [|lia].
  destruct rest as [|x rest]; [simpl in Hr; lia|].
  set (l1 := take index (content l)).
  set (l2 := drop index (content l)).
  assert (Hc : content l = l1 ++ l2) by (symmetry; apply take_drop).
  assert (Hl1 : length l1 = index) by (unfold l1; rewrite length_take; lia).
  assert (Hl2 : length l1 + length l2 = m_Counter l)
    by (by rewrite <- Hl, Hc, length_app).
  assert (Hloop : InsertAt_loop (m_Counter l) index (m_ptrList l)
                  = l1 ++ hd x l2 :: l2 ++ rest).
  { rewrite Ha, Hc, <- app_assoc, <- Hl2, <- Hl1. apply InsertAt_loop_app. }
  split.
  - unfold content at 1. simpl. rewrite Hloop.
    rewrite write_middle by done.
    replace (l1 ++ p :: l2 ++ rest) with ((l1 ++ p :: l2) ++ rest)
      by (by rewrite <- app_assoc).
    apply take_app_length'. rewrite length_app. simpl. lia.
  - split; simpl; [|lia]. rewrite length_insert, Hloop.
    rewrite length_app. simpl. rewrite length_app.
    simpl in Hr. lia.
Qed.

Lemma Remove_ge index l : m_Counter l ≤ index → Remove index l = l.
Proof.
  intros H. unfold Remove.
  destruct (Nat.ltb_spec index (m_Counter l)); [lia|].
  destruct (m_Counter l) as [|n] eqn:E; simpl.
  - rewrite <- E. apply List_eta.
  - destruct (Nat.ltb_spec index (n - 0)); [lia|]. rewrite <- E. apply List_eta.
Qed.

Lemma Remove_content index l :
  wf_List l → index < m_Counter l →
  content (Remove index l) = delete index (content l)
  ∧ wf_List (Remove index l).
Proof.
  intros Hwf Hi. destruct (wf_List_split l Hwf) as (rest & Ha & Hl & Hr).
  unfold Remove. destruct (Nat.ltb_spec index (m_Counter l)); [|lia].
  destruct (lookup_lt_is_Some_2 (content l) index) as [y Hy]; [lia|].
  pose proof (take_drop_middle _ _ _ Hy) as Hmid.
  set (l1 := take index (content l)) in *.
  set (l2 := drop (S index) (content l)) in *.
  assert (Hl1 : length l1 = index) by (unfold l1; rewrite length_take; lia).
  assert (Hl2 : length l2 = m_Counter l - S index)
    by (unfold l2; rewrite length_drop; lia).
  assert (Hloop : Remove_loop (m_Counter l) (m_Counter l) index (m_ptrList l)
                  = l1 ++ l2 ++ default y (last l2) :: rest).
  { rewrite Ha, <- Hmid, <- app_assoc. simpl.
    rewrite <- (Remove_loop_app l2 (m_Counter l) l1 y rest) by lia.
    f_equal; lia. }
  split.
  - unfold content at 1. simpl. rewrite Hloop.
    rewrite <- Hmid, <- Hl1, delete_middle, app_assoc.
    apply take_app_length'. rewrite length_app. lia.
  - split; simpl; [|lia]. rewrite Hloop.
    rewrite !length_app. simpl. lia.
Qed.

Lemma Swap_content l l1 l2 x y :
  wf_List l → content l = l1 ++ x :: y :: l2 →
  content (Swap (length l1) (S (length l1)) l) = l1 ++ y :: x :: l2
  ∧ wf_List (Swap (length l1) (S (length l1)) l).
Proof.
  intros Hwf Hc. destruct (wf_List_split l Hwf) as (rest & Ha & Hl & Hr).
  rewrite <- (List_eta l), Ha, Hc, <- app_assoc. simpl.
  rewrite Swap_adjacent by done.
  rewrite Hc, length_app in Hl. simpl in Hl.
  split.
  - unfold content. simpl.
    replace (l1 ++ y :: x :: l2 ++ rest) with ((l1 ++ y :: x :: l2) ++ rest)
      by (by rewrite <- app_assoc).
    apply take_app_length'. rewrite length_app. simpl. lia.
  - split; simpl; [|apply Hwf].
    rewrite length_app. simpl. rewrite length_app. lia.
Qed.

(** ** The scheduler's view of its list *)

Lemma Timer_eta t :
  {| _timeOutList := _timeOutList t; _presentTime := _presentTime t |} = t.
Proof. by destruct t. Qed.

Lemma set_list_same w : set_list (_timeOutList (timer w)) w = w.
Proof. unfold set_list. rewrite Timer_eta. by destruct w. Qed.

Lemma wf_World_new h : wf (World_new h).
Proof. apply wf_List_new. Qed.

Lemma length_pending w : wf w → length (pending w) = getCount w.
Proof.
  intros Hwf. destruct (wf_List_split _ Hwf) as (rest & _ & Hl & _). exact Hl.
Qed.

Lemma at_pending_middle w l1 l2 x :
  wf w → pending w = l1 ++ x :: l2 →
  at_ (_timeOutList (timer w)) (length l1) = x.
Proof.
  intros Hwf Hp. pose proof (length_pending w Hwf) as Hl.
  rewrite at_content; [|done|].
  - fold (pending w). rewrite Hp. by apply list_lookup_total_middle.
  - unfold getCount, GetCount in Hl. rewrite <- Hl, Hp, length_app. simpl. lia.
Qed.

(** ** [clockAlarm] *)

(** C4.  [clockAlarm] calls the callback with the stored argument, on the
    object as it stands before the counter is touched; it then decrements
    [_repeats] exactly when [_repeats] is not 0, and returns false exactly when
    that decrement reached 0.  With [_repeats = 0] on entry the object is left
    as it is and the result is true; with [_repeats = 1] the result is false. *)
Theorem clockAlarm_spec :
  ∀ (this : ptr) (te : timeElement),
    let r := clockAlarm this te in
    let c := r.1.1 in
    let continue := r.1.2 in
    let te' := r.2 in
    (call_this c = this ∧ call_fn c = _callBack te ∧ call_arg c = _arg te
     ∧ call_view c = te)
    ∧ (_repeats te ≠ 0%Z → _repeats te' = u16 (_repeats te - 1))
    ∧ ((0 < _repeats te < 65536)%Z → _repeats te' = (_repeats te - 1)%Z)
    ∧ (_repeats te = 0%Z → te' = te ∧ continue = true)
    ∧ (continue = false ↔ _repeats te ≠ 0%Z ∧ _repeats te' = 0%Z)
    ∧ (_repeats te = 1%Z → continue = false ∧ _repeats te' = 0%Z)
    ∧ (_timeOut te' = _timeOut te ∧ _timePeriod te' = _timePeriod te
       ∧ _callBack te' = _callBack te ∧ _arg te' = _arg te).
Proof.
  intros this te. unfold clockAlarm. cbv zeta.
  assert (Hsmall : (0 < _repeats te < 65536)%Z → u16 (_repeats te - 1) = (_repeats te - 1)%Z).
  { intros ?. unfold u16. apply Z.mod_small. lia. }
  destruct (Z.eqb_spec 0 (_repeats te)) as [Hz|Hnz]; cbn [negb].
  - simpl. split_and!; try done; try lia.
  - cbn [set_repeats _repeats].
    destruct (Z.eqb_spec 0 (u16 (_repeats te - 1))) as [Hd|Hd];
      cbn [fst snd set_repeats _repeats _timeOut _timePeriod _callBack _arg
           callFunction call_this call_fn call_arg call_view].
    + split_and!; try done; try lia; auto.
    + split_and!; try done; try lia; auto.
Qed.

(** ** [startTimer] on a full list *)

Lemma InsertTimer_full pArg w :
  Timer_isFull w = true → InsertTimer pArg w = w.
Proof.
  unfold Timer_isFull, isFull. intros Hfull%Nat.eqb_eq.
  unfold InsertTimer, getCount, GetCount.
  destruct (0 <? m_Counter (_timeOutList (timer w))).
  - rewrite InsertAt_full by lia. apply set_list_same.
  - unfold Add. destruct (Nat.ltb_spec (m_Counter (_timeOutList (timer w))) MAX_LIST_PTRS);
      [lia|]. apply set_list_same.
Qed.

Lemma startTimer_full pArg w :
  Timer_isFull w = true →
  startTimer pArg w
  = set_elem pArg (setTimeOut (_presentTime (timer w) + getTimePeriod (heap w pArg))
                     (heap w pArg)) w.
Proof. intros Hfull. unfold startTimer. by apply InsertTimer_full. Qed.

(** C8.  On a full list (the list holds [MAX_LIST_PTRS] references, [isFull]
    is true) [startTimer] leaves the count, the answer of [isFull], the stored
    sequence of references, and indeed the whole [Timer] object as they were.
    It returns nothing and calls nothing. *)
Theorem startTimer_full_rejected :
  ∀ (w : World) (pArg : ptr),
    getCount w = MAX_LIST_PTRS →
    Timer_isFull w = true
    ∧ getCount (startTimer pArg w) = getCount w
    ∧ Timer_isFull (startTimer pArg w) = true
    ∧ pending (startTimer pArg w) = pending w
    ∧ timer (startTimer pArg w) = timer w
    ∧ calls (startTimer pArg w) = calls w.
Proof.
  intros w pArg Hcount.
  assert (Hfull : Timer_isFull w = true) by (by apply Nat.eqb_eq).
  rewrite startTimer_full by done. by split_and!.
Qed.

Lemma startTimer_full_rejected_witness :
  Timer_isFull full_example = true
  ∧ getCount (startTimer 6 full_example) = getCount full_example
  ∧ Timer_isFull (startTimer 6 full_example) = true
  ∧ pending (startTimer 6 full_example) = pending full_example
  ∧ timer (startTimer 6 full_example) = timer full_example
  ∧ calls (startTimer 6 full_example) = calls full_example.
Proof. apply (startTimer_full_rejected full_example 6). reflexivity. Defined.

(** C10.  On a full list [startTimer] still writes the caller's object: its
    [_timeOut] becomes [(clock + period) mod 0x8000].  The [Timer] object and
    every other [timeElement] are as before, and so are the other fields of
    the object; the object itself differs whenever its [_timeOut] was not that
    value already. *)
Theorem startTimer_full_writes_timeOut :
  ∀ (w : World) (pArg : ptr),
    getCount w = MAX_LIST_PTRS →
    timer (startTimer pArg w) = timer w
    ∧ _timeOut (heap (startTimer pArg w) pArg)
      = ((_presentTime (timer w) + _timePeriod (heap w pArg)) mod 0x8000)%Z
    ∧ (_timePeriod (heap (startTimer pArg w) pArg) = _timePeriod (heap w pArg)
       ∧ _repeats (heap (startTimer pArg w) pArg) = _repeats (heap w pArg)
       ∧ _callBack (heap (startTimer pArg w) pArg) = _callBack (heap w pArg)
       ∧ _arg (heap (startTimer pArg w) pArg) = _arg (heap w pArg))
    ∧ (∀ q, q ≠ pArg → heap (startTimer pArg w) q = heap w q)
    ∧ (_timeOut (heap w pArg)
       ≠ ((_presentTime (timer w) + _timePeriod (heap w pArg)) mod 0x8000)%Z →
       heap (startTimer pArg w) pArg ≠ heap w pArg).
Proof.
  intros w pArg Hcount.
  assert (Hfull : Timer_isFull w = true) by (by apply Nat.eqb_eq).
  rewrite startTimer_full by done.
  unfold set_elem. cbn [timer heap].
  rewrite fn_lookup_insert. unfold setTimeOut, getTimePeriod.
  cbn [_timeOut _timePeriod _repeats _callBack _arg].
  rewrite land_u16_7fff.
  split_and!; try done.
  - intros q Hq. by rewrite fn_lookup_insert_ne.
  - intros Hne Heq. apply Hne. rewrite <- Heq at 1. done.
Qed.

Lemma startTimer_full_writes_timeOut_witness :
  timer (startTimer 6 full_example) = timer full_example
  ∧ _timeOut (heap (startTimer 6 full_example) 6) = ((10 + 20) mod 0x8000)%Z
  ∧ (_timePeriod (heap (startTimer 6 full_example) 6) = 20%Z
     ∧ _repeats (heap (startTimer 6 full_example) 6) = 0%Z
     ∧ _callBack (heap (startTimer 6 full_example) 6) = 7%Z
     ∧ _arg (heap (startTimer 6 full_example) 6) = 6%Z)
  ∧ (∀ q, q ≠ 6 → heap (startTimer 6 full_example) q = heap full_example q)
  ∧ (16%Z ≠ ((10 + 20) mod 0x8000)%Z →
     heap (startTimer 6 full_example) 6 ≠ heap full_example 6).
Proof. apply (startTimer_full_writes_timeOut full_example 6). reflexivity. Defined.

(** ** [cancelTimer] *)

(** The scan stops at the first slot holding [pTE]. *)
Lemma cancel_scan_found w pTE l1 : ∀ l0 l2 rounds,
  wf w → pending w = l0 ++ l1 ++ pTE :: l2 → pTE ∉ l1 → length l1 < rounds →
  cancel_scan rounds w pTE (length l0) = length l0 + length l1.
Proof.
  induction l1 as [|x l1 IH]; intros l0 l2 rounds Hwf Hp Hnin Hr.
  - destruct rounds as [|rounds]; [simpl in Hr; lia|]. simpl.
    pose proof (length_pending w Hwf) as Hl.
    rewrite Hp, length_app in Hl. simpl in Hl.
    destruct (Nat.ltb_spec (length l0) (getCount w)); [|lia].
    rewrite (at_pending_middle w l0 l2 pTE) by done.
    rewrite decide_True by done. lia.
  - destruct rounds as [|rounds]; [simpl in Hr; lia|]. cbn [cancel_scan].
    pose proof (length_pending w Hwf) as Hl.
    rewrite Hp, !length_app in Hl. simpl in Hl.
    destruct (Nat.ltb_spec (length l0) (getCount w)); [|lia].
    rewrite (at_pending_middle w l0 (l1 ++ pTE :: l2) x) by done.
    rewrite decide_False by (intros ->; apply Hnin; left).
    specialize (IH (l0 ++ [x]) l2 rounds Hwf).
    rewrite length_app in IH. simpl in IH.
    replace (S (length l0)) with (length l0 + 1) by lia.
    rewrite IH.
    + simpl. lia.
    + by rewrite <- app_assoc.
    + intros Hin. apply Hnin. by right.
    + simpl in Hr. lia.
Qed.

(** Without such a slot the scan ends one past the last reference. *)
Lemma cancel_scan_absent w pTE l1 : ∀ l0 rounds,
  wf w → pending w = l0 ++ l1 → pTE ∉ l1 → length l1 ≤ rounds →
  cancel_scan rounds w pTE (length l0) = getCount w.
Proof.
  induction l1 as [|x l1 IH]; intros l0 rounds Hwf Hp Hnin Hr;
    pose proof (length_pending w Hwf) as Hl;
    rewrite Hp, length_app in Hl; simpl in Hl.
  - destruct rounds as [|rounds]; simpl; [lia|].
    destruct (Nat.ltb_spec (length l0) (getCount w)); lia.
  - destruct rounds as [|rounds]; [simpl in Hr; lia|]. cbn [cancel_scan].
    destruct (Nat.ltb_spec (length l0) (getCount w)); [|lia].
    rewrite (at_pending_middle w l0 l1 x) by done.
    rewrite decide_False by (intros ->; apply Hnin; left).
    specialize (IH (l0 ++ [x]) rounds Hwf).
    rewrite length_app in IH. simpl in IH.
    replace (S (length l0)) with (length l0 + 1) by lia.
    apply IH.
    + by rewrite <- app_assoc.
    + intros Hin. apply Hnin. by right.
    + simpl in Hr. lia.
Qed.

Lemma cancelTimer_absent w pTE : wf w → pTE ∉ pending w → cancelTimer pTE w = w.
Proof.
  intros Hwf Hnin. unfold cancelTimer.
  pose proof (cancel_scan_absent w pTE (pending w) [] (getCount w) Hwf eq_refl Hnin)
    as Hs.
  simpl in Hs. rewrite Hs by (by rewrite length_pending).
  rewrite Remove_ge by done. apply set_list_same.
Qed.

Lemma pending_set_list l w : pending (set_list l w) = content l.
Proof. done. Qed.

Lemma cancelTimer_present w pTE l1 l2 :
  wf w → pending w = l1 ++ pTE :: l2 → pTE ∉ l1 →
  pending (cancelTimer pTE w) = l1 ++ l2 ∧ wf (cancelTimer pTE w).
Proof.
  intros Hwf Hp Hnin. unfold cancelTimer.
  pose proof (length_pending w Hwf) as Hl.
  rewrite Hp, length_app in Hl. simpl in Hl.
  pose proof (cancel_scan_found w pTE l1 [] l2 (getCount w) Hwf Hp Hnin) as Hs.
  simpl in Hs. rewrite Hs by lia.
  destruct (Remove_content (length l1) (_timeOutList (timer w)) Hwf) as [Hc Hw].
  { unfold getCount, GetCount in Hl. lia. }
  split; [|exact Hw].
  rewrite pending_set_list, Hc. fold (pending w). rewrite Hp.
  apply delete_middle.
Qed.

Lemma cancelTimer_wf w pTE : wf w → wf (cancelTimer pTE w).
Proof.
  intros Hwf. destruct (decide (pTE ∈ pending w)) as [Hin|Hnin].
  - apply list_elem_of_split_l in Hin as (l1 & l2 & Hp & Hn).
    by apply (cancelTimer_present w pTE l1 l2).
  - by rewrite cancelTimer_absent.
Qed.

(** C9 (amended).  [cancelTimer] on a reference the pending list does not
    hold changes nothing at all, so the count and the stored sequence stay as
    they are.  On a reference the list holds it removes the first slot that
    holds it and no other.  Hence cancelling a reference that the list holds
    at most once, twice in a row, is the same as cancelling it once: the
    second call changes nothing; and the list stays well formed after every
    call. *)
Theorem cancelTimer_unregistered_noop :
  ∀ (w : World) (pTE : ptr),
    wf w →
    (pTE ∉ pending w →
     cancelTimer pTE w = w
     ∧ getCount (cancelTimer pTE w) = getCount w
     ∧ pending (cancelTimer pTE w) = pending w)
    ∧ (NoDup (pending w) →
       (pTE ∉ pending (cancelTimer pTE w))
       ∧ cancelTimer pTE (cancelTimer pTE w) = cancelTimer pTE w)
    ∧ wf (cancelTimer pTE w)
    ∧ wf (cancelTimer pTE (cancelTimer pTE w))
    ∧ (∀ l1 l2, pending w = l1 ++ pTE :: l2 → pTE ∉ l1 →
         pending (cancelTimer pTE w) = l1 ++ l2
         ∧ getCount (cancelTimer pTE w) + 1 = getCount w
         ∧ (pTE ∉ l2 →
            cancelTimer pTE (cancelTimer pTE w) = cancelTimer pTE w)).
Proof.
  intros w pTE Hwf. split_and!.
  - intros Hnin. by rewrite cancelTimer_absent.
  - intros Hnd.
    assert (Hgone : pTE ∉ pending (cancelTimer pTE w)).
    { destruct (decide (pTE ∈ pending w)) as [Hin|Hnin].
      - apply list_elem_of_split_l in Hin as (l1 & l2 & Hp & Hn).
        destruct (cancelTimer_present w pTE l1 l2 Hwf Hp Hn) as [-> _].
        rewrite Hp in Hnd. apply NoDup_app in Hnd as (_ & Hd & Hnd2).
        apply NoDup_cons in Hnd2 as [Hn2 _].
        intros [?|?]%elem_of_app; done.
      - by rewrite cancelTimer_absent. }
    split; [done|]. apply cancelTimer_absent; [by apply cancelTimer_wf | done].
  - by apply cancelTimer_wf.
  - by do 2 apply cancelTimer_wf.
  - intros l1 l2 Hp Hn.
    destruct (cancelTimer_present w pTE l1 l2 Hwf Hp Hn) as [Hp' Hwf'].
    split_and!.
    + done.
    + rewrite <- !length_pending by done. rewrite Hp', Hp, !length_app. simpl. lia.
    + intros Hn2. apply cancelTimer_absent; [done|].
      rewrite Hp'. intros [?|?]%elem_of_app; done.
Qed.

Lemma full_example_wf : wf full_example.
Proof. split; [reflexivity | simpl; unfold MAX_LIST_PTRS; lia]. Qed.

Lemma cancelTimer_unregistered_noop_witness :
  (cancelTimer 6 full_example = full_example
   ∧ getCount (cancelTimer 6 full_example) = getCount full_example
   ∧ pending (cancelTimer 6 full_example) = pending full_example)
  ∧ (2 ∈ pending full_example
     ∧ pending (cancelTimer 2 full_example) = [1] ++ [3; 4; 5]
     ∧ getCount (cancelTimer 2 full_example) + 1 = getCount full_example
     ∧ (2 ∉ pending (cancelTimer 2 full_example))
     ∧ cancelTimer 2 (cancelTimer 2 full_example) = cancelTimer 2 full_example
     ∧ wf (cancelTimer 2 full_example)
     ∧ wf (cancelTimer 2 (cancelTimer 2 full_example))).
Proof.
  split.
  - destruct (cancelTimer_unregistered_noop full_example 6 full_example_wf)
      as (Habsent & _).
    apply Habsent. apply (bool_decide_unpack _). by vm_compute.
  - destruct (cancelTimer_unregistered_noop full_example 2 full_example_wf)
      as (_ & Hnodup & Hwf1 & Hwf2 & Hfirst).
    destruct Hnodup as [Hgone Hsame];
      [apply (bool_decide_unpack _); by vm_compute|].
    destruct (Hfirst [1] [3; 4; 5]) as (Hp & Hc & _);
      [reflexivity | apply (bool_decide_unpack _); by vm_compute | ].
    split_and!; [ | done | done | done | done | done | done].
    apply (bool_decide_unpack _). by vm_compute.
Defined.

(** C9, as stated, fails.  After [startTimer 1], [startTimer 2], three ticks
    and [startTimer 1] the list holds record 1 twice.  The first [cancelTimer
    1] removes the first of the two slots, the second call removes the other
    one: it changes the list and the count. *)
Lemma cancelTimer_twice_counterexample :
  ∃ w,
    run 8 [op_startTimer 1; op_startTimer 2; op_NextTick; op_NextTick;
           op_NextTick; op_startTimer 1] (World_new example_heap) = Some w
    ∧ pending w = [1; 2; 1]
    ∧ pending (cancelTimer 1 w) = [2; 1]
    ∧ pending (cancelTimer 1 (cancelTimer 1 w)) = [2]
    ∧ getCount (cancelTimer 1 (cancelTimer 1 w)) ≠ getCount (cancelTimer 1 w)
    ∧ cancelTimer 1 (cancelTimer 1 w) ≠ cancelTimer 1 w.
Proof.
  eexists. split; [by vm_compute|].
  split_and!; by vm_compute.
Qed.

(** ** [Search] *)

Lemma key_GET_TIMEOUT w i :
  normalizeTimeOut w (GET_TIMEOUT w i) = key w (at_ (_timeOutList (timer w)) i).
Proof. done. Qed.

(** The scan of [Search], slot by slot: every slot it passed did not compare
    greater than the new object, and the slot it stopped at, if any, does. *)
Lemma Search_loop_spec w pArg : ∀ rounds i,
  getCount w - i ≤ rounds →
  let r := Search_loop rounds w pArg i in
  i ≤ r
  ∧ (i ≤ getCount w → r ≤ getCount w)
  ∧ (∀ j, i ≤ j < r →
       ¬ (key w pArg < normalizeTimeOut w (GET_TIMEOUT w j))%Z)
  ∧ (r < getCount w →
       (key w pArg < normalizeTimeOut w (GET_TIMEOUT w r))%Z).
Proof.
  induction rounds as [|rounds IH]; intros i Hr; cbn [Search_loop]; cbv zeta.
  - split_and!; [done | lia | lia | lia].
  - destruct (Nat.ltb_spec i (getCount w)) as [Hlt|Hge].
    + fold (key w pArg).
      destruct (Z.ltb_spec (key w pArg) (normalizeTimeOut w (GET_TIMEOUT w i)))
        as [Hk|Hk].
      * split_and!; [done | lia | lia | done].
      * destruct (IH (S i)) as (H1 & H2 & H3 & H4); [lia|].
        split_and!; [lia | lia | | done].
        intros j Hj. destruct (decide (j = i)) as [->|Hne]; [lia|].
        apply H3. lia.
    + split_and!; [done | lia | lia | lia].
Qed.

(** C6 (amended).  [Search] returns the least index whose wake time compares
    strictly greater than that of the new object, and the count when there is
    none; this holds for every list, in particular for the non-empty sorted
    ones.  The index is unique. *)
Theorem Search_first_later :
  ∀ (w : World) (pArg : ptr),
    first_later w pArg (Search w pArg)
    ∧ (∀ i, first_later w pArg i → i = Search w pArg).
Proof.
  intros w pArg.
  assert (Hs : first_later w pArg (Search w pArg)).
  { unfold Search. destruct (Nat.eqb_spec 0 (getCount w)) as [Hz|Hnz].
    - split_and!; [lia | lia | lia].
    - destruct (Search_loop_spec w pArg (getCount w) 0) as (H1 & H2 & H3 & H4);
        [lia|].
      split_and!; [lia | | ].
      + intros j Hj. specialize (H3 j). lia.
      + intros Hlt. specialize (H4 Hlt). lia. }
  split; [exact Hs|].
  intros i (Hi1 & Hi2 & Hi3). destruct Hs as (Hs1 & Hs2 & Hs3).
  destruct (Nat.lt_trichotomy i (Search w pArg)) as [Hlt|[Heq|Hgt]]; [|done|].
  - specialize (Hs2 i Hlt). specialize (Hi3 ltac:(lia)). lia.
  - specialize (Hi2 _ Hgt). specialize (Hs3 ltac:(lia)). lia.
Qed.

(** C6, as stated, fails on a tie: the list is non-empty and sorted, slot 0 is
    the first slot that is not earlier than the new object, and [Search]
    returns 1. *)
Lemma Search_first_not_earlier_counterexample :
  0 < getCount tie_example
  ∧ sort_invariant tie_example
  ∧ first_not_earlier tie_example 2 0
  ∧ Search tie_example 2 = 1
  ∧ ¬ first_not_earlier tie_example 2 (Search tie_example 2).
Proof.
  assert (Hc : getCount tie_example = 1) by reflexivity.
  split_and!.
  - lia.
  - intros i Hi. lia.
  - split_and!; [lia | lia | intros _; vm_compute; discriminate].
  - reflexivity.
  - intros (_ & H & _). specialize (H 0). vm_compute in H.
    specialize (H ltac:(lia)). discriminate.
Qed.

(** ** One round of [NextTick] *)

Lemma clockAlarm_call this te : (clockAlarm this te).1.1 = callFunction this te.
Proof.
  unfold clockAlarm. cbv zeta.
  destruct (negb _); [|done]. by destruct (_ =? _)%Z.
Qed.

Lemma clockAlarm_keeps this te :
  _timeOut (clockAlarm this te).2 = _timeOut te
  ∧ _timePeriod (clockAlarm this te).2 = _timePeriod te.
Proof.
  unfold clockAlarm. cbv zeta.
  destruct (negb _); [|done]. by destruct (_ =? _)%Z.
Qed.

Lemma updateTimeOut_fields te :
  _timeOut (updateTimeOut te).2 = ((_timePeriod te + _timeOut te) mod 0x8000)%Z
  ∧ _timePeriod (updateTimeOut te).2 = _timePeriod te.
Proof. unfold updateTimeOut. simpl. by rewrite land_u16_7fff. Qed.

(** The sorting loop touches the list only. *)
Lemma sort_loop_frame : ∀ rounds w i,
  heap (sort_loop rounds w i) = heap w
  ∧ _presentTime (timer (sort_loop rounds w i)) = _presentTime (timer w)
  ∧ calls (sort_loop rounds w i) = calls w.
Proof.
  induction rounds as [|rounds IH]; intros w i; cbn [sort_loop]; [done|].
  destruct (i <? getCount w); [|done].
  destruct (_ >? _)%Z; [|done].
  destruct (IH (set_list (Swap (i - 1) i (_timeOutList (timer w))) w) (S i))
    as (-> & -> & ->). done.
Qed.

(** The sorting loop carries the object before slot [S (length pre)] forward,
    past every object that compares smaller, and stops at the first that does
    not. *)
Lemma sort_loop_spec post : ∀ pre x rounds w,
  wf w → pending w = pre ++ x :: post → length post ≤ rounds →
  ∃ small big,
    post = small ++ big
    ∧ Forall (λ q, (key w q < key w x)%Z) small
    ∧ (∀ b, head big = Some b → (key w x ≤ key w b)%Z)
    ∧ pending (sort_loop rounds w (S (length pre))) = pre ++ small ++ x :: big
    ∧ wf (sort_loop rounds w (S (length pre))).
Proof.
  induction post as [|y post IH]; intros pre x rounds w Hwf Hp Hr;
    pose proof (length_pending w Hwf) as Hl;
    rewrite Hp, length_app in Hl; simpl in Hl.
  - exists [], []. split_and!; [done | done | done | | ].
    + destruct rounds; cbn [sort_loop]; [done|].
      by destruct (Nat.ltb_spec (S (length pre)) (getCount w)); [lia|].
    + destruct rounds; cbn [sort_loop]; [done|].
      by destruct (Nat.ltb_spec (S (length pre)) (getCount w)); [lia|].
  - destruct rounds as [|rounds]; [simpl in Hr; lia|]. cbn [sort_loop].
    destruct (Nat.ltb_spec (S (length pre)) (getCount w)); [|lia].
    rewrite !key_GET_TIMEOUT.
    replace (S (length pre) - 1) with (length pre) by lia.
    rewrite (at_pending_middle w pre (y :: post) x) by done.
    assert (Hp2 : pending w = (pre ++ [x]) ++ y :: post) by (by rewrite <- app_assoc).
    assert (Hy : at_ (_timeOutList (timer w)) (S (length pre)) = y).
    { rewrite <- (at_pending_middle w (pre ++ [x]) post y Hwf Hp2).
      f_equal. rewrite length_app. simpl. lia. }
    rewrite Hy.
    destruct (Z.gtb_spec (key w x) (key w y)) as [Hgt|Hle].
    + destruct (Swap_content _ pre post x y Hwf Hp) as [Hc Hw].
      set (w1 := set_list (Swap (length pre) (S (length pre)) (_timeOutList (timer w))) w).
      assert (Hp1 : pending w1 = (pre ++ [y]) ++ x :: post)
        by (by rewrite <- app_assoc).
      destruct (IH (pre ++ [y]) x rounds w1 Hw Hp1) as (small & big & -> & Hs & Hb & Hpe & Hwe);
        [simpl in Hr; lia|].
      rewrite length_app in Hpe, Hwe. simpl in Hpe, Hwe.
      replace (length pre + 1) with (S (length pre)) in Hpe, Hwe by lia.
      exists (y :: small), big. split_and!; [done | | done | | done].
      * constructor; [done | exact Hs].
      * rewrite Hpe. by rewrite <- app_assoc.
    + exists [], (y :: post). split_and!; [done | done | | done | done].
      intros b [= <-]. done.
Qed.

Lemma key_ext w1 w2 q :
  heap w1 = heap w2 → _presentTime (timer w1) = _presentTime (timer w2) →
  key w1 q = key w2 q.
Proof. unfold key, normalizeTimeOut. by intros -> ->. Qed.

(** What one round of the [while] loop does to a non-empty list. *)
Lemma fire_head_spec w x post :
  wf w → pending w = x :: post →
  _presentTime (timer (fire_head w)) = _presentTime (timer w)
  ∧ heap (fire_head w) x = (clockAlarm x (updateTimeOut (heap w x)).2).2
  ∧ (∀ q, q ≠ x → heap (fire_head w) q = heap w q)
  ∧ calls (fire_head w) = calls w ++ [callFunction x (updateTimeOut (heap w x)).2]
  ∧ wf (fire_head w)
  ∧ ∃ small big,
      post = small ++ big
      ∧ pending (fire_head w) = small ++ x :: big
      ∧ Forall (λ q, (key (fire_head w) q < key (fire_head w) x)%Z) small
      ∧ (∀ b, head big = Some b → (key (fire_head w) x ≤ key (fire_head w) b)%Z).
Proof.
  intros Hwf Hp. unfold fire_head.
  pose proof (at_pending_middle w [] post x Hwf Hp) as Hx. simpl in Hx.
  rewrite Hx.
  cbn [set_elem heap]. rewrite fn_lookup_insert.
  pose proof (clockAlarm_call x (updateTimeOut (heap w x)).2) as Hc.
  destruct (clockAlarm x (updateTimeOut (heap w x)).2) as [[c b] te]. simpl in Hc.
  subst c. cbn [snd].
  set (w2 := log_call _ _).
  assert (Hwf2 : wf w2) by exact Hwf.
  assert (Hp2 : pending w2 = [] ++ x :: post) by exact Hp.
  destruct (sort_loop_frame (getCount w2) w2 1) as (Hh & Ht & Hcs).
  destruct (sort_loop_spec post [] x (getCount w2) w2 Hwf2 Hp2)
    as (small & big & Hpost & Hs & Hb & Hpe & Hwe).
  { rewrite <- (length_pending w2 Hwf2), Hp2. simpl. lia. }
  simpl in Hpe, Hwe.
  split_and!.
  - by rewrite Ht.
  - rewrite Hh. unfold w2. cbn [log_call set_elem heap]. by rewrite fn_lookup_insert.
  - intros q Hq. rewrite Hh. unfold w2. cbn [log_call set_elem heap].
    by rewrite !fn_lookup_insert_ne.
  - by rewrite Hcs.
  - exact Hwe.
  - exists small, big. split_and!; [done | done | | ].
    + eapply Forall_impl; [exact Hs|]. intros q Hq. simpl in Hq.
      by rewrite (key_ext _ w2 q), (key_ext _ w2 x) by done.
    + intros b0 Hb0.
      rewrite (key_ext _ w2 x), (key_ext _ w2 b0) by done. by apply Hb.
Qed.

(** The wake time and the period of the object that was called back. *)
Lemma fire_head_fields w x post :
  wf w → pending w = x :: post →
  _timeOut (heap (fire_head w) x)
  = ((_timePeriod (heap w x) + _timeOut (heap w x)) mod 0x8000)%Z
  ∧ _timePeriod (heap (fire_head w) x) = _timePeriod (heap w x).
Proof.
  intros Hwf Hp.
  destruct (fire_head_spec w x post Hwf Hp) as (_ & -> & _).
  destruct (clockAlarm_keeps x (updateTimeOut (heap w x)).2) as [-> ->].
  apply updateTimeOut_fields.
Qed.

Lemma fire_head_perm w x post :
  wf w → pending w = x :: post → pending (fire_head w) ≡ₚ pending w.
Proof.
  intros Hwf Hp.
  destruct (fire_head_spec w x post Hwf Hp)
    as (_ & _ & _ & _ & _ & small & big & -> & -> & _).
  rewrite Hp. symmetry. apply Permutation_middle.
Qed.

Lemma pending_nonempty w :
  wf w → 0 < getCount w → ∃ x post, pending w = x :: post.
Proof.
  intros Hwf Hc. pose proof (length_pending w Hwf) as Hl.
  destruct (pending w) as [|x post]; [simpl in Hl; lia|]. eauto.
Qed.

Lemma getCount_perm w1 w2 :
  wf w1 → wf w2 → pending w1 ≡ₚ pending w2 → getCount w1 = getCount w2.
Proof.
  intros H1 H2 Hp. rewrite <- !length_pending by done. by rewrite Hp.
Qed.

(** The [while] loop of [NextTick], whenever it ends: the list is a
    rearrangement of what it was, the clock is untouched, and the calls made
    before are still on record. *)
Lemma NextTick_while_frame : ∀ fuel w w',
  wf w → 0 < getCount w → NextTick_while fuel w = Some w' →
  wf w' ∧ pending w' ≡ₚ pending w
  ∧ _presentTime (timer w') = _presentTime (timer w)
  ∧ ∃ cs, calls w' = calls w ++ cs.
Proof.
  induction fuel as [|fuel IH]; intros w w' Hwf Hc Hrun; [done|].
  cbn [NextTick_while] in Hrun.
  destruct (_ =? _)%Z.
  - destruct (pending_nonempty w Hwf Hc) as (x & post & Hp).
    destruct (fire_head_spec w x post Hwf Hp) as (Ht & _ & _ & Hcs & Hwf1 & _).
    pose proof (fire_head_perm w x post Hwf Hp) as Hperm.
    destruct (IH (fire_head w) w' Hwf1) as (Hw' & Hp' & Ht' & cs & Hcs'); [|done|].
    { by rewrite (getCount_perm _ w). }
    split_and!; [done | by rewrite Hp' | by rewrite Ht' | ].
    exists (callFunction x (updateTimeOut (heap w x)).2 :: cs).
    rewrite Hcs', Hcs, <- app_assoc. done.
  - injection Hrun as <-. split_and!; [done | done | done | ].
    exists []. by rewrite app_nil_r.
Qed.

(** ** Termination of [NextTick] *)

Lemma length_filter_mono (P Q : ptr → Prop)
    `{!∀ x, Decision (P x)} `{!∀ x, Decision (Q x)} (l : list ptr) :
  (∀ x, x ∈ l → P x → Q x) → length (filter P l) ≤ length (filter Q l).
Proof.
  induction l as [|x l IH]; intros Himp; [done|].
  rewrite !filter_cons.
  assert (IH' : length (filter P l) ≤ length (filter Q l)).
  { apply IH. intros y Hy. apply Himp. by right. }
  destruct (decide (P x)) as [Hp|Hp].
  - rewrite decide_True by (apply Himp; [left|done]). simpl. lia.
  - destruct (decide (Q x)); simpl; lia.
Qed.

Lemma rearm_not_due now period :
  in_clock_range now → (period mod 0x8000 ≠ 0)%Z →
  ((period + now) mod 0x8000)%Z ≠ now.
Proof. unfold in_clock_range. intros Hn Hp. zmod. Qed.

(** A round of the loop leaves fewer due slots. *)
Lemma fire_head_due w x post :
  wf w → pending w = x :: post →
  in_clock_range (_presentTime (timer w)) → due w x → period_ok (heap w x) →
  length (filter (due (fire_head w)) (pending (fire_head w)))
  < length (filter (due w) (pending w)).
Proof.
  intros Hwf Hp Hclock Hdue Hper.
  destruct (fire_head_spec w x post Hwf Hp) as (Ht & _ & Hother & _).
  destruct (fire_head_fields w x post Hwf Hp) as [Hto _].
  assert (Hnd : ¬ due (fire_head w) x).
  { unfold due. rewrite Hto, Ht, Hdue. by apply rearm_not_due. }
  rewrite (fire_head_perm w x post Hwf Hp), Hp.
  rewrite filter_cons_False by done. rewrite filter_cons_True by done.
  simpl. apply Nat.lt_succ_r. apply length_filter_mono.
  intros q _ Hq. destruct (decide (q = x)) as [->|Hne]; [done|].
  unfold due in *. by rewrite <- Hother, <- Ht.
Qed.

Lemma fire_head_periods_ok w x post :
  wf w → pending w = x :: post → periods_ok w → periods_ok (fire_head w).
Proof.
  intros Hwf Hp Hok q Hq.
  rewrite (fire_head_perm w x post Hwf Hp) in Hq.
  destruct (fire_head_spec w x post Hwf Hp) as (_ & _ & Hother & _).
  destruct (fire_head_fields w x post Hwf Hp) as [_ Hper].
  unfold period_ok. destruct (decide (q = x)) as [->|Hne].
  - rewrite Hper. by apply Hok.
  - rewrite Hother by done. by apply Hok.
Qed.

Lemma GET_TIMEOUT_head w x post :
  wf w → pending w = x :: post → GET_TIMEOUT w 0 = _timeOut (heap w x).
Proof.
  intros Hwf Hp. unfold GET_TIMEOUT, getTimeOut.
  pose proof (at_pending_middle w [] post x Hwf Hp) as Hx. simpl in Hx.
  by rewrite Hx.
Qed.

Lemma NextTick_while_terminates : ∀ fuel w,
  wf w → 0 < getCount w → in_clock_range (_presentTime (timer w)) →
  periods_ok w → length (filter (due w) (pending w)) < fuel →
  ∃ w', NextTick_while fuel w = Some w'.
Proof.
  induction fuel as [|fuel IH]; intros w Hwf Hc Hclock Hok Hf; [lia|].
  cbn [NextTick_while].
  destruct (pending_nonempty w Hwf Hc) as (x & post & Hp).
  rewrite (GET_TIMEOUT_head w x post Hwf Hp).
  destruct (Z.eqb_spec (_presentTime (timer w)) (_timeOut (heap w x))) as [He|Hne];
    [|eauto].
  destruct (fire_head_spec w x post Hwf Hp) as (Ht & _ & _ & _ & Hwf1 & _).
  apply IH.
  - done.
  - by rewrite (getCount_perm _ w) by (done || by eapply fire_head_perm).
  - by rewrite Ht.
  - by eapply fire_head_periods_ok.
  - pose proof (fire_head_due w x post Hwf Hp Hclock (eq_sym He)) as Hd.
    assert (period_ok (heap w x)) by (apply Hok; rewrite Hp; left).
    specialize (Hd ltac:(done)). lia.
Qed.

Lemma NextTick_terminates w :
  wf w → periods_ok w → ∃ w', NextTick (S (getCount w)) w = Some w'.
Proof.
  intros Hwf Hok. unfold NextTick. cbv zeta.
  set (w0 := set_clock _ w).
  destruct (Nat.eqb_spec 0 (getCount w0)) as [Hz|Hnz]; [eauto|].
  apply NextTick_while_terminates.
  - exact Hwf.
  - lia.
  - apply land_u16_7fff_range.
  - exact Hok.
  - change (getCount w) with (getCount w0).
    rewrite <- (length_pending w0 Hwf).
    pose proof (length_filter (due w0) (pending w0)). lia.
Qed.

Lemma NextTick_frame fuel w w' :
  wf w → NextTick fuel w = Some w' →
  wf w' ∧ pending w' ≡ₚ pending w
  ∧ _presentTime (timer w') = Z.land (u16 (_presentTime (timer w) + 1)) 0x7fff
  ∧ ∃ cs, calls w' = calls w ++ cs.
Proof.
  intros Hwf. unfold NextTick. cbv zeta.
  set (w0 := set_clock _ w).
  destruct (Nat.eqb_spec 0 (getCount w0)) as [Hz|Hnz].
  - intros [= <-]. split_and!; [done | done | done | ].
    exists []. by rewrite app_nil_r.
  - intros Hrun. apply NextTick_while_frame in Hrun; [done | exact Hwf | lia].
Qed.

(** No round of the loop takes a reference out of the list. *)
Lemma NextTick_rounds_frame : ∀ n w,
  wf w → 0 < getCount w →
  wf (NextTick_rounds n w) ∧ pending (NextTick_rounds n w) ≡ₚ pending w.
Proof.
  induction n as [|n IH]; intros w Hwf Hc; cbn [NextTick_rounds]; [done|].
  destruct (_ =? _)%Z; [|done].
  destruct (pending_nonempty w Hwf Hc) as (x & post & Hp).
  destruct (fire_head_spec w x post Hwf Hp) as (_ & _ & _ & _ & Hwf1 & _).
  pose proof (fire_head_perm w x post Hwf Hp) as Hperm.
  destruct (IH (fire_head w) Hwf1) as [Hw Hpe].
  - by rewrite (getCount_perm _ w).
  - split; [done|]. by rewrite Hpe.
Qed.

Lemma NextTick_while_rounds : ∀ fuel w w',
  NextTick_while fuel w = Some w' → w' = NextTick_rounds fuel w.
Proof.
  induction fuel as [|fuel IH]; intros w w' Hrun; [done|].
  cbn [NextTick_while] in Hrun. cbn [NextTick_rounds].
  destruct (_ =? _)%Z; [by apply IH | by injection Hrun].
Qed.

(** At the example the head is fired with [_repeats = 1]: [clockAlarm] answers
    false, and the record is still pending, with its next wake time. *)
Lemma NextTick_keeps_exhausted_example :
  ∃ w', NextTick 4 exhausted_example = Some w'
        ∧ (clockAlarm 1 (updateTimeOut (heap exhausted_example 1)).2).1.2 = false
        ∧ map call_this (calls w') = [1]
        ∧ pending w' = [2; 1; 3]
        ∧ _repeats (heap w' 1) = 0%Z
        ∧ _timeOut (heap w' 1) = 104%Z.
Proof. eexists. split; [reflexivity|]. by vm_compute. Qed.

(** ** Firing the head *)

Lemma filter_none {A} (P : A → Prop) `{!∀ x, Decision (P x)} (l : list A) :
  Forall (λ x, ¬ P x) l → filter P l = [].
Proof.
  induction 1 as [|x l Hx _ IH]; [done|]. by rewrite filter_cons_False.
Qed.

(** While an object is not due, the loop neither calls it back nor writes it. *)
Lemma NextTick_while_skips x : ∀ fuel w w',
  wf w → 0 < getCount w → ¬ due w x → NextTick_while fuel w = Some w' →
  ∃ cs, calls w' = calls w ++ cs
        ∧ Forall (λ c, call_this c ≠ x) cs
        ∧ heap w' x = heap w x.
Proof.
  induction fuel as [|fuel IH]; intros w w' Hwf Hc Hnd Hrun; [done|].
  cbn [NextTick_while] in Hrun.
  destruct (pending_nonempty w Hwf Hc) as (y & post & Hp).
  rewrite (GET_TIMEOUT_head w y post Hwf Hp) in Hrun.
  destruct (Z.eqb_spec (_presentTime (timer w)) (_timeOut (heap w y))) as [He|Hne].
  - assert (Hxy : x ≠ y) by (intros ->; by apply Hnd).
    destruct (fire_head_spec w y post Hwf Hp) as (Ht & _ & Hother & Hcs & Hwf1 & _).
    destruct (IH (fire_head w) w' Hwf1) as (cs & Hcs' & Hall & Hh); [| |done|].
    + by rewrite (getCount_perm _ w) by (done || by eapply fire_head_perm).
    + unfold due. by rewrite Ht, Hother.
    + exists (callFunction y (updateTimeOut (heap w y)).2 :: cs).
      split_and!.
      * by rewrite Hcs', Hcs, <- app_assoc.
      * constructor; [simpl; congruence | done].
      * by rewrite Hh, Hother.
  - injection Hrun as <-. exists []. by rewrite app_nil_r.
Qed.

(** C3 (amended).  When the advanced clock shows the wake time of the head
    record (100 in the specification's example) and the period of that record
    is not a multiple of [0x8000], a call of [NextTick] that returns has called
    the record back exactly once: the first new call is made on the record and
    finds its [_timeOut] already advanced to [(wake time + period) mod 0x8000],
    and no later call of that tick is made on it.  The call returns when no
    pending record has a period that is a multiple of [0x8000]. *)
Theorem NextTick_fires_due_head_once :
  ∀ (w : World) (x : ptr) (post : list ptr) (now : Z),
    wf w →
    pending w = x :: post →
    next_time w = now →
    _timeOut (heap w x) = now →
    period_ok (heap w x) →
    (∀ fuel w', NextTick fuel w = Some w' →
       ∃ c cs,
         calls w' = calls w ++ c :: cs
         ∧ call_this c = x
         ∧ call_fn c = _callBack (heap w x)
         ∧ call_arg c = _arg (heap w x)
         ∧ _timeOut (call_view c) = ((now + _timePeriod (heap w x)) mod 0x8000)%Z
         ∧ Forall (λ c', call_this c' ≠ x) cs
         ∧ length (filter (λ c', call_this c' = x) (c :: cs)) = 1
         ∧ _timeOut (heap w' x) = ((now + _timePeriod (heap w x)) mod 0x8000)%Z)
    ∧ (periods_ok w → ∃ w', NextTick (S (getCount w)) w = Some w').
Proof.
  intros w x post now Hwf Hp Hnow Hto Hper. split; [|by apply NextTick_terminates].
  intros fuel w' Hrun. unfold NextTick in Hrun. cbv zeta in Hrun.
  fold (next_time w) in Hrun. rewrite Hnow in Hrun.
  set (w0 := set_clock now w) in *.
  assert (Hwf0 : wf w0) by exact Hwf.
  assert (Hp0 : pending w0 = x :: post) by exact Hp.
  assert (Hc0 : 0 < getCount w0).
  { rewrite <- (length_pending w0 Hwf0), Hp0. simpl. lia. }
  destruct (Nat.eqb_spec 0 (getCount w0)) as [Hz|_]; [lia|].
  destruct fuel as [|fuel]; [done|]. cbn [NextTick_while] in Hrun.
  rewrite (GET_TIMEOUT_head w0 x post Hwf0 Hp0) in Hrun.
  change (heap w0) with (heap w) in Hrun.
  change (_presentTime (timer w0)) with now in Hrun.
  rewrite Hto, Z.eqb_refl in Hrun.
  destruct (fire_head_spec w0 x post Hwf0 Hp0) as (Ht & Hx & _ & Hcs & Hwf1 & _).
  destruct (fire_head_fields w0 x post Hwf0 Hp0) as [Hto1 _].
  change (heap w0) with (heap w) in Hcs, Hto1.
  change (calls w0) with (calls w) in Hcs.
  change (_presentTime (timer w0)) with now in Ht.
  assert (Hrange : in_clock_range now).
  { rewrite <- Hnow. apply land_u16_7fff_range. }
  assert (Hnd : ¬ due (fire_head w0) x).
  { unfold due. rewrite Hto1, Ht, Hto. by apply rearm_not_due. }
  destruct (NextTick_while_skips x fuel (fire_head w0) w' Hwf1) as (cs & Hcs' & Hall & Hh);
    [| done | done |].
  { by rewrite (getCount_perm _ w0) by (done || by eapply fire_head_perm). }
  exists (callFunction x (updateTimeOut (heap w x)).2), cs.
  destruct (updateTimeOut_fields (heap w x)) as [Hu1 Hu2].
  split_and!.
  - by rewrite Hcs', Hcs, <- app_assoc.
  - done.
  - done.
  - done.
  - cbn [callFunction call_view]. rewrite Hu1, Hto. f_equal. lia.
  - done.
  - rewrite filter_cons_True by done. simpl. f_equal.
    by rewrite filter_none.
  - rewrite Hh, Hto1, Hto. f_equal. lia.
Qed.

Lemma NextTick_fires_due_head_once_witness :
  (∀ fuel w', NextTick fuel exhausted_example = Some w' →
     ∃ c cs,
       calls w' = calls exhausted_example ++ c :: cs
       ∧ call_this c = 1
       ∧ call_fn c = _callBack (heap exhausted_example 1)
       ∧ call_arg c = _arg (heap exhausted_example 1)
       ∧ _timeOut (call_view c)
         = ((100 + _timePeriod (heap exhausted_example 1)) mod 0x8000)%Z
       ∧ Forall (λ c', call_this c' ≠ 1) cs
       ∧ length (filter (λ c', call_this c' = 1) (c :: cs)) = 1
       ∧ _timeOut (heap w' 1)
         = ((100 + _timePeriod (heap exhausted_example 1)) mod 0x8000)%Z)
  ∧ (periods_ok exhausted_example →
     ∃ w', NextTick (S (getCount exhausted_example)) exhausted_example = Some w').
Proof.
  apply (NextTick_fires_due_head_once exhausted_example 1 [2; 3] 100).
  - split; [reflexivity | simpl; unfold MAX_LIST_PTRS; lia].
  - reflexivity.
  - reflexivity.
  - reflexivity.
  - unfold period_ok. simpl. discriminate.
Defined.

(** ** Sorted lists *)

Section sorted.
Context {A : Type} (R : relation A).

Lemma StronglySorted_weaken (R' : relation A) (l : list A) :
  (∀ a b, a ∈ l → b ∈ l → R a b → R' a b) →
  StronglySorted R l → StronglySorted R' l.
Proof.
  intros Himp Hs. induction Hs as [|a l Hs IH Hall]; constructor.
  - apply IH. intros b c Hb Hc. apply Himp; by right.
  - apply Forall_forall. intros b Hb. apply Himp; [left | by right |].
    by eapply Forall_forall in Hall.
Qed.

Lemma StronglySorted_middle (l1 l2 : list A) (k : A) :
  StronglySorted R (l1 ++ k :: l2) ↔
  StronglySorted R (l1 ++ l2) ∧ Forall (λ a, R a k) l1 ∧ Forall (R k) l2.
Proof.
  rewrite !StronglySorted_app, StronglySorted_cons, !Forall_forall.
  split.
  - intros (H1 & H2 & H3 & H4). split_and!; try done.
    + intros a b Ha Hb. apply H1; [done | by right].
    + intros a Ha. apply H1; [done | left].
  - intros ((H1 & H2 & H3) & H4 & H5). split_and!; try done.
    intros a b Ha [->|Hb]%elem_of_cons; [by apply H4 | by apply H1].
Qed.

Lemma StronglySorted_head_below `{!Transitive R} (l : list A) (k : A) :
  StronglySorted R l → (∀ b, head l = Some b → R k b) → Forall (R k) l.
Proof.
  intros Hs Hh. destruct Hs as [|b l Hs Hall]; [constructor|].
  specialize (Hh b eq_refl). constructor; [done|].
  eapply Forall_impl; [exact Hall|]. intros c Hc. by transitivity b.
Qed.

Lemma StronglySorted_lookup (l : list A) (i j : nat) (a b : A) :
  StronglySorted R l → i < j → l !! i = Some a → l !! j = Some b → R a b.
Proof.
  intros Hs. revert i j. induction Hs as [|c l Hs IH Hall]; intros i j Hij Hi Hj;
    [done|].
  destruct j as [|j]; [lia|]. simpl in Hj.
  destruct i as [|i]; simpl in Hi.
  - injection Hi as ->. eapply Forall_forall in Hall; [done|].
    by eapply list_elem_of_lookup_2.
  - apply (IH i j); [lia | done | done].
Qed.
End sorted.

(** ** The invariant of the scheduler *)

#[global] Instance before_trans w : Transitive (before w).
Proof. unfold before. intros p q r ? ?. lia. Qed.

Lemma until_range w p : (0 ≤ until w p < 0x8000)%Z.
Proof. unfold until, ticks_until. apply Z.mod_pos_bound. lia. Qed.

Lemma until_zero_due w p :
  in_clock_range (_presentTime (timer w)) → in_clock_range (_timeOut (heap w p)) →
  until w p = 0%Z ↔ due w p.
Proof. unfold until, ticks_until, due, in_clock_range. intros ? ?. split; zmod. Qed.

Lemma key_until w p :
  in_clock_range (_presentTime (timer w)) → in_clock_range (_timeOut (heap w p)) →
  key w p = (_presentTime (timer w) + until w p)%Z.
Proof. intros. by apply normalizeTimeOut_ticks. Qed.

Lemma until_ext w1 w2 p :
  heap w1 p = heap w2 p → _presentTime (timer w1) = _presentTime (timer w2) →
  until w1 p = until w2 p.
Proof. unfold until. by intros -> ->. Qed.

(** Only the clock, the list and the pending objects matter. *)
Lemma Ordered_ext w w' :
  wf w' → pending w' = pending w →
  _presentTime (timer w') = _presentTime (timer w) →
  (∀ p, p ∈ pending w → heap w' p = heap w p) →
  Ordered w → Ordered w'.
Proof.
  intros Hwf Hp Ht Hh [_ Hc Hnd Hr Hper Hs]. split.
  - done.
  - by rewrite Ht.
  - by rewrite Hp.
  - intros p Hin. rewrite Hp in Hin. rewrite Hh by done. by apply Hr.
  - intros p Hin. rewrite Hp in Hin. rewrite Hh by done. by apply Hper.
  - rewrite Hp. eapply StronglySorted_weaken; [|exact Hs].
    intros a b Ha Hb. unfold before.
    by rewrite (until_ext w' w a), (until_ext w' w b) by auto.
Qed.

Lemma Inv_ext w w' :
  wf w' → pending w' = pending w →
  _presentTime (timer w') = _presentTime (timer w) →
  (∀ p, p ∈ pending w → heap w' p = heap w p) →
  Inv w → Inv w'.
Proof.
  intros Hwf Hp Ht Hh [Ho Hnd]. split; [by eapply Ordered_ext|].
  intros p Hin. rewrite Hp in Hin. unfold due. rewrite Ht, Hh by done.
  by apply Hnd.
Qed.

Lemma Inv_empty w :
  wf w → in_clock_range (_presentTime (timer w)) → getCount w = 0 → Inv w.
Proof.
  intros Hwf Hc Hz.
  assert (Hp : pending w = []).
  { apply length_zero_iff_nil. by rewrite length_pending. }
  assert (Hnone : ∀ p, p ∈ pending w → False).
  { intros p Hin. rewrite Hp in Hin. by apply elem_of_nil in Hin. }
  split; [split|].
  - done.
  - done.
  - rewrite Hp. constructor.
  - intros p Hin. by destruct (Hnone p).
  - intros p Hin. by destruct (Hnone p).
  - rewrite Hp. constructor.
  - intros p Hin. by destruct (Hnone p).
Qed.

(** The invariant gives the sort invariant as the scheduler compares. *)
Lemma Ordered_sort_invariant w : Ordered w → sort_invariant w.
Proof.
  intros [Hwf Hc Hnd Hr Hper Hs] i Hi.
  pose proof (length_pending w Hwf) as Hl.
  destruct (lookup_lt_is_Some_2 (pending w) i) as [a Ha]; [lia|].
  destruct (lookup_lt_is_Some_2 (pending w) (S i)) as [b Hb]; [lia|].
  rewrite !key_GET_TIMEOUT.
  rewrite !at_content by (done || unfold getCount, GetCount in *; lia).
  fold (pending w).
  rewrite (list_lookup_total_correct _ _ _ Ha), (list_lookup_total_correct _ _ _ Hb).
  rewrite !key_until;
    [| done | by eapply Hr, list_elem_of_lookup_2
       | done | by eapply Hr, list_elem_of_lookup_2].
  pose proof (StronglySorted_lookup _ _ i (S i) a b Hs ltac:(lia) Ha Hb) as Hab.
  unfold before in Hab. lia.
Qed.

(** ** [startTimer] keeps the invariant *)

(** Where the scan of [Search] stops, in terms of the stored sequence. *)
Lemma Search_loop_split w pArg post : ∀ pre rounds,
  wf w → pending w = pre ++ post → length post ≤ rounds →
  ∃ small big,
    post = small ++ big
    ∧ Search_loop rounds w pArg (length pre) = length pre + length small
    ∧ Forall (λ q, (key w q ≤ key w pArg)%Z) small
    ∧ (∀ b, head big = Some b → (key w pArg < key w b)%Z).
Proof.
  induction post as [|y post IH]; intros pre rounds Hwf Hp Hr;
    pose proof (length_pending w Hwf) as Hl;
    rewrite Hp, length_app in Hl; simpl in Hl.
  - exists [], []. split_and!; [done | | done | done].
    simpl. destruct rounds; cbn [Search_loop]; [lia|].
    destruct (Nat.ltb_spec (length pre) (getCount w)); lia.
  - destruct rounds as [|rounds]; [simpl in Hr; lia|]. cbn [Search_loop].
    destruct (Nat.ltb_spec (length pre) (getCount w)); [|lia].
    rewrite key_GET_TIMEOUT, (at_pending_middle w pre post y) by done.
    fold (key w pArg).
    destruct (Z.ltb_spec (key w pArg) (key w y)) as [Hlt|Hge].
    + exists [], (y :: post). split_and!; [done | simpl; lia | done | ].
      intros b [= <-]. done.
    + destruct (IH (pre ++ [y]) rounds Hwf) as (small & big & -> & Hs & Hall & Hb).
      { by rewrite <- app_assoc. }
      { simpl in Hr. lia. }
      exists (y :: small), big. split_and!; [done | | | done].
      * rewrite length_app in Hs. simpl in Hs. simpl.
        replace (S (length pre)) with (length pre + 1) by lia. lia.
      * constructor; [done | exact Hall].
Qed.

Lemma Search_split w pArg :
  wf w → 0 < getCount w →
  ∃ small big,
    pending w = small ++ big
    ∧ Search w pArg = length small
    ∧ Forall (λ q, (key w q ≤ key w pArg)%Z) small
    ∧ (∀ b, head big = Some b → (key w pArg < key w b)%Z).
Proof.
  intros Hwf Hc. unfold Search.
  destruct (Nat.eqb_spec 0 (getCount w)); [lia|].
  destruct (Search_loop_split w pArg (pending w) [] (getCount w) Hwf eq_refl)
    as (small & big & Hp & Hs & Hrest).
  { by rewrite length_pending. }
  exists small, big. simpl in Hs. by rewrite Hs.
Qed.

(** Where [InsertTimer] puts a reference when there is room. *)
Lemma InsertTimer_spec w pArg :
  wf w → getCount w < MAX_LIST_PTRS →
  wf (InsertTimer pArg w)
  ∧ heap (InsertTimer pArg w) = heap w
  ∧ _presentTime (timer (InsertTimer pArg w)) = _presentTime (timer w)
  ∧ calls (InsertTimer pArg w) = calls w
  ∧ ∃ small big,
      pending w = small ++ big
      ∧ pending (InsertTimer pArg w) = small ++ pArg :: big
      ∧ Forall (λ q, (key w q ≤ key w pArg)%Z) small
      ∧ (∀ b, head big = Some b → (key w pArg < key w b)%Z).
Proof.
  intros Hwf Hroom. unfold InsertTimer.
  destruct (Nat.ltb_spec 0 (getCount w)) as [Hpos|Hz].
  - destruct (Search_split w pArg Hwf Hpos) as (small & big & Hp & Hs & Hall & Hb).
    pose proof (length_pending w Hwf) as Hl.
    rewrite Hp, length_app in Hl.
    destruct (InsertAt_content (Search w pArg) pArg (_timeOutList (timer w)) Hwf)
      as [Hc Hw]; [done | unfold getCount, GetCount in Hl; lia |].
    split_and!; [exact Hw | done | done | done | ].
    exists small, big. split_and!; [done | | done | done].
    rewrite pending_set_list, Hc. fold (pending w).
    by rewrite Hs, Hp, take_app_length, drop_app_length.
  - assert (Hp : pending w = []).
    { apply length_zero_iff_nil. rewrite length_pending by done. lia. }
    destruct (Add_content pArg (_timeOutList (timer w)) Hwf) as [Hc Hw]; [done|].
    split_and!; [exact Hw | done | done | done | ].
    exists [], []. split_and!; [done | | done | done].
    rewrite pending_set_list, Hc. fold (pending w). by rewrite Hp.
Qed.

Lemma startTimer_until now period :
  in_clock_range now →
  ticks_until now ((now + period) mod 0x8000) = (period mod 0x8000)%Z.
Proof. unfold ticks_until, in_clock_range. intros ?. zmod. Qed.

Lemma startTimer_spec w p :
  Inv w → p ∉ pending w → period_ok (heap w p) → getCount w < MAX_LIST_PTRS →
  Inv (startTimer p w)
  ∧ _presentTime (timer (startTimer p w)) = _presentTime (timer w)
  ∧ calls (startTimer p w) = calls w
  ∧ (∀ q, q ≠ p → heap (startTimer p w) q = heap w q)
  ∧ until (startTimer p w) p = (_timePeriod (heap w p) mod 0x8000)%Z
  ∧ ∃ small big,
      pending w = small ++ big
      ∧ pending (startTimer p w) = small ++ p :: big
      ∧ Forall (λ q, (until (startTimer p w) q ≤ until (startTimer p w) p)%Z) small
      ∧ Forall (λ q, (until (startTimer p w) p < until (startTimer p w) q)%Z) big.
Proof.
  intros HInv Hnin Hper Hroom. unfold startTimer. cbv zeta.
  set (te := setTimeOut _ _). set (w1 := set_elem p te w).
  assert (Hhp : heap w1 p = te) by (unfold w1; simpl; by rewrite fn_lookup_insert).
  assert (Hhq : ∀ q, q ≠ p → heap w1 q = heap w q).
  { intros q Hq. unfold w1. simpl. by rewrite fn_lookup_insert_ne. }
  assert (Hto : _timeOut te
                = ((_presentTime (timer w) + _timePeriod (heap w p)) mod 0x8000)%Z).
  { unfold te, setTimeOut, getTimePeriod. simpl. apply land_u16_7fff. }
  assert (Hpe : _timePeriod te = _timePeriod (heap w p)) by done.
  assert (HInv1 : Inv w1).
  { apply (Inv_ext w w1); [apply HInv | done | done | | done].
    intros q Hq. apply Hhq. by intros ->. }
  destruct HInv1 as [[Hwf Hc Hnd Hr Hpok Hs] Hfut].
  change (pending w) with (pending w1) in Hnin.
  destruct (InsertTimer_spec w1 p Hwf Hroom)
    as (Hwf' & Hh & Ht & Hcs & small & big & Hp1 & Hp' & Hsmall & Hbig).
  set (w' := InsertTimer p w1) in *.
  assert (Hu : ∀ q, until w' q = until w1 q).
  { intros q. apply until_ext; [by rewrite Hh | done]. }
  assert (Hrp : in_clock_range (_timeOut (heap w1 p))).
  { rewrite Hhp, Hto. apply Z.mod_pos_bound. lia. }
  assert (Hup : until w1 p = (_timePeriod (heap w p) mod 0x8000)%Z).
  { unfold until. rewrite Hhp, Hto. by apply startTimer_until. }
  assert (Hin1 : ∀ q, q ∈ small ++ big → q ∈ pending w1) by (by rewrite Hp1).
  assert (Hsm : Forall (λ q, (until w1 q ≤ until w1 p)%Z) small).
  { apply Forall_forall. intros q Hq.
    eapply Forall_forall in Hsmall; [|exact Hq].
    rewrite !key_until in Hsmall;
      [lia | done | done | done | apply Hr, Hin1, elem_of_app; by left]. }
  assert (Hbg : Forall (λ q, (until w1 p < until w1 q)%Z) big).
  { rewrite Hp1 in Hs. apply StronglySorted_app_1_r in Hs.
    destruct Hs as [|b big Hs Hall]; [constructor|].
    specialize (Hbig b eq_refl).
    rewrite !key_until in Hbig;
      [| done | apply Hr, Hin1, elem_of_app; right; left | done | done].
    constructor; [lia|].
    eapply Forall_impl; [exact Hall|]. intros q Hq. unfold before in Hq. lia. }
  assert (Hmem : ∀ q, q ∈ pending w' → q = p ∨ q ∈ pending w1).
  { intros q. rewrite Hp', Hp1, !elem_of_app, elem_of_cons. tauto. }
  split_and!.
  - split; [split|].
    + done.
    + by rewrite Ht.
    + rewrite Hp'. apply NoDup_app. rewrite Hp1 in Hnd, Hnin.
      apply NoDup_app in Hnd as (Hn1 & Hn2 & Hn3).
      split_and!; [done | | ].
      * intros q Hq [->|Hq']%elem_of_cons.
        -- apply Hnin, elem_of_app. by left.
        -- by apply (Hn2 q).
      * apply NoDup_cons. split; [|done].
        intros Hq. apply Hnin, elem_of_app. by right.
    + intros q [->|Hq]%Hmem; rewrite Hh; [done | by apply Hr].
    + intros q [->|Hq]%Hmem; rewrite Hh.
      * unfold period_ok. by rewrite Hhp, Hpe.
      * by apply Hpok.
    + rewrite Hp'. apply StronglySorted_middle. split_and!.
      * rewrite <- Hp1. eapply StronglySorted_weaken; [|exact Hs].
        intros a b _ _. unfold before. by rewrite !Hu.
      * eapply Forall_impl; [exact Hsm|]. intros q Hq. unfold before.
        by rewrite !Hu.
      * eapply Forall_impl; [exact Hbg|]. intros q Hq. unfold before.
        rewrite !Hu. simpl in Hq. lia.
    + intros q [->|Hq]%Hmem; unfold due; rewrite Hh, Ht.
      * intros Hd. apply until_zero_due in Hd; [|done|done].
        unfold period_ok in Hper. lia.
      * by apply Hfut.
  - done.
  - done.
  - intros q Hq. rewrite Hh. by apply Hhq.
  - by rewrite Hu.
  - exists small, big. split_and!; [done | done | | ].
    + eapply Forall_impl; [exact Hsm|]. intros q Hq. by rewrite !Hu.
    + eapply Forall_impl; [exact Hbg|]. intros q Hq. by rewrite !Hu.
Qed.

Lemma startTimer_Inv w p :
  Inv w → p ∉ pending w → period_ok (heap w p) → Inv (startTimer p w).
Proof.
  intros HInv Hnin Hper.
  destruct (decide (getCount w < MAX_LIST_PTRS)) as [Hroom|Hfull].
  - by apply startTimer_spec.
  - pose proof (ord_wf w (proj1 HInv)) as Hwf.
    assert (Hf : Timer_isFull w = true).
    { apply Nat.eqb_eq. destruct Hwf as [_ Hle]. unfold getCount, GetCount in Hfull. lia. }
    rewrite startTimer_full by done.
    apply (Inv_ext w); [exact Hwf | done | done | | done].
    intros q Hq. simpl. apply fn_lookup_insert_ne. by intros ->.
Qed.

(** ** [cancelTimer] keeps the invariant *)

Lemma cancelTimer_Inv w p : Inv w → Inv (cancelTimer p w).
Proof.
  intros HInv. pose proof HInv as [[Hwf Hc Hnd Hr Hpok Hs] Hfut].
  destruct (decide (p ∈ pending w)) as [Hin|Hnin];
    [|by rewrite cancelTimer_absent].
  apply list_elem_of_split_l in Hin as (l1 & l2 & Hp & Hn).
  destruct (cancelTimer_present w p l1 l2 Hwf Hp Hn) as [Hp' Hwf'].
  assert (Hsub : ∀ q, q ∈ pending (cancelTimer p w) → q ∈ pending w).
  { intros q. rewrite Hp', Hp, !elem_of_app, elem_of_cons. tauto. }
  split; [split|].
  - done.
  - done.
  - rewrite Hp'. rewrite Hp in Hnd.
    apply NoDup_app in Hnd as (Hn1 & Hn2 & [_ Hn3]%NoDup_cons).
    apply NoDup_app. split_and!; [done | | done].
    intros q Hq Hq'. apply (Hn2 q Hq). by right.
  - intros q Hq. by apply Hr, Hsub.
  - intros q Hq. by apply Hpok, Hsub.
  - rewrite Hp'. rewrite Hp in Hs. by apply StronglySorted_middle in Hs as (Hs & _).
  - intros q Hq. by apply Hfut, Hsub.
Qed.

(** ** [NextTick] keeps the invariant *)

Lemma tick_until now t :
  in_clock_range now → in_clock_range t → t ≠ now →
  ticks_until ((now + 1) mod 0x8000) t = (ticks_until now t - 1)%Z.
Proof. unfold ticks_until, in_clock_range. intros ? ? ?. zmod. Qed.

(** Advancing the clock keeps the order: nothing was due. *)
Lemma set_clock_Ordered w : Inv w → Ordered (set_clock (next_time w) w).
Proof.
  intros [[Hwf Hc Hnd Hr Hpok Hs] Hfut].
  assert (Hu : ∀ p, p ∈ pending w →
                 until (set_clock (next_time w) w) p = (until w p - 1)%Z).
  { intros p Hp. unfold until, next_time. simpl. rewrite land_u16_7fff.
    apply tick_until; [done | by apply Hr | by apply Hfut]. }
  split.
  - done.
  - apply land_u16_7fff_range.
  - done.
  - done.
  - done.
  - eapply StronglySorted_weaken; [|exact Hs].
    intros a b Ha Hb. unfold before. rewrite !Hu by done. lia.
Qed.

(** A round of the loop keeps the order. *)
Lemma fire_head_Ordered w x post :
  Ordered w → pending w = x :: post → due w x → Ordered (fire_head w).
Proof.
  intros [Hwf Hc Hnd Hr Hpok Hs] Hp Hdue.
  destruct (fire_head_spec w x post Hwf Hp)
    as (Ht & _ & Hother & _ & Hwf' & small & big & Hpost & Hp' & Hsmall & Hbig).
  destruct (fire_head_fields w x post Hwf Hp) as [Hto Hpe].
  rewrite Hp in Hnd, Hr, Hs. apply NoDup_cons in Hnd as [Hx Hnd].
  apply StronglySorted_cons in Hs as [_ Hs].
  assert (Hpostq : ∀ q, q ∈ post → heap (fire_head w) q = heap w q).
  { intros q Hq. apply Hother. by intros ->. }
  assert (Hmem : ∀ q, q ∈ pending (fire_head w) → q = x ∨ q ∈ post).
  { intros q. rewrite Hp', Hpost, !elem_of_app, elem_of_cons. tauto. }
  assert (Hr' : ∀ q, q ∈ pending (fire_head w) →
                  in_clock_range (_timeOut (heap (fire_head w) q))).
  { intros q [->|Hq]%Hmem.
    - rewrite Hto. apply Z.mod_pos_bound. lia.
    - rewrite Hpostq by done. apply Hr. by right. }
  assert (Hc' : in_clock_range (_presentTime (timer (fire_head w)))) by (by rewrite Ht).
  assert (Hxin : x ∈ pending (fire_head w)).
  { rewrite Hp'. apply elem_of_app. right. left. }
  assert (Hsin : ∀ q, q ∈ small → q ∈ pending (fire_head w)).
  { intros q Hq. rewrite Hp'. apply elem_of_app. by left. }
  assert (Hbin : ∀ q, q ∈ big → q ∈ pending (fire_head w)).
  { intros q Hq. rewrite Hp'. apply elem_of_app. right. by right. }
  assert (Hs' : StronglySorted (before (fire_head w)) post).
  { eapply StronglySorted_weaken; [|exact Hs].
    intros a b Ha Hb. unfold before.
    by rewrite (until_ext (fire_head w) w a), (until_ext (fire_head w) w b) by auto. }
  split.
  - done.
  - done.
  - rewrite Hp'. rewrite Hpost in Hnd, Hx.
    apply NoDup_app in Hnd as (Hn1 & Hn2 & Hn3).
    apply NoDup_app. split_and!; [done | | ].
    + intros q Hq [->|Hq']%elem_of_cons.
      * apply Hx, elem_of_app. by left.
      * by apply (Hn2 q).
    + apply NoDup_cons. split; [|done].
      intros Hq. apply Hx, elem_of_app. by right.
  - done.
  - by eapply fire_head_periods_ok.
  - rewrite Hp'. rewrite Hpost in Hs'. apply StronglySorted_middle. split_and!.
    + done.
    + apply Forall_forall. intros q Hq.
      eapply Forall_forall in Hsmall; [|exact Hq].
      rewrite !key_until in Hsmall by auto. unfold before. lia.
    + apply StronglySorted_head_below; [apply _ | by apply StronglySorted_app_1_r in Hs' |].
      intros b Hb. specialize (Hbig b Hb).
      apply head_Some_elem_of in Hb.
      rewrite !key_until in Hbig by auto. unfold before. lia.
Qed.

Lemma Ordered_head_not_due w x post :
  Ordered w → pending w = x :: post → ¬ due w x → Inv w.
Proof.
  intros Ho Hp Hnd. split; [done|].
  destruct Ho as [Hwf Hc _ Hr _ Hs].
  rewrite Hp in Hs. apply StronglySorted_cons in Hs as [Hall _].
  assert (Hx : (0 < until w x)%Z).
  { pose proof (until_range w x).
    destruct (decide (until w x = 0%Z)) as [Hz|Hnz]; [|lia].
    apply until_zero_due in Hz; [done | done |]. apply Hr. rewrite Hp. left. }
  intros q Hq Hd. apply until_zero_due in Hd; [| done | by apply Hr].
  rewrite Hp in Hq. apply elem_of_cons in Hq as [->|Hq]; [lia|].
  eapply Forall_forall in Hall; [|exact Hq]. unfold before in Hall. lia.
Qed.

Lemma NextTick_while_Inv : ∀ fuel w w',
  Ordered w → 0 < getCount w → NextTick_while fuel w = Some w' → Inv w'.
Proof.
  induction fuel as [|fuel IH]; intros w w' Ho Hc Hrun; [done|].
  cbn [NextTick_while] in Hrun.
  pose proof (ord_wf w Ho) as Hwf.
  destruct (pending_nonempty w Hwf Hc) as (x & post & Hp).
  rewrite (GET_TIMEOUT_head w x post Hwf Hp) in Hrun.
  destruct (Z.eqb_spec (_presentTime (timer w)) (_timeOut (heap w x))) as [He|Hne].
  - apply (IH (fire_head w)); [| |done].
    + by apply (fire_head_Ordered w x post).
    + destruct (fire_head_spec w x post Hwf Hp) as (_ & _ & _ & _ & Hwf1 & _).
      by rewrite (getCount_perm _ w) by (done || by eapply fire_head_perm).
  - injection Hrun as <-. apply (Ordered_head_not_due w x post); [done | done |].
    unfold due. congruence.
Qed.

Lemma NextTick_Inv fuel w w' : Inv w → NextTick fuel w = Some w' → Inv w'.
Proof.
  intros HInv. pose proof (set_clock_Ordered w HInv) as Ho.
  unfold NextTick. cbv zeta. fold (next_time w).
  destruct (Nat.eqb_spec 0 (getCount (set_clock (next_time w) w))) as [Hz|Hnz].
  - intros [= <-]. apply Inv_empty; [apply Ho | apply Ho | done].
  - apply NextTick_while_Inv; [done | lia].
Qed.

(** ** The sort invariant over runs *)

Lemma set_elem_Inv w p te : Inv w → p ∉ pending w → Inv (set_elem p te w).
Proof.
  intros HInv Hnin. apply (Inv_ext w); [apply HInv | done | done | | done].
  intros q Hq. simpl. apply fn_lookup_insert_ne. by intros ->.
Qed.

Lemma reachable_Inv w : reachable w → Inv w.
Proof.
  induction 1 as [h | w p _ IH Hnin Hper | w p _ IH | w fuel w' _ IH Hrun
                  | w p te _ IH Hnin].
  - apply Inv_empty; [apply wf_World_new | done | done].
  - by apply startTimer_Inv.
  - by apply cancelTimer_Inv.
  - by eapply NextTick_Inv.
  - by apply set_elem_Inv.
Qed.

(** C1 (amended).  From the empty scheduler, after any sequence of
    [startTimer], [cancelTimer] and [NextTick] in which every record that is
    registered is not pending at that moment and has a period that is not a
    multiple of [0x8000], no slot of the pending list compares greater than its
    successor under [normalizeTimeOut] at the current clock.  In such a state
    [NextTick] returns. *)
Theorem reachable_sort_invariant :
  ∀ (w : World),
    reachable w →
    sort_invariant w
    ∧ (∀ i, S i < getCount w →
         (normalizeTimeOut w (GET_TIMEOUT w i)
          ≤ normalizeTimeOut w (GET_TIMEOUT w (S i)))%Z)
    ∧ (∃ w', NextTick (S (getCount w)) w = Some w').
Proof.
  intros w Hr. apply reachable_Inv in Hr as [Ho Hfut].
  pose proof (Ordered_sort_invariant w Ho) as Hs.
  split_and!.
  - done.
  - intros i Hi. specialize (Hs i Hi). lia.
  - apply NextTick_terminates; apply Ho.
Qed.

Lemma example_reachable :
  reachable (startTimer 2 (startTimer 1 (World_new example_heap))).
Proof.
  apply reach_startTimer; [apply reach_startTimer; [apply reach_new | | ] | | ].
  - apply (bool_decide_unpack _). by vm_compute.
  - unfold period_ok. by vm_compute.
  - apply (bool_decide_unpack _). by vm_compute.
  - unfold period_ok. by vm_compute.
Qed.

Lemma reachable_sort_invariant_witness :
  let w := startTimer 2 (startTimer 1 (World_new example_heap)) in
  sort_invariant w
  ∧ (∀ i, S i < getCount w →
       (normalizeTimeOut w (GET_TIMEOUT w i)
        ≤ normalizeTimeOut w (GET_TIMEOUT w (S i)))%Z)
  ∧ (∃ w', NextTick (S (getCount w)) w = Some w').
Proof.
  apply (reachable_sort_invariant
           (startTimer 2 (startTimer 1 (World_new example_heap)))).
  exact example_reachable.
Defined.

(** C1, as stated, fails.  Registering a record again while it is pending
    rewrites its wake time in place: after [startTimer 1], [startTimer 2],
    three ticks and [startTimer 1] the wake times in list order are 8, 7, 8 at
    clock 3.  A record with period 0x8000 is due at once when it is registered
    and a full turn of the clock away after the next tick, while it still
    heads the list. *)
Lemma sort_invariant_counterexample :
  (∃ w, run 8 [op_startTimer 1; op_startTimer 2; op_NextTick; op_NextTick;
               op_NextTick; op_startTimer 1] (World_new example_heap) = Some w
        ∧ pending w = [1; 2; 1]
        ∧ (normalizeTimeOut w (GET_TIMEOUT w 0)
           > normalizeTimeOut w (GET_TIMEOUT w 1))%Z
        ∧ ¬ sort_invariant w)
  ∧ (∃ w, run 8 [op_startTimer 3; op_startTimer 2; op_NextTick]
            (World_new example_heap) = Some w
          ∧ pending w = [3; 2]
          ∧ (normalizeTimeOut w (GET_TIMEOUT w 0)
             > normalizeTimeOut w (GET_TIMEOUT w 1))%Z
          ∧ ¬ sort_invariant w).
Proof.
  split.
  - eexists. split; [by vm_compute|]. split_and!.
    + by vm_compute.
    + by vm_compute.
    + intros H. specialize (H 0). vm_compute in H. apply H; [lia | reflexivity].
  - eexists. split; [by vm_compute|]. split_and!.
    + by vm_compute.
    + by vm_compute.
    + intros H. specialize (H 0). vm_compute in H. apply H; [lia | reflexivity].
Qed.

(** ** Two records with the same wake time *)

Lemma fire_head_filter_other (P : ptr → Prop) `{!∀ q, Decision (P q)} w x post :
  wf w → pending w = x :: post → ¬ P x →
  filter P (pending (fire_head w)) = filter P (pending w).
Proof.
  intros Hwf Hp Hx.
  destruct (fire_head_spec w x post Hwf Hp)
    as (_ & _ & _ & _ & _ & small & big & Hpost & Hp' & _).
  rewrite Hp', Hp, Hpost, filter_app, !filter_cons_False by done.
  by rewrite filter_app.
Qed.

Lemma fire_head_count w x post :
  wf w → pending w = x :: post → getCount (fire_head w) = getCount w.
Proof.
  intros Hwf Hp.
  destruct (fire_head_spec w x post Hwf Hp) as (_ & _ & _ & _ & Hwf1 & _).
  apply getCount_perm; [done | done | by eapply fire_head_perm].
Qed.

Lemma fire_head_due_other w x post q :
  wf w → pending w = x :: post → q ≠ x → due (fire_head w) q ↔ due w q.
Proof.
  intros Hwf Hp Hq.
  destruct (fire_head_spec w x post Hwf Hp) as (Ht & _ & Hother & _).
  unfold due. by rewrite Ht, Hother.
Qed.

Lemma fire_head_not_due w x post :
  Ordered w → pending w = x :: post → due w x → ¬ due (fire_head w) x.
Proof.
  intros [Hwf Hc _ _ Hpok _] Hp Hdue.
  destruct (fire_head_spec w x post Hwf Hp) as (Ht & _).
  destruct (fire_head_fields w x post Hwf Hp) as [Hto _].
  unfold due in *. rewrite Hto, Ht, Hdue. apply rearm_not_due; [done|].
  apply Hpok. rewrite Hp. left.
Qed.

Section tie.
Context (a b : ptr).

(** While neither is due, the loop calls neither and moves neither past the
    other. *)
Lemma NextTick_while_skips_ab : ∀ fuel w w',
  wf w → 0 < getCount w → ¬ due w a → ¬ due w b →
  NextTick_while fuel w = Some w' →
  ∃ cs, calls w' = calls w ++ cs
        ∧ filter (ab_call a b) cs = []
        ∧ heap w' a = heap w a ∧ heap w' b = heap w b
        ∧ filter (ab a b) (pending w') = filter (ab a b) (pending w).
Proof.
  induction fuel as [|fuel IH]; intros w w' Hwf Hc Hna Hnb Hrun; [done|].
  cbn [NextTick_while] in Hrun.
  destruct (pending_nonempty w Hwf Hc) as (x & post & Hp).
  rewrite (GET_TIMEOUT_head w x post Hwf Hp) in Hrun.
  destruct (Z.eqb_spec (_presentTime (timer w)) (_timeOut (heap w x))) as [He|Hne].
  - assert (Hxa : a ≠ x) by (intros ->; by apply Hna).
    assert (Hxb : b ≠ x) by (intros ->; by apply Hnb).
    assert (Hnx : ¬ ab a b x) by (intros [->| ->]; done).
    destruct (fire_head_spec w x post Hwf Hp) as (_ & _ & Hother & Hcs & Hwf1 & _).
    destruct (IH (fire_head w) w' Hwf1) as (cs & Hcs' & Hf & Hha & Hhb & Hfp);
      [ by rewrite (fire_head_count w x post)
      | by rewrite (fire_head_due_other w x post)
      | by rewrite (fire_head_due_other w x post)
      | done | ].
    exists (callFunction x (updateTimeOut (heap w x)).2 :: cs). split_and!.
    + by rewrite Hcs', Hcs, <- app_assoc.
    + by rewrite filter_cons_False.
    + by rewrite Hha, Hother.
    + by rewrite Hhb, Hother.
    + by rewrite Hfp, (fire_head_filter_other (ab a b) w x post).
  - injection Hrun as <-. exists []. by rewrite app_nil_r.
Qed.

(** With [a] already called back and [b] still due, the loop calls [b] and
    then neither. *)
Lemma NextTick_while_second : ∀ fuel w w',
  Ordered w → 0 < getCount w → b ∈ pending w → due w b → ¬ due w a →
  NextTick_while fuel w = Some w' →
  ∃ cs cb, calls w' = calls w ++ cs
           ∧ filter (ab_call a b) cs = [cb] ∧ call_this cb = b.
Proof.
  induction fuel as [|fuel IH]; intros w w' Ho Hc Hb Hdb Hna Hrun; [done|].
  cbn [NextTick_while] in Hrun.
  pose proof (ord_wf w Ho) as Hwf.
  destruct (pending_nonempty w Hwf Hc) as (x & post & Hp).
  rewrite (GET_TIMEOUT_head w x post Hwf Hp) in Hrun.
  destruct (Z.eqb_spec (_presentTime (timer w)) (_timeOut (heap w x))) as [He|Hne].
  - assert (Hxa : a ≠ x) by (intros ->; by apply Hna).
    destruct (fire_head_spec w x post Hwf Hp) as (_ & _ & _ & Hcs & Hwf1 & _).
    pose proof (fire_head_count w x post Hwf Hp) as Hc1.
    destruct (decide (x = b)) as [->|Hxb].
    + destruct (NextTick_while_skips_ab fuel (fire_head w) w' Hwf1)
        as (cs & Hcs' & Hf & _); [lia | | | done | ].
      * by rewrite (fire_head_due_other w b post).
      * by apply (fire_head_not_due w b post).
      * exists (callFunction b (updateTimeOut (heap w b)).2 :: cs), 
               (callFunction b (updateTimeOut (heap w b)).2).
        split_and!; [by rewrite Hcs', Hcs, <- app_assoc | | done].
        rewrite filter_cons_True by (by right). by rewrite Hf.
    + destruct (IH (fire_head w) w') as (cs & cb & Hcs' & Hf & Hcb);
        [ by apply (fire_head_Ordered w x post) | lia | | | | done | ].
      * by rewrite (fire_head_perm w x post).
      * by rewrite (fire_head_due_other w x post).
      * by rewrite (fire_head_due_other w x post).
      * exists (callFunction x (updateTimeOut (heap w x)).2 :: cs), cb.
        split_and!; [by rewrite Hcs', Hcs, <- app_assoc | | done].
        rewrite filter_cons_False; [done|]. intros [?|?]; simpl in *; congruence.
  - exfalso. destruct (Ordered_head_not_due w x post Ho Hp) as [_ Hfut].
    + unfold due. congruence.
    + by apply (Hfut b).
Qed.

(** With both due and [a] ahead of [b] in the list, the loop calls [a], then
    [b], and each once. *)
Lemma NextTick_while_both : ∀ fuel w w',
  Ordered w → 0 < getCount w → filter (ab a b) (pending w) = [a; b] →
  due w a → due w b →
  NextTick_while fuel w = Some w' →
  ∃ cs ca cb, calls w' = calls w ++ cs
              ∧ filter (ab_call a b) cs = [ca; cb]
              ∧ call_this ca = a ∧ call_this cb = b.
Proof.
  induction fuel as [|fuel IH]; intros w w' Ho Hc Hf Hda Hdb Hrun; [done|].
  cbn [NextTick_while] in Hrun.
  pose proof (ord_wf w Ho) as Hwf.
  destruct (pending_nonempty w Hwf Hc) as (x & post & Hp).
  rewrite (GET_TIMEOUT_head w x post Hwf Hp) in Hrun.
  assert (Hain : a ∈ pending w).
  { eapply (list_elem_of_filter (ab a b)). rewrite Hf. left. }
  destruct (Z.eqb_spec (_presentTime (timer w)) (_timeOut (heap w x))) as [He|Hne].
  - destruct (fire_head_spec w x post Hwf Hp) as (_ & _ & _ & Hcs & Hwf1 & _).
    pose proof (fire_head_count w x post Hwf Hp) as Hc1.
    destruct (decide (ab a b x)) as [Hx|Hx].
    + rewrite Hp, filter_cons_True in Hf by done.
      injection Hf as -> Hf.
      assert (Hbin : b ∈ post).
      { eapply (list_elem_of_filter (ab a b)). rewrite Hf. left. }
      assert (Hba : b ≠ a).
      { intros ->. pose proof (ord_nodup w Ho) as Hnd. rewrite Hp in Hnd.
        by apply NoDup_cons in Hnd as [Hnd _]. }
      destruct (NextTick_while_second fuel (fire_head w) w')
        as (cs & cb & Hcs' & Hf' & Hcb);
        [ by apply (fire_head_Ordered w a post) | lia | | | | done | ].
      * rewrite (fire_head_perm w a post), Hp by done. by right.
      * by rewrite (fire_head_due_other w a post).
      * by apply (fire_head_not_due w a post).
      * exists (callFunction a (updateTimeOut (heap w a)).2 :: cs),
               (callFunction a (updateTimeOut (heap w a)).2), cb.
        split_and!; [by rewrite Hcs', Hcs, <- app_assoc | | done | done].
        rewrite filter_cons_True by (by left). by rewrite Hf'.
    + assert (Hxa : a ≠ x) by (intros ->; apply Hx; by left).
      assert (Hxb : b ≠ x) by (intros ->; apply Hx; by right).
      destruct (IH (fire_head w) w') as (cs & ca & cb & Hcs' & Hf' & Hca & Hcb);
        [ by apply (fire_head_Ordered w x post) | lia | | | | done | ].
      * by rewrite (fire_head_filter_other (ab a b) w x post).
      * by rewrite (fire_head_due_other w x post).
      * by rewrite (fire_head_due_other w x post).
      * exists (callFunction x (updateTimeOut (heap w x)).2 :: cs), ca, cb.
        split_and!; [by rewrite Hcs', Hcs, <- app_assoc | | done | done].
        by rewrite filter_cons_False.
  - exfalso. destruct (Ordered_head_not_due w x post Ho Hp) as [_ Hfut].
    + unfold due. congruence.
    + by apply (Hfut a).
Qed.
End tie.

Lemma tied_pending a b w : tied a b w → a ∈ pending w ∧ b ∈ pending w.
Proof.
  intros (_ & Hf & _).
  split; eapply (list_elem_of_filter (ab a b)); rewrite Hf.
  - left.
  - right. left.
Qed.

(** One tick on a tied pair: either it is not their tick, and the pair stays
    as it is, or it is, and [a] is called, then [b]. *)
Lemma NextTick_tied a b fuel w w' :
  tied a b w → NextTick fuel w = Some w' →
  ∃ cs, calls w' = calls w ++ cs
    ∧ ((next_time w ≠ _timeOut (heap w a)
        ∧ filter (ab_call a b) cs = []
        ∧ tied a b w'
        ∧ _timeOut (heap w' a) = _timeOut (heap w a))
       ∨ (next_time w = _timeOut (heap w a)
          ∧ ∃ ca cb, filter (ab_call a b) cs = [ca; cb]
                     ∧ call_this ca = a ∧ call_this cb = b)).
Proof.
  intros Htied Hrun. pose proof Htied as (HInv & Hf & Hsame).
  pose proof (NextTick_Inv fuel w w' HInv Hrun) as HInv'.
  pose proof (set_clock_Ordered w HInv) as Ho.
  destruct (tied_pending a b w Htied) as [Ha Hb].
  unfold NextTick in Hrun. cbv zeta in Hrun. fold (next_time w) in Hrun.
  set (w0 := set_clock (next_time w) w) in *.
  assert (Hc : 0 < getCount w0).
  { rewrite <- (length_pending w0 (ord_wf w0 Ho)).
    change (pending w0) with (pending w).
    destruct (pending w); [by apply elem_of_nil in Ha | simpl; lia]. }
  destruct (Nat.eqb_spec 0 (getCount w0)) as [Hz|_]; [lia|].
  destruct (decide (next_time w = _timeOut (heap w a))) as [Heq|Hne].
  - destruct (NextTick_while_both a b fuel w0 w' Ho Hc Hf)
      as (cs & ca & cb & Hcs & Hfc & Hca & Hcb); [| | done |].
    + unfold due. simpl. done.
    + unfold due. simpl. congruence.
    + exists cs. split; [done|]. right. split; [done|]. by exists ca, cb.
  - destruct (NextTick_while_skips_ab a b fuel w0 w' (ord_wf w0 Ho) Hc)
      as (cs & Hcs & Hfc & Hha & Hhb & Hfp); [| | done |].
    + unfold due. simpl. congruence.
    + unfold due. simpl. congruence.
    + exists cs. split; [done|]. left. split_and!; [done | done | | by rewrite Hha].
      split_and!; [done | by rewrite Hfp | by rewrite Hha, Hhb].
Qed.

(** The other operations leave records that they do not name alone. *)
Lemma InsertTimer_heap p w : heap (InsertTimer p w) = heap w.
Proof. unfold InsertTimer. by destruct (0 <? getCount w). Qed.

Lemma InsertTimer_calls p w : calls (InsertTimer p w) = calls w.
Proof. unfold InsertTimer. by destruct (0 <? getCount w). Qed.

Lemma startTimer_heap_other p w q : q ≠ p → heap (startTimer p w) q = heap w q.
Proof.
  intros Hq. unfold startTimer. rewrite InsertTimer_heap. simpl.
  by rewrite fn_lookup_insert_ne.
Qed.

Lemma startTimer_timeOut p w :
  _timeOut (heap (startTimer p w) p)
  = ((_presentTime (timer w) + _timePeriod (heap w p)) mod 0x8000)%Z.
Proof.
  unfold startTimer. rewrite InsertTimer_heap. simpl.
  rewrite fn_lookup_insert. apply land_u16_7fff.
Qed.

Lemma startTimer_calls p w : calls (startTimer p w) = calls w.
Proof. unfold startTimer. by rewrite InsertTimer_calls. Qed.

Lemma startTimer_filter (P : ptr → Prop) `{!∀ q, Decision (P q)} p w :
  wf w → ¬ P p → filter P (pending (startTimer p w)) = filter P (pending w).
Proof.
  intros Hwf Hp.
  destruct (decide (getCount w < MAX_LIST_PTRS)) as [Hroom|Hfull].
  - unfold startTimer. cbv zeta. set (w1 := set_elem _ _ w).
    destruct (InsertTimer_spec w1 p Hwf Hroom)
      as (_ & _ & _ & _ & small & big & Hp1 & Hp' & _).
    change (pending w) with (pending w1).
    by rewrite Hp', Hp1, !filter_app, filter_cons_False.
  - rewrite startTimer_full; [done|].
    apply Nat.eqb_eq. destruct Hwf as [_ Hle]. unfold getCount, GetCount in Hfull. lia.
Qed.

Lemma cancelTimer_filter (P : ptr → Prop) `{!∀ q, Decision (P q)} p w :
  wf w → ¬ P p → filter P (pending (cancelTimer p w)) = filter P (pending w).
Proof.
  intros Hwf Hp. destruct (decide (p ∈ pending w)) as [Hin|Hnin];
    [|by rewrite cancelTimer_absent].
  apply list_elem_of_split_l in Hin as (l1 & l2 & Hpe & Hn).
  destruct (cancelTimer_present w p l1 l2 Hwf Hpe Hn) as [-> _].
  by rewrite Hpe, !filter_app, filter_cons_False.
Qed.

Lemma a_then_b_app a b cs cs' : a_then_b a b cs → a_then_b a b (cs ++ cs').
Proof.
  intros (ca & cb & rest & Hf & Ha & Hb).
  exists ca, cb, (rest ++ filter (ab_call a b) cs').
  by rewrite filter_app, Hf.
Qed.

Lemma continues_tied a b w w2 :
  tied a b w → continues a b w w2 →
  Inv w2
  ∧ ∃ cs, calls w2 = calls w ++ cs
      ∧ ((filter (ab_call a b) cs = []
          ∧ tied a b w2
          ∧ _timeOut (heap w2 a) = _timeOut (heap w a))
         ∨ a_then_b a b cs).
Proof.
  intros Htied Hcont.
  induction Hcont as [w | w w' p _ IH Hnin Hper | w w' p _ IH Hpa Hpb
                      | w w' fuel w'' _ IH Hrun | w w' p te _ IH Hnin].
  - split; [apply Htied|]. exists []. rewrite app_nil_r. split; [done|]. by left.
  - destruct (IH Htied) as (HInv & cs & Hcs & Hcase).
    split; [by apply startTimer_Inv|].
    exists cs. rewrite startTimer_calls. split; [done|].
    destruct Hcase as [(Hf & Ht & Hto)|Hdone]; [left|by right].
    destruct (tied_pending a b w' Ht) as [Ha Hb].
    assert (Hpa : a ≠ p) by (by intros ->).
    assert (Hpb : b ≠ p) by (by intros ->).
    destruct Ht as (_ & Hfp & Hsame).
    split_and!; [done | | by rewrite startTimer_heap_other].
    split_and!.
    + by apply startTimer_Inv.
    + rewrite startTimer_filter; [done | apply HInv |]. intros [->| ->]; done.
    + by rewrite !startTimer_heap_other.
  - destruct (IH Htied) as (HInv & cs & Hcs & Hcase).
    split; [by apply cancelTimer_Inv|].
    exists cs. split; [done|].
    destruct Hcase as [(Hf & Ht & Hto)|Hdone]; [left|by right].
    destruct Ht as (_ & Hfp & Hsame).
    split_and!; [done | | done].
    split_and!; [by apply cancelTimer_Inv | | done].
    rewrite cancelTimer_filter; [done | apply HInv |]. intros [->| ->]; done.
  - destruct (IH Htied) as (HInv & cs & Hcs & Hcase).
    split; [by eapply NextTick_Inv|].
    destruct Hcase as [(Hf & Ht & Hto)|Hdone].
    + destruct (NextTick_tied a b fuel w' w'' Ht Hrun) as (cs' & Hcs' & Hcase').
      exists (cs ++ cs'). split; [by rewrite Hcs', Hcs, <- app_assoc|].
      rewrite filter_app, Hf. simpl.
      destruct Hcase' as [(_ & Hf' & Ht' & Hto')|(_ & ca & cb & Hf' & Hca & Hcb)].
      * left. split_and!; [done | done | congruence].
      * right. exists ca, cb, []. by rewrite filter_app, Hf, Hf'.
    + destruct (NextTick_frame fuel w' w'' (ord_wf w' (proj1 HInv)) Hrun)
        as (_ & _ & _ & cs' & Hcs').
      exists (cs ++ cs'). split; [by rewrite Hcs', Hcs, <- app_assoc|].
      right. by apply a_then_b_app.
  - destruct (IH Htied) as (HInv & cs & Hcs & Hcase).
    split; [by apply set_elem_Inv|].
    exists cs. split; [done|].
    destruct Hcase as [(Hf & Ht & Hto)|Hdone]; [left|by right].
    destruct (tied_pending a b w' Ht) as [Ha Hb].
    assert (Hpa : p ≠ a) by (by intros ->).
    assert (Hpb : p ≠ b) by (by intros ->).
    destruct Ht as (_ & Hfp & Hsame).
    assert (Hha : heap (set_elem p te w') a = heap w' a)
      by (simpl; by rewrite fn_lookup_insert_ne).
    assert (Hhb : heap (set_elem p te w') b = heap w' b)
      by (simpl; by rewrite fn_lookup_insert_ne).
    split_and!; [done | | by rewrite Hha].
    split_and!; [by apply set_elem_Inv | done | by rewrite Hha, Hhb].
Qed.

Lemma filter_ab_none a b (l : list ptr) :
  a ∉ l → b ∉ l → filter (ab a b) l = [].
Proof.
  intros Ha Hb. apply filter_none. apply Forall_forall.
  intros q Hq [->| ->]; done.
Qed.

Lemma filter_ab_one a b (l : list ptr) :
  NoDup l → a ∈ l → b ∉ l → filter (ab a b) l = [a].
Proof.
  intros Hnd Ha Hb. apply list_elem_of_split in Ha as (l1 & l2 & ->).
  apply NoDup_app in Hnd as (_ & Hn1 & [Hn2 _]%NoDup_cons).
  rewrite filter_app, filter_cons_True by (by left).
  rewrite !filter_ab_none; [done | | | | ].
  - done.
  - intros Hin. apply Hb, elem_of_app. right. by right.
  - intros Hin. apply (Hn1 a Hin). left.
  - intros Hin. apply Hb, elem_of_app. by left.
Qed.

(** C7 (amended).  Let [a] be pending in a reachable state and let [b], not
    pending, be registered while there is room, and let its wake time come out as that
    of [a].  Then [b] is placed after every pending record with that wake
    time.  Whatever follows, as long as neither of the two is cancelled, the
    calls made on them since begin with a call on [a] followed by a call on
    [b]; and on the tick on which the clock reaches their wake time, [NextTick]
    returns and has called [a] once, then [b] once. *)
Theorem tie_fires_in_registration_order :
  ∀ (w : World) (a b : ptr),
    reachable w →
    a ∈ pending w →
    b ∉ pending w →
    getCount w < MAX_LIST_PTRS →
    _timeOut (heap (startTimer b w) b) = _timeOut (heap w a) →
    (∃ l1 l2,
       pending w = l1 ++ l2
       ∧ pending (startTimer b w) = l1 ++ b :: l2
       ∧ ∀ q, q ∈ pending w →
              _timeOut (heap w q) = _timeOut (heap (startTimer b w) b) →
              q ∈ l1)
    ∧ (∀ w2, continues a b (startTimer b w) w2 →
         ∃ cs,
           calls w2 = calls (startTimer b w) ++ cs
           ∧ (filter (ab_call a b) cs = [] ∨ a_then_b a b cs)
           ∧ (filter (ab_call a b) cs = [] →
              next_time w2 = _timeOut (heap (startTimer b w) b) →
              (∃ w3, NextTick (S (getCount w2)) w2 = Some w3)
              ∧ (∀ fuel w3, NextTick fuel w2 = Some w3 →
                   ∃ cs' ca cb,
                     calls w3 = calls w2 ++ cs'
                     ∧ filter (ab_call a b) cs' = [ca; cb]
                     ∧ call_this ca = a ∧ call_this cb = b))).
Proof.
  intros w a b Hreach Ha Hb Hroom Hsame.
  pose proof (reachable_Inv w Hreach) as HInv.
  assert (Hab : a ≠ b) by (by intros ->).
  assert (Hper : period_ok (heap w b)).
  { intros Hz. destruct HInv as [Ho Hfut]. apply (Hfut a Ha).
    unfold due. rewrite <- Hsame, startTimer_timeOut.
    pose proof (ord_clock w Ho) as Hc. unfold in_clock_range in Hc. zmod. }
  destruct (startTimer_spec w b HInv Hb Hper Hroom)
    as (HInv1 & Ht & Hcs & Hother & Hub & small & big & Hp & Hp1 & Hsm & Hbg).
  set (w1 := startTimer b w) in *.
  assert (Hplace : ∀ q, q ∈ pending w →
                     _timeOut (heap w q) = _timeOut (heap w1 b) → q ∈ small).
  { intros q Hq Hto. rewrite Hp in Hq. apply elem_of_app in Hq as [Hq|Hq]; [done|].
    eapply Forall_forall in Hbg; [|exact Hq]. exfalso.
    assert (Hqb : q ≠ b).
    { intros ->. apply Hb. rewrite Hp. apply elem_of_app. by right. }
    unfold until in Hbg. rewrite (Hother q Hqb), Hto in Hbg. lia. }
  assert (Has : a ∈ small) by (by apply Hplace).
  assert (Htied : tied a b w1).
  { split_and!; [done | | by rewrite Hother].
    pose proof (ord_nodup w (proj1 HInv)) as Hnd. rewrite Hp in Hnd, Hb.
    apply NoDup_app in Hnd as (Hn1 & Hn2 & Hn3).
    rewrite Hp1, filter_app, filter_cons_True by (by right).
    rewrite (filter_ab_one a b small), (filter_ab_none a b big); [done | | | | | ].
    - by apply Hn2.
    - intros Hin. apply Hb, elem_of_app. by right.
    - done.
    - done.
    - intros Hin. apply Hb, elem_of_app. by left. }
  split.
  - exists small, big. by split_and!.
  - intros w2 Hcont.
    destruct (continues_tied a b w1 w2 Htied Hcont) as (HInv2 & cs & Hcs2 & Hcase).
    exists cs. split_and!; [done | | ].
    + destruct Hcase as [(Hf & _)|Hdone]; [by left | by right].
    + intros Hf Hnext.
      destruct Hcase as [(_ & Ht2 & Hto2)|(ca & cb & rest & Hf' & _)];
        [|by rewrite Hf in Hf'].
      split.
      * apply NextTick_terminates; apply HInv2.
      * intros fuel w3 Hrun.
        destruct (NextTick_tied a b fuel w2 w3 Ht2 Hrun) as (cs' & Hcs' & Hcase').
        destruct Hcase' as [(Hne & _)|(_ & ca & cb & Hf' & Hca & Hcb)].
        -- exfalso. apply Hne. rewrite Hnext, Hto2.
           destruct Htied as (_ & _ & Heq). by rewrite Heq.
        -- by exists cs', ca, cb.
Qed.

Lemma tie_reachable : reachable (startTimer 1 (World_new tie_heap)).
Proof.
  apply reach_startTimer; [apply reach_new | | ].
  - apply (bool_decide_unpack _). by vm_compute.
  - unfold period_ok. by vm_compute.
Qed.

Lemma tie_fires_in_registration_order_witness :
  let w := startTimer 1 (World_new tie_heap) in
  (∃ l1 l2,
     pending w = l1 ++ l2
     ∧ pending (startTimer 2 w) = l1 ++ 2 :: l2
     ∧ ∀ q, q ∈ pending w →
            _timeOut (heap w q) = _timeOut (heap (startTimer 2 w) 2) →
            q ∈ l1)
  ∧ (∀ w2, continues 1 2 (startTimer 2 w) w2 →
       ∃ cs,
         calls w2 = calls (startTimer 2 w) ++ cs
         ∧ (filter (ab_call 1 2) cs = [] ∨ a_then_b 1 2 cs)
         ∧ (filter (ab_call 1 2) cs = [] →
            next_time w2 = _timeOut (heap (startTimer 2 w) 2) →
            (∃ w3, NextTick (S (getCount w2)) w2 = Some w3)
            ∧ (∀ fuel w3, NextTick fuel w2 = Some w3 →
                 ∃ cs' ca cb,
                   calls w3 = calls w2 ++ cs'
                   ∧ filter (ab_call 1 2) cs' = [ca; cb]
                   ∧ call_this ca = 1 ∧ call_this cb = 2))).
Proof.
  apply (tie_fires_in_registration_order (startTimer 1 (World_new tie_heap)) 1 2).
  - exact tie_reachable.
  - apply (bool_decide_unpack _). by vm_compute.
  - apply (bool_decide_unpack _). by vm_compute.
  - vm_compute. lia.
  - reflexivity.
Defined.

(** The order of a tie is the order of registration on the first common tick
    only: with equal periods the two records change places on every tick on
    which both fire. *)
Lemma tie_order_alternates :
  ∃ w, run 4 (op_startTimer 1 :: op_startTimer 2 :: replicate 10 op_NextTick)
         (World_new tie_heap) = Some w
       ∧ map call_this (calls w) = [1; 2; 2; 1].
Proof. eexists. split; by vm_compute. Qed.

(** C7, as stated, fails.  Nothing in the code keeps a pending record from
    being registered again: after [startTimer 1], [startTimer 2], three ticks
    and [startTimer 1] the list is [1; 2; 1] with the wake times 8, 7, 8 at
    clock 3.  A record 3 that is registered now with the wake time 7 of the
    pending record 2 is placed at the head, in front of record 2, because
    [Search] stops at the first slot, whose wake time is later.  On the tick
    on which the clock reaches 7 only record 3 is called: after it has been
    moved, the head is record 1, which is not due, and the loop ends without
    a call on record 2. *)
Lemma tie_order_counterexample :
  ∃ w w',
    run 8 [op_startTimer 1; op_startTimer 2; op_NextTick; op_NextTick;
           op_NextTick; op_startTimer 1] (World_new late_tie_heap) = Some w
    ∧ pending w = [1; 2; 1]
    ∧ getCount w < MAX_LIST_PTRS
    ∧ (3 ∉ pending w)
    ∧ _timeOut (heap (startTimer 3 w) 3) = _timeOut (heap w 2)
    ∧ pending (startTimer 3 w) = [3; 1; 2; 1]
    ∧ run 8 (replicate 4 op_NextTick) (startTimer 3 w) = Some w'
    ∧ getPresentTime w' = _timeOut (heap w 2)
    ∧ map call_this (calls w') = [3]
    ∧ _timeOut (heap w' 2) = _timeOut (heap w 2).
Proof.
  eexists. eexists. split; [by vm_compute|].
  split_and!; try (by vm_compute).
  - vm_compute. lia.
  - apply (bool_decide_unpack _). by vm_compute.
Qed.

(** ** A period that does not move the wake time *)

(** A head that is due and whose period is a multiple of [0x8000] is due
    again after it was called back, and stays at the head: the loop does not
    end. *)
Lemma fire_head_stuck w x post :
  wf w → pending w = x :: post →
  in_clock_range (_presentTime (timer w)) →
  (∀ q, q ∈ post → in_clock_range (_timeOut (heap w q))) →
  due w x → ¬ period_ok (heap w x) →
  pending (fire_head w) = x :: post
  ∧ (∀ q, q ∈ post → in_clock_range (_timeOut (heap (fire_head w) q)))
  ∧ due (fire_head w) x ∧ ¬ period_ok (heap (fire_head w) x).
Proof.
  intros Hwf Hp Hc Hr Hdue Hper.
  destruct (fire_head_spec w x post Hwf Hp)
    as (Ht & _ & Hother & _ & Hwf' & small & big & Hpost & Hp' & Hsmall & _).
  destruct (fire_head_fields w x post Hwf Hp) as [Hto Hpe].
  assert (Hx : _timeOut (heap (fire_head w) x) = _presentTime (timer w)).
  { rewrite Hto, Hdue. unfold period_ok, in_clock_range in *. zmod. }
  assert (Hr' : ∀ q, q ∈ post → in_clock_range (_timeOut (heap (fire_head w) q))).
  { intros q Hq. destruct (decide (q = x)) as [->|Hne].
    - by rewrite Hx.
    - rewrite Hother by done. by apply Hr. }
  split_and!; [ | done | by unfold due; rewrite Ht | by unfold period_ok; rewrite Hpe].
  destruct small as [|q small]; [by rewrite Hp', Hpost|]. exfalso.
  apply Forall_cons in Hsmall as [Hq _].
  assert (Hqin : q ∈ post) by (rewrite Hpost; left).
  rewrite !key_until in Hq; [| by rewrite Ht | by rewrite Hx | by rewrite Ht | by apply Hr'].
  pose proof (until_range (fire_head w) q).
  assert (Hux : until (fire_head w) x = 0%Z).
  { apply until_zero_due; [by rewrite Ht | by rewrite Hx | by unfold due; rewrite Ht]. }
  lia.
Qed.

Lemma NextTick_while_stuck : ∀ fuel w x post,
  wf w → pending w = x :: post →
  in_clock_range (_presentTime (timer w)) →
  (∀ q, q ∈ post → in_clock_range (_timeOut (heap w q))) →
  due w x → ¬ period_ok (heap w x) →
  NextTick_while fuel w = None.
Proof.
  induction fuel as [|fuel IH]; intros w x post Hwf Hp Hc Hr Hdue Hper; [done|].
  cbn [NextTick_while].
  rewrite (GET_TIMEOUT_head w x post Hwf Hp).
  unfold due in Hdue. rewrite Hdue, Z.eqb_refl.
  destruct (fire_head_stuck w x post Hwf Hp Hc Hr Hdue Hper) as (Hp' & Hr' & Hd' & Hper').
  destruct (fire_head_spec w x post Hwf Hp) as (Ht & _ & _ & _ & Hwf' & _).
  apply (IH (fire_head w) x post); try done. by rewrite Ht.
Qed.

(** C3, as stated, fails for a head record whose period is 0x8000: the clock
    shows 100 after the increment and the head is due at 100, but the call
    never returns, and after three rounds of its loop the record has been
    called back three times. *)
Lemma NextTick_fires_once_counterexample :
  pending stuck_example = [1; 2]
  ∧ next_time stuck_example = 100%Z
  ∧ _timeOut (heap stuck_example 1) = 100%Z
  ∧ (∀ fuel, NextTick fuel stuck_example = None)
  ∧ map call_this
      (calls (NextTick_rounds 3 (set_clock (next_time stuck_example) stuck_example)))
    = [1; 1; 1].
Proof.
  split_and!; [reflexivity | reflexivity | reflexivity | | by vm_compute].
  intros fuel. unfold NextTick. cbv zeta.
  change (0 =? getCount _) with false. cbv iota.
  apply (NextTick_while_stuck fuel _ 1 [2]).
  - split; [reflexivity | simpl; unfold MAX_LIST_PTRS; lia].
  - reflexivity.
  - apply land_u16_7fff_range.
  - intros q ->%list_elem_of_singleton. by vm_compute.
  - reflexivity.
  - unfold period_ok. by vm_compute.
Qed.

(** * Further properties of the code *)

(** ** [List] *)

Lemma InsertAt_loop_length : ∀ i index (a : list ptr),
  length (InsertAt_loop i index a) = length a.
Proof.
  induction i as [|i IH]; intros index a; cbn [InsertAt_loop]; [done|].
  destruct (index <? S i); [|done]. by rewrite IH, length_insert.
Qed.

Lemma Remove_loop_length : ∀ rounds cnt i (a : list ptr),
  length (Remove_loop rounds cnt i a) = length a.
Proof.
  induction rounds as [|rounds IH]; intros cnt i a; cbn [Remove_loop]; [done|].
  destruct (i <? cnt - 1); [|done]. by rewrite IH, length_insert.
Qed.

(** X1.  [Add] on a list with room stores the pointer in the first free cell,
    so the stored sequence grows by it at the end; on a full list it changes
    nothing.  In both cases it returns the count the list has afterwards, so
    the value [MAX_LIST_PTRS] is returned by the call that filled the list and
    by every rejected call after it. *)
Theorem Add_appends_or_rejects :
  ∀ (l : List) (pData : ptr),
    wf_List l →
    (m_Counter l < MAX_LIST_PTRS →
       content (Add pData l).2 = content l ++ [pData]
       ∧ at_ (Add pData l).2 (m_Counter l) = pData
       ∧ (Add pData l).1 = m_Counter l + 1
       ∧ wf_List (Add pData l).2)
    ∧ (m_Counter l = MAX_LIST_PTRS → Add pData l = (MAX_LIST_PTRS, l))
    ∧ (Add pData l).1 = GetCount (Add pData l).2.
Proof.
  intros l pData Hwf. split_and!.
  - intros Hroom. destruct (Add_content pData l Hwf Hroom) as [Hc Hw].
    split_and!; [done | | | done].
    + rewrite at_content; [| done |].
      * rewrite Hc. apply list_lookup_total_middle.
        destruct (wf_List_split l Hwf) as (_ & _ & Hl & _). done.
      * unfold Add. destruct (Nat.ltb_spec (m_Counter l) MAX_LIST_PTRS); simpl; lia.
    + unfold Add. by destruct (Nat.ltb_spec (m_Counter l) MAX_LIST_PTRS); [|lia].
  - intros Hfull. unfold Add.
    destruct (Nat.ltb_spec (m_Counter l) MAX_LIST_PTRS); [lia|]. by rewrite Hfull.
  - unfold Add. by destruct (m_Counter l <? MAX_LIST_PTRS).
Qed.

Lemma Add_appends_or_rejects_witness :
  (m_Counter List_new < MAX_LIST_PTRS →
     content (Add 7 List_new).2 = content List_new ++ [7]
     ∧ at_ (Add 7 List_new).2 (m_Counter List_new) = 7
     ∧ (Add 7 List_new).1 = m_Counter List_new + 1
     ∧ wf_List (Add 7 List_new).2)
  ∧ (m_Counter List_new = MAX_LIST_PTRS → Add 7 List_new = (MAX_LIST_PTRS, List_new))
  ∧ (Add 7 List_new).1 = GetCount (Add 7 List_new).2.
Proof. apply (Add_appends_or_rejects List_new 7). exact wf_List_new. Defined.

(** X2.  [InsertAt] with room and an index up to the count puts the pointer in
    that cell and moves the cells from there on up by one: the cells below the
    index are as before, the cell at the index is the new pointer, and every
    cell above it holds what the cell below it held. *)
Theorem InsertAt_cells :
  ∀ (l : List) (index : nat) (pData : ptr),
    wf_List l → m_Counter l < MAX_LIST_PTRS → index ≤ m_Counter l →
    GetCount (InsertAt index pData l) = m_Counter l + 1
    ∧ at_ (InsertAt index pData l) index = pData
    ∧ (∀ j, j < index → at_ (InsertAt index pData l) j = at_ l j)
    ∧ (∀ j, index < j → j ≤ m_Counter l →
         at_ (InsertAt index pData l) j = at_ l (j - 1)).
Proof.
  intros l index pData Hwf Hroom Hi.
  destruct (InsertAt_content index pData l Hwf Hroom Hi) as [Hc Hw].
  destruct (wf_List_split l Hwf) as (_ & _ & Hl & _).
  assert (Hcnt : m_Counter (InsertAt index pData l) = m_Counter l + 1).
  { unfold InsertAt. by destruct (Nat.ltb_spec (m_Counter l) MAX_LIST_PTRS); [|lia]. }
  assert (Hlt : length (take index (content l)) = index)
    by (rewrite length_take; lia).
  split_and!.
  - done.
  - rewrite at_content, Hc by (done || lia).
    by apply list_lookup_total_middle.
  - intros j Hj. rewrite !at_content, Hc by (done || lia).
    rewrite lookup_total_app_l by lia. by rewrite lookup_total_take_lt.
  - intros j Hj Hjc. rewrite !at_content, Hc by (done || lia).
    rewrite lookup_total_app_r by lia. rewrite Hlt.
    destruct (j - index) as [|k] eqn:E; [lia|]. simpl.
    rewrite lookup_total_drop. f_equal. lia.
Qed.

Lemma InsertAt_cells_witness :
  let l := (Add 8 (Add 7 List_new).2).2 in
  GetCount (InsertAt 1 9 l) = m_Counter l + 1
  ∧ at_ (InsertAt 1 9 l) 1 = 9
  ∧ (∀ j, j < 1 → at_ (InsertAt 1 9 l) j = at_ l j)
  ∧ (∀ j, 1 < j → j ≤ m_Counter l → at_ (InsertAt 1 9 l) j = at_ l (j - 1)).
Proof.
  apply (InsertAt_cells (Add 8 (Add 7 List_new).2).2 1 9).
  - split; [reflexivity | simpl; unfold MAX_LIST_PTRS; lia].
  - simpl. unfold MAX_LIST_PTRS. lia.
  - simpl. lia.
Defined.

Lemma InsertAt_loop_above : ∀ i index (a : list ptr),
  i ≤ index → InsertAt_loop i index a = a.
Proof.
  intros [|i] index a Hi; cbn [InsertAt_loop]; [done|].
  by destruct (Nat.ltb_spec index (S i)); [lia|].
Qed.

(** X3.  [InsertAt] does not compare the index with the count.  With an index
    beyond the count (but inside the array) nothing is shifted, the pointer is
    written to the cell it names, and the count still grows by one: the stored
    sequence gains the cell that lay after its end as it happened to be, and
    the new pointer stays outside the counted cells. *)
Theorem InsertAt_past_the_end :
  ∀ (l : List) (index : nat) (pData : ptr),
    wf_List l → m_Counter l < index → index < MAX_LIST_PTRS →
    GetCount (InsertAt index pData l) = m_Counter l + 1
    ∧ content (InsertAt index pData l) = content l ++ [at_ l (m_Counter l)]
    ∧ at_ (InsertAt index pData l) index = pData
    ∧ GetCount (InsertAt index pData l) ≤ index.
Proof.
  intros l index pData [Hlen Hc] Hi Hin. unfold InsertAt.
  destruct (Nat.ltb_spec (m_Counter l) MAX_LIST_PTRS); [|lia].
  rewrite InsertAt_loop_above by lia.
  unfold GetCount, content, at_, cell. simpl. split_and!.
  - done.
  - rewrite take_insert_ge by lia.
    replace (m_Counter l + 1) with (S (m_Counter l)) by lia.
    apply take_S_r. apply list_lookup_lookup_total_lt. lia.
  - apply list_lookup_total_insert_eq. lia.
  - lia.
Qed.

Lemma InsertAt_past_the_end_witness :
  GetCount (InsertAt 3 9 List_new) = m_Counter List_new + 1
  ∧ content (InsertAt 3 9 List_new) = content List_new ++ [at_ List_new (m_Counter List_new)]
  ∧ at_ (InsertAt 3 9 List_new) 3 = 9
  ∧ GetCount (InsertAt 3 9 List_new) ≤ 3.
Proof.
  apply (InsertAt_past_the_end List_new 3 9).
  - exact wf_List_new.
  - simpl. lia.
  - unfold MAX_LIST_PTRS. lia.
Defined.

(** X4.  [Remove] of a counted cell deletes it from the stored sequence and
    closes the gap; with any other index it changes nothing at all, so the
    count never goes below zero.  [Remove] undoes [InsertAt] at the same
    index, and [InsertAt] of the removed pointer undoes [Remove]. *)
Theorem Remove_and_InsertAt :
  ∀ (l : List) (index : nat) (pData : ptr),
    wf_List l →
    (index < m_Counter l →
       content (Remove index l) = delete index (content l)
       ∧ GetCount (Remove index l) = m_Counter l - 1
       ∧ wf_List (Remove index l)
       ∧ content (InsertAt index (at_ l index) (Remove index l)) = content l)
    ∧ (m_Counter l ≤ index → Remove index l = l)
    ∧ (m_Counter l < MAX_LIST_PTRS → index ≤ m_Counter l →
       content (Remove index (InsertAt index pData l)) = content l
       ∧ GetCount (Remove index (InsertAt index pData l)) = m_Counter l).
Proof.
  intros l index pData Hwf.
  destruct (wf_List_split l Hwf) as (_ & _ & Hl & _).
  split_and!.
  - intros Hi. destruct (Remove_content index l Hwf Hi) as [Hc Hw].
    assert (Hcnt : m_Counter (Remove index l) = m_Counter l - 1).
    { unfold Remove. by destruct (Nat.ltb_spec index (m_Counter l)); [|lia]. }
    split_and!; [done | done | done | ].
    pose proof Hwf as [_ Hle].
    destruct (InsertAt_content index (at_ l index) (Remove index l) Hw) as [Hc' _];
      [lia | lia |].
    rewrite Hc', Hc, delete_take_drop.
    rewrite take_app_le, take_take, Nat.min_id by (rewrite length_take; lia).
    rewrite drop_app_ge by (rewrite length_take; lia).
    rewrite length_take, drop_drop.
    replace (S index + (index - index `min` length (content l))) with (S index)
      by lia.
    rewrite at_content by (done || lia).
    apply take_drop_middle. apply list_lookup_lookup_total_lt. lia.
  - apply Remove_ge.
  - intros Hroom Hi.
    destruct (InsertAt_content index pData l Hwf Hroom Hi) as [Hc Hw].
    assert (Hcnt : m_Counter (InsertAt index pData l) = m_Counter l + 1).
    { unfold InsertAt. by destruct (Nat.ltb_spec (m_Counter l) MAX_LIST_PTRS); [|lia]. }
    destruct (Remove_content index (InsertAt index pData l) Hw) as [Hc' _]; [lia|].
    split.
    + rewrite Hc', Hc.
      replace index with (length (take index (content l))) at 1
        by (rewrite length_take; lia).
      rewrite delete_middle. apply take_drop.
    + unfold GetCount, Remove.
      destruct (Nat.ltb_spec index (m_Counter (InsertAt index pData l))); simpl; lia.
Qed.

Lemma Remove_and_InsertAt_witness :
  let l := (Add 8 (Add 7 List_new).2).2 in
  (1 < m_Counter l →
     content (Remove 1 l) = delete 1 (content l)
     ∧ GetCount (Remove 1 l) = m_Counter l - 1
     ∧ wf_List (Remove 1 l)
     ∧ content (InsertAt 1 (at_ l 1) (Remove 1 l)) = content l)
  ∧ (m_Counter l ≤ 1 → Remove 1 l = l)
  ∧ (m_Counter l < MAX_LIST_PTRS → 1 ≤ m_Counter l →
     content (Remove 1 (InsertAt 1 9 l)) = content l
     ∧ GetCount (Remove 1 (InsertAt 1 9 l)) = m_Counter l).
Proof.
  apply (Remove_and_InsertAt (Add 8 (Add 7 List_new).2).2 1 9).
  split; [reflexivity | simpl; unfold MAX_LIST_PTRS; lia].
Defined.

(** X5.  [Swap] of two cells inside the array exchanges what they hold and
    leaves every other cell and the count as they are; doing it twice gives
    the list back. *)
Theorem Swap_exchanges :
  ∀ (l : List) (i1 i2 : nat),
    i1 < length (m_ptrList l) → i2 < length (m_ptrList l) →
    at_ (Swap i1 i2 l) i1 = at_ l i2
    ∧ at_ (Swap i1 i2 l) i2 = at_ l i1
    ∧ (∀ j, j ≠ i1 → j ≠ i2 → at_ (Swap i1 i2 l) j = at_ l j)
    ∧ GetCount (Swap i1 i2 l) = GetCount l
    ∧ Swap i1 i2 (Swap i1 i2 l) = l.
Proof.
  intros [cnt a] i1 i2 H1 H2. unfold Swap, at_, cell, GetCount. simpl in *.
  assert (Hat1 : <[i2:=a !!! i1]> (<[i1:=a !!! i2]> a) !!! i1 = a !!! i2).
  { rewrite list_lookup_total_insert, length_insert.
    destruct (decide (i2 = i1 ∧ i2 < length a)) as [[-> _]|Hne]; [done|].
    apply list_lookup_total_insert_eq. lia. }
  assert (Hat2 : <[i2:=a !!! i1]> (<[i1:=a !!! i2]> a) !!! i2 = a !!! i1).
  { apply list_lookup_total_insert_eq. by rewrite length_insert. }
  split_and!; [done | done | | done | ].
  - intros j Hj1 Hj2. by rewrite !list_lookup_total_insert_ne.
  - f_equal. rewrite Hat1, Hat2.
    apply (list_eq_same_length _ _ (length a)); [done | by rewrite !length_insert |].
    intros j x y Hj Hx Hy.
    apply list_lookup_total_correct in Hx. apply list_lookup_total_correct in Hy.
    subst x y. rewrite !list_lookup_total_insert, !length_insert.
    repeat case_decide; try done; destruct_and?; subst; try done; lia.
Qed.

Lemma Swap_exchanges_witness :
  let l := (Add 8 (Add 7 List_new).2).2 in
  at_ (Swap 0 1 l) 0 = at_ l 1
  ∧ at_ (Swap 0 1 l) 1 = at_ l 0
  ∧ (∀ j, j ≠ 0 → j ≠ 1 → at_ (Swap 0 1 l) j = at_ l j)
  ∧ GetCount (Swap 0 1 l) = GetCount l
  ∧ Swap 0 1 (Swap 0 1 l) = l.
Proof.
  apply (Swap_exchanges (Add 8 (Add 7 List_new).2).2 0 1); simpl; lia.
Defined.

Lemma List_do_wf o l : wf_List l → List_op_in_array o → wf_List (List_do o l).
Proof.
  intros [Hlen Hc] Hin. destruct o as [p | index p | index | i1 i2]; simpl.
  - unfold Add. destruct (Nat.ltb_spec (m_Counter l) MAX_LIST_PTRS); simpl; [|done].
    split; simpl; [by rewrite length_insert | lia].
  - unfold InsertAt. destruct (Nat.ltb_spec (m_Counter l) MAX_LIST_PTRS); [|done].
    split; simpl; [by rewrite length_insert, InsertAt_loop_length | lia].
  - unfold Remove. destruct (index <? m_Counter l); split; simpl;
      rewrite ?Remove_loop_length; (done || lia).
  - split; simpl; [by rewrite !length_insert | done].
Qed.

(** X6.  Starting from the constructed list, no sequence of [Add], [InsertAt],
    [Remove] and [Swap] calls that stay inside the array takes the count above
    [MAX_LIST_PTRS], or changes the size of the array; the stored sequence has
    as many entries as the count says, and [isFull] answers true exactly when
    the count is [MAX_LIST_PTRS]. *)
Theorem List_count_within_capacity :
  ∀ (ops : list List_op),
    Forall List_op_in_array ops →
    wf_List (foldl (λ l o, List_do o l) List_new ops)
    ∧ GetCount (foldl (λ l o, List_do o l) List_new ops) ≤ MAX_LIST_PTRS
    ∧ length (content (foldl (λ l o, List_do o l) List_new ops))
      = GetCount (foldl (λ l o, List_do o l) List_new ops)
    ∧ (isFull (foldl (λ l o, List_do o l) List_new ops) = true
       ↔ GetCount (foldl (λ l o, List_do o l) List_new ops) = MAX_LIST_PTRS).
Proof.
  intros ops Hops.
  assert (Hwf : wf_List (foldl (λ l o, List_do o l) List_new ops)).
  { generalize wf_List_new. generalize List_new.
    induction Hops as [|o ops Ho _ IH]; intros l Hl; [done|].
    simpl. apply IH. by apply List_do_wf. }
  destruct (wf_List_split _ Hwf) as (_ & _ & Hl & _).
  split_and!; [done | apply Hwf | done | apply Nat.eqb_eq].
Qed.

Lemma List_count_within_capacity_witness :
  let ops := [L_Add 7; L_InsertAt 0 8; L_Swap 0 1; L_Remove 0; L_Remove 4] in
  wf_List (foldl (λ l o, List_do o l) List_new ops)
  ∧ GetCount (foldl (λ l o, List_do o l) List_new ops) ≤ MAX_LIST_PTRS
  ∧ length (content (foldl (λ l o, List_do o l) List_new ops))
    = GetCount (foldl (λ l o, List_do o l) List_new ops)
  ∧ (isFull (foldl (λ l o, List_do o l) List_new ops) = true
     ↔ GetCount (foldl (λ l o, List_do o l) List_new ops) = MAX_LIST_PTRS).
Proof.
  apply (List_count_within_capacity
           [L_Add 7; L_InsertAt 0 8; L_Swap 0 1; L_Remove 0; L_Remove 4]).
  repeat constructor; unfold MAX_LIST_PTRS; lia.
Defined.

(** ** [timeElement] *)

Lemma updateTimeOut_keeps te :
  _timePeriod (updateTimeOut te).2 = _timePeriod te
  ∧ _repeats (updateTimeOut te).2 = _repeats te
  ∧ _callBack (updateTimeOut te).2 = _callBack te
  ∧ _arg (updateTimeOut te).2 = _arg te.
Proof. done. Qed.

(** X7.  [n ≥ 1] calls of [updateTimeOut] leave the wake time at
    [(_timeOut + n * _timePeriod) mod 0x8000], inside [0, 0x7FFF] whatever the
    period and the wake time were; each call returns the wake time it stored
    and touches no other field. *)
Theorem updateTimeOut_times_spec :
  ∀ (n : nat) (te : timeElement),
    _timeOut (updateTimeOut_times (S n) te)
    = ((_timeOut te + Z.of_nat (S n) * _timePeriod te) mod 0x8000)%Z
    ∧ in_clock_range (_timeOut (updateTimeOut_times (S n) te))
    ∧ (updateTimeOut (updateTimeOut_times n te)).1
      = _timeOut (updateTimeOut_times (S n) te)
    ∧ (_timePeriod (updateTimeOut_times n te) = _timePeriod te
       ∧ _repeats (updateTimeOut_times n te) = _repeats te
       ∧ _callBack (updateTimeOut_times n te) = _callBack te
       ∧ _arg (updateTimeOut_times n te) = _arg te).
Proof.
  intros n te.
  assert (Hk : ∀ k, _timePeriod (updateTimeOut_times k te) = _timePeriod te
                    ∧ _repeats (updateTimeOut_times k te) = _repeats te
                    ∧ _callBack (updateTimeOut_times k te) = _callBack te
                    ∧ _arg (updateTimeOut_times k te) = _arg te).
  { induction k as [|k IH]; [done|]. exact IH. }
  assert (Ht : ∀ k, _timeOut (updateTimeOut_times (S k) te)
                    = ((_timeOut te + Z.of_nat (S k) * _timePeriod te) mod 0x8000)%Z).
  { induction k as [|k IH].
    - unfold updateTimeOut_times. simpl.
      rewrite land_u16_7fff. f_equal. lia.
    - change (updateTimeOut_times (S (S k)) te)
        with (updateTimeOut (updateTimeOut_times (S k) te)).2.
      destruct (updateTimeOut_fields (updateTimeOut_times (S k) te)) as [-> _].
      rewrite IH. destruct (Hk (S k)) as [-> _].
      rewrite Zplus_mod_idemp_r. f_equal. lia. }
  split; [|split; [|split]].
  - apply Ht.
  - rewrite Ht. apply Z.mod_pos_bound. lia.
  - done.
  - apply Hk.
Qed.

Lemma clockAlarm_repeats this te :
  _repeats (clockAlarm this te).2
  = (if decide (_repeats te = 0%Z) then 0%Z else u16 (_repeats te - 1))
  ∧ (clockAlarm this te).1.2
    = (if decide (_repeats te = 0%Z) then true
       else if decide (u16 (_repeats te - 1) = 0%Z) then false else true).
Proof.
  unfold clockAlarm. cbv zeta.
  destruct (Z.eqb_spec 0 (_repeats te)) as [Hz|Hnz]; cbn [negb].
  - rewrite !decide_True by done. simpl. by split.
  - rewrite !decide_False by done. cbn [set_repeats _repeats].
    destruct (Z.eqb_spec 0 (u16 (_repeats te - 1))) as [Hd|Hd]; simpl.
    + by rewrite decide_True.
    + by rewrite decide_False.
Qed.

(** X8.  An object with [_repeats = r], [0 < r < 65536]: the first [r - 1]
    calls of [clockAlarm] return true, the call number [r] returns false and
    leaves [_repeats = 0], and from then on the object is one that never
    stops, so every later call returns true again. *)
Theorem clockAlarm_times_spec :
  ∀ (this : ptr) (te : timeElement) (k : nat),
    (0 < _repeats te < 65536)%Z →
    ((Z.of_nat k < _repeats te)%Z →
       _repeats (clockAlarm_times this k te) = (_repeats te - Z.of_nat k)%Z)
    ∧ ((_repeats te ≤ Z.of_nat k)%Z →
         _repeats (clockAlarm_times this k te) = 0%Z)
    ∧ ((clockAlarm this (clockAlarm_times this k te)).1.2 = false
       ↔ (Z.of_nat k + 1)%Z = _repeats te).
Proof.
  intros this te k Hr.
  assert (Hrep : ∀ j,
    _repeats (clockAlarm_times this j te)
    = (if decide (Z.of_nat j < _repeats te)%Z then _repeats te - Z.of_nat j else 0)%Z).
  { induction j as [|j IH].
    - rewrite decide_True by lia. simpl. lia.
    - change (clockAlarm_times this (S j) te)
        with (clockAlarm this (clockAlarm_times this j te)).2.
      destruct (clockAlarm_repeats this (clockAlarm_times this j te)) as [-> _].
      rewrite IH. unfold u16.
      repeat case_decide; try lia; rewrite Z.mod_small by lia; lia. }
  split_and!.
  - intros Hk. by rewrite Hrep, decide_True.
  - intros Hk. by rewrite Hrep, decide_False by lia.
  - destruct (clockAlarm_repeats this (clockAlarm_times this k te)) as [_ ->].
    rewrite Hrep. unfold u16.
    repeat case_decide; try (split; [done | lia]).
    + rewrite Z.mod_small in * by lia. split; [lia | done].
    + rewrite Z.mod_small in * by lia. split; [done | lia].
Qed.

Lemma clockAlarm_times_spec_witness :
  let te := mk_timeElement 0 5 3 7 11 in
  ((Z.of_nat 2 < _repeats te)%Z →
     _repeats (clockAlarm_times 1 2 te) = (_repeats te - Z.of_nat 2)%Z)
  ∧ ((_repeats te ≤ Z.of_nat 2)%Z → _repeats (clockAlarm_times 1 2 te) = 0%Z)
  ∧ ((clockAlarm 1 (clockAlarm_times 1 2 te)).1.2 = false
     ↔ (Z.of_nat 2 + 1)%Z = _repeats te).
Proof.
  apply (clockAlarm_times_spec 1 (mk_timeElement 0 5 3 7 11) 2). simpl. lia.
Defined.

(** ** The clock *)

Lemma fire_head_clock w :
  _presentTime (timer (fire_head w)) = _presentTime (timer w).
Proof.
  unfold fire_head. destruct (clockAlarm _ _) as [[c b] te].
  by destruct (sort_loop_frame
                 (getCount (log_call c (set_elem (at_ (_timeOutList (timer w)) 0) te
                    (set_elem (at_ (_timeOutList (timer w)) 0)
                       (updateTimeOut (heap w (at_ (_timeOutList (timer w)) 0))).2 w))))
                 (log_call c (set_elem (at_ (_timeOutList (timer w)) 0) te
                    (set_elem (at_ (_timeOutList (timer w)) 0)
                       (updateTimeOut (heap w (at_ (_timeOutList (timer w)) 0))).2 w)))
                 1) as (_ & -> & _).
Qed.

Lemma NextTick_while_clock : ∀ fuel w w',
  NextTick_while fuel w = Some w' →
  _presentTime (timer w') = _presentTime (timer w).
Proof.
  induction fuel as [|fuel IH]; intros w w' Hrun; [done|].
  cbn [NextTick_while] in Hrun. destruct (_ =? _)%Z.
  - rewrite (IH _ _ Hrun). apply fire_head_clock.
  - by injection Hrun as <-.
Qed.

Lemma NextTick_clock fuel w w' :
  NextTick fuel w = Some w' → _presentTime (timer w') = next_time w.
Proof.
  unfold NextTick. cbv zeta. destruct (0 =? _).
  - by intros [= <-].
  - intros Hrun. by rewrite (NextTick_while_clock _ _ _ Hrun).
Qed.

Lemma InsertTimer_clock p w :
  _presentTime (timer (InsertTimer p w)) = _presentTime (timer w).
Proof. unfold InsertTimer. by destruct (0 <? getCount w). Qed.

Lemma startTimer_clock p w :
  _presentTime (timer (startTimer p w)) = _presentTime (timer w).
Proof. unfold startTimer. by rewrite InsertTimer_clock. Qed.

Lemma count_ticks_cons o ops :
  count_ticks (o :: ops)
  = if decide (o = op_NextTick) then S (count_ticks ops) else count_ticks ops.
Proof. unfold count_ticks. rewrite filter_cons. by case_decide. Qed.

(** X9.  Only [NextTick] moves the clock, one step each time and from 0x7FFF
    back to 0: after a run of operations with [n ≥ 1] ticks among them
    [getPresentTime] is [(start + n) mod 0x8000], whatever was registered or
    cancelled in between and whatever the clock held at the start; without a
    tick it is unchanged. *)
Theorem run_clock :
  ∀ (fuel : nat) (ops : list op) (w w' : World),
    run fuel ops w = Some w' →
    getPresentTime w'
    = if decide (count_ticks ops = 0) then getPresentTime w
      else ((getPresentTime w + Z.of_nat (count_ticks ops)) mod 0x8000)%Z.
Proof.
  intros fuel ops. induction ops as [|o ops IH]; intros w w' Hrun.
  - by injection Hrun as <-.
  - simpl in Hrun. destruct (run_op fuel o w) as [w1|] eqn:Ho; [|done].
    rewrite (IH _ _ Hrun), count_ticks_cons. unfold getPresentTime.
    destruct o as [p | p | ]; simpl in Ho.
    + injection Ho as <-.
      rewrite (decide_False (P := op_startTimer p = op_NextTick)) by done.
      by rewrite startTimer_clock.
    + injection Ho as <-.
      by rewrite (decide_False (P := op_cancelTimer p = op_NextTick)) by done.
    + rewrite (decide_True (P := op_NextTick = op_NextTick)) by done.
      rewrite (NextTick_clock _ _ _ Ho).
      unfold next_time. rewrite land_u16_7fff.
      rewrite (decide_False (P := S _ = 0)) by done.
      case_decide as Hz.
      * rewrite Hz. done.
      * rewrite Zplus_mod_idemp_l. f_equal. lia.
Qed.

Lemma run_clock_witness :
  match run 4 (op_startTimer 1 :: replicate 3 op_NextTick)
          (set_clock 0x7FFE (World_new example_heap)) with
  | Some w' => getPresentTime w' = 1%Z
  | None => False
  end.
Proof.
  destruct (run 4 (op_startTimer 1 :: replicate 3 op_NextTick)
              (set_clock 0x7FFE (World_new example_heap))) as [w'|] eqn:E.
  - rewrite (run_clock _ _ _ _ E). reflexivity.
  - by vm_compute in E.
Defined.

(** ** What a tick calls and what it writes *)

Lemma clockAlarm_keeps_callback this te :
  _callBack (clockAlarm this te).2 = _callBack te
  ∧ _arg (clockAlarm this te).2 = _arg te.
Proof.
  unfold clockAlarm. cbv zeta.
  destruct (negb _); [|done]. by destruct (_ =? _)%Z.
Qed.

(** A round writes the wake time and the repeats of the head, nothing else. *)
Lemma fire_head_keeps w x post q :
  wf w → pending w = x :: post →
  _timePeriod (heap (fire_head w) q) = _timePeriod (heap w q)
  ∧ _callBack (heap (fire_head w) q) = _callBack (heap w q)
  ∧ _arg (heap (fire_head w) q) = _arg (heap w q).
Proof.
  intros Hwf Hp.
  destruct (fire_head_spec w x post Hwf Hp) as (_ & Hx & Hother & _).
  destruct (decide (q = x)) as [->|Hne]; [|by rewrite Hother].
  rewrite Hx.
  destruct (clockAlarm_keeps x (updateTimeOut (heap w x)).2) as [_ ->].
  by destruct (clockAlarm_keeps_callback x (updateTimeOut (heap w x)).2) as [-> ->].
Qed.

Lemma NextTick_while_calls : ∀ fuel w w',
  wf w → 0 < getCount w → NextTick_while fuel w = Some w' →
  ∃ cs, calls w' = calls w ++ cs
        ∧ Forall (call_in_order w (_presentTime (timer w))) cs
        ∧ (∀ q, _timePeriod (heap w' q) = _timePeriod (heap w q)
                ∧ _callBack (heap w' q) = _callBack (heap w q)
                ∧ _arg (heap w' q) = _arg (heap w q))
        ∧ (∀ q, q ∉ pending w → heap w' q = heap w q).
Proof.
  induction fuel as [|fuel IH]; intros w w' Hwf Hc Hrun; [done|].
  cbn [NextTick_while] in Hrun.
  destruct (pending_nonempty w Hwf Hc) as (x & post & Hp).
  rewrite (GET_TIMEOUT_head w x post Hwf Hp) in Hrun.
  destruct (Z.eqb_spec (_presentTime (timer w)) (_timeOut (heap w x))) as [He|Hne].
  - destruct (fire_head_spec w x post Hwf Hp) as (Ht & _ & Hother & Hcs & Hwf1 & _).
    pose proof (fire_head_perm w x post Hwf Hp) as Hperm.
    destruct (IH (fire_head w) w' Hwf1) as (cs & Hcs' & Hall & Hkeep & Hout);
      [by rewrite (fire_head_count w x post) | done |].
    exists (callFunction x (updateTimeOut (heap w x)).2 :: cs). split_and!.
    + by rewrite Hcs', Hcs, <- app_assoc.
    + constructor.
      * split_and!; simpl; [rewrite Hp; left | done | done | ].
        rewrite land_u16_7fff, <- He. done.
      * eapply Forall_impl; [exact Hall|].
        intros c (Hc1 & Hc2 & Hc3 & Hc4).
        destruct (fire_head_keeps w x post (call_this c) Hwf Hp) as (Hk1 & Hk2 & Hk3).
        split_and!; [by rewrite <- Hperm | congruence | congruence | ].
        by rewrite Hc4, Hk1, Ht.
    + intros q. destruct (Hkeep q) as (-> & -> & ->).
      by apply (fire_head_keeps w x post).
    + intros q Hq. rewrite Hout by (by rewrite Hperm).
      apply Hother. intros ->. apply Hq. rewrite Hp. left.
  - injection Hrun as <-. exists []. rewrite app_nil_r. by split_and!.
Qed.

(** X10.  Whatever [NextTick] calls was pending and is called with the
    callback and the argument stored in it, after its wake time has been
    advanced to [(period + new clock) mod 0x8000].  With an empty list nothing
    is called.  The tick changes neither the period, the callback nor the
    argument of any object, and it leaves every object that is not pending
    exactly as it was. *)
Theorem NextTick_calls_pending_due :
  ∀ (fuel : nat) (w w' : World),
    wf w →
    NextTick fuel w = Some w' →
    ∃ cs,
      calls w' = calls w ++ cs
      ∧ Forall (call_in_order w (next_time w)) cs
      ∧ (getCount w = 0 → cs = [])
      ∧ (∀ q, _timePeriod (heap w' q) = _timePeriod (heap w q)
              ∧ _callBack (heap w' q) = _callBack (heap w q)
              ∧ _arg (heap w' q) = _arg (heap w q))
      ∧ (∀ q, q ∉ pending w → heap w' q = heap w q).
Proof.
  intros fuel w w' Hwf. unfold NextTick. cbv zeta. fold (next_time w).
  destruct (Nat.eqb_spec 0 (getCount (set_clock (next_time w) w))) as [Hz|Hnz].
  - intros [= <-]. exists []. rewrite app_nil_r. by split_and!.
  - intros Hrun.
    assert (Hpos : 0 < getCount (set_clock (next_time w) w)) by lia.
    destruct (NextTick_while_calls fuel (set_clock (next_time w) w) w' Hwf Hpos Hrun)
      as (cs & Hcs & Hall & Hkeep & Hout).
    exists cs. split_and!; [done | done | | done | done].
    intros Hz. by destruct Hnz.
Qed.

Lemma NextTick_calls_pending_due_witness :
  match NextTick 4 exhausted_example with
  | Some w' =>
      ∃ cs,
        calls w' = calls exhausted_example ++ cs
        ∧ Forall (call_in_order exhausted_example (next_time exhausted_example)) cs
        ∧ (getCount exhausted_example = 0 → cs = [])
        ∧ (∀ q, _timePeriod (heap w' q) = _timePeriod (heap exhausted_example q)
                ∧ _callBack (heap w' q) = _callBack (heap exhausted_example q)
                ∧ _arg (heap w' q) = _arg (heap exhausted_example q))
        ∧ (∀ q, q ∉ pending exhausted_example → heap w' q = heap exhausted_example q)
  | None => False
  end.
Proof.
  destruct (NextTick 4 exhausted_example) as [w'|] eqn:E.
  - apply (NextTick_calls_pending_due 4 exhausted_example w'); [|exact E].
    split; [reflexivity | simpl; unfold MAX_LIST_PTRS; lia].
  - by vm_compute in E.
Defined.

Lemma NextTick_while_calls_bound : ∀ fuel w w',
  wf w → 0 < getCount w → in_clock_range (_presentTime (timer w)) →
  periods_ok w → NextTick_while fuel w = Some w' →
  ∃ cs, calls w' = calls w ++ cs
        ∧ length cs ≤ length (filter (due w) (pending w)).
Proof.
  induction fuel as [|fuel IH]; intros w w' Hwf Hc Hclock Hok Hrun; [done|].
  cbn [NextTick_while] in Hrun.
  destruct (pending_nonempty w Hwf Hc) as (x & post & Hp).
  rewrite (GET_TIMEOUT_head w x post Hwf Hp) in Hrun.
  destruct (Z.eqb_spec (_presentTime (timer w)) (_timeOut (heap w x))) as [He|Hne].
  - destruct (fire_head_spec w x post Hwf Hp) as (Ht & _ & _ & Hcs & Hwf1 & _).
    assert (Hx : period_ok (heap w x)) by (apply Hok; rewrite Hp; left).
    pose proof (fire_head_due w x post Hwf Hp Hclock (eq_sym He) Hx) as Hless.
    destruct (IH (fire_head w) w' Hwf1) as (cs & Hcs' & Hlen);
      [ by rewrite (fire_head_count w x post) | by rewrite Ht
      | by apply (fire_head_periods_ok w x post) | done | ].
    exists (callFunction x (updateTimeOut (heap w x)).2 :: cs). split.
    + by rewrite Hcs', Hcs, <- app_assoc.
    + simpl. lia.
  - injection Hrun as <-. exists []. rewrite app_nil_r. split; [done | simpl; lia].
Qed.

(** X11.  When no pending period is a multiple of [0x8000], a tick makes at
    most as many calls as there are pending slots whose wake time is the new
    clock value, hence at most [getCount] calls. *)
Theorem NextTick_calls_at_most_count :
  ∀ (fuel : nat) (w w' : World),
    wf w → periods_ok w →
    NextTick fuel w = Some w' →
    ∃ cs,
      calls w' = calls w ++ cs
      ∧ length cs
        ≤ length (filter (λ q, _timeOut (heap w q) = next_time w) (pending w))
      ∧ length cs ≤ getCount w.
Proof.
  intros fuel w w' Hwf Hok. unfold NextTick. cbv zeta. fold (next_time w).
  destruct (Nat.eqb_spec 0 (getCount (set_clock (next_time w) w))) as [Hz|Hnz].
  - intros [= <-]. exists []. rewrite app_nil_r. split_and!; [done | | ]; simpl; lia.
  - intros Hrun.
    assert (Hpos : 0 < getCount (set_clock (next_time w) w)) by lia.
    destruct (NextTick_while_calls_bound fuel (set_clock (next_time w) w) w'
                Hwf Hpos (land_u16_7fff_range _) Hok Hrun) as (cs & Hcs & Hlen).
    exists cs. split_and!; [done | exact Hlen | ].
    etrans; [exact Hlen|]. etrans; [apply length_filter|].
    by rewrite (length_pending (set_clock (next_time w) w) Hwf).
Qed.

Lemma exhausted_example_wf : wf exhausted_example.
Proof. split; [reflexivity | simpl; unfold MAX_LIST_PTRS; lia]. Qed.

Lemma exhausted_example_periods_ok : periods_ok exhausted_example.
Proof.
  intros p Hp. unfold period_ok.
  change (pending exhausted_example) with [1; 2; 3] in Hp.
  repeat (apply elem_of_cons in Hp as [->|Hp]; [by vm_compute|]).
  by apply elem_of_nil in Hp.
Qed.

Lemma NextTick_calls_at_most_count_witness :
  match NextTick 4 exhausted_example with
  | Some w' =>
      ∃ cs,
        calls w' = calls exhausted_example ++ cs
        ∧ length cs
          ≤ length (filter (λ q, _timeOut (heap exhausted_example q)
                                 = next_time exhausted_example)
                      (pending exhausted_example))
        ∧ length cs ≤ getCount exhausted_example
  | None => False
  end.
Proof.
  destruct (NextTick 4 exhausted_example) as [w'|] eqn:E.
  - exact (NextTick_calls_at_most_count 4 exhausted_example w'
             exhausted_example_wf exhausted_example_periods_ok E).
  - by vm_compute in E.
Defined.

(** ** Registering and cancelling *)

Lemma startTimer_wf_spec p w :
  wf w → getCount w < MAX_LIST_PTRS →
  wf (startTimer p w)
  ∧ ∃ small big, pending w = small ++ big
                 ∧ pending (startTimer p w) = small ++ p :: big.
Proof.
  intros Hwf Hroom. unfold startTimer. cbv zeta. set (w1 := set_elem _ _ w).
  destruct (InsertTimer_spec w1 p Hwf Hroom)
    as (Hwf' & _ & _ & _ & small & big & Hp1 & Hp' & _).
  split; [done|]. by exists small, big.
Qed.

Lemma startTimer_wf p w : wf w → wf (startTimer p w).
Proof.
  intros Hwf. destruct (decide (getCount w < MAX_LIST_PTRS)) as [Hroom|Hfull].
  - by apply startTimer_wf_spec.
  - rewrite startTimer_full; [done|].
    apply Nat.eqb_eq. destruct Hwf as [_ Hle]. unfold getCount, GetCount in Hfull. lia.
Qed.

Lemma startTimer_pending_sub p w q :
  wf w → q ∈ pending (startTimer p w) → q = p ∨ q ∈ pending w.
Proof.
  intros Hwf. destruct (decide (getCount w < MAX_LIST_PTRS)) as [Hroom|Hfull].
  - destruct (startTimer_wf_spec p w Hwf Hroom) as (_ & small & big & -> & ->).
    rewrite !elem_of_app, elem_of_cons. tauto.
  - rewrite startTimer_full; [by right|].
    apply Nat.eqb_eq. destruct Hwf as [_ Hle]. unfold getCount, GetCount in Hfull. lia.
Qed.

(** X12.  With room in the list [startTimer] does register: the count grows
    by one, the record is pending, and the records that were pending keep
    their order around it.  The record wakes at [(clock + period) mod 0x8000];
    the clock, the calls on record and every other object are untouched, and
    [isFull] turns true exactly when this was the last free slot. *)
Theorem startTimer_registers :
  ∀ (w : World) (pArg : ptr),
    wf w → getCount w < MAX_LIST_PTRS →
    getCount (startTimer pArg w) = getCount w + 1
    ∧ pArg ∈ pending (startTimer pArg w)
    ∧ (∃ small big, pending w = small ++ big
                    ∧ pending (startTimer pArg w) = small ++ pArg :: big)
    ∧ (Timer_isFull (startTimer pArg w) = true ↔ getCount w + 1 = MAX_LIST_PTRS)
    ∧ _timeOut (heap (startTimer pArg w) pArg)
      = ((_presentTime (timer w) + _timePeriod (heap w pArg)) mod 0x8000)%Z
    ∧ getPresentTime (startTimer pArg w) = getPresentTime w
    ∧ calls (startTimer pArg w) = calls w
    ∧ (∀ q, q ≠ pArg → heap (startTimer pArg w) q = heap w q)
    ∧ wf (startTimer pArg w).
Proof.
  intros w pArg Hwf Hroom.
  destruct (startTimer_wf_spec pArg w Hwf Hroom) as (Hwf' & small & big & Hp & Hp').
  assert (Hcnt : getCount (startTimer pArg w) = getCount w + 1).
  { rewrite <- !length_pending by done. rewrite Hp', Hp, !length_app. simpl. lia. }
  split_and!.
  - done.
  - rewrite Hp'. apply elem_of_app. right. left.
  - by exists small, big.
  - unfold Timer_isFull, isFull. rewrite Nat.eqb_eq.
    unfold getCount, GetCount in Hcnt. by rewrite Hcnt.
  - apply startTimer_timeOut.
  - apply startTimer_clock.
  - apply startTimer_calls.
  - intros q Hq. by apply startTimer_heap_other.
  - done.
Qed.

Lemma startTimer_registers_witness :
  let w := startTimer 1 (World_new example_heap) in
  getCount (startTimer 2 w) = getCount w + 1
  ∧ 2 ∈ pending (startTimer 2 w)
  ∧ (∃ small big, pending w = small ++ big
                  ∧ pending (startTimer 2 w) = small ++ 2 :: big)
  ∧ (Timer_isFull (startTimer 2 w) = true ↔ getCount w + 1 = MAX_LIST_PTRS)
  ∧ _timeOut (heap (startTimer 2 w) 2)
    = ((_presentTime (timer w) + _timePeriod (heap w 2)) mod 0x8000)%Z
  ∧ getPresentTime (startTimer 2 w) = getPresentTime w
  ∧ calls (startTimer 2 w) = calls w
  ∧ (∀ q, q ≠ 2 → heap (startTimer 2 w) q = heap w q)
  ∧ wf (startTimer 2 w).
Proof.
  apply (startTimer_registers (startTimer 1 (World_new example_heap)) 2).
  - split; [reflexivity | simpl; unfold MAX_LIST_PTRS; lia].
  - vm_compute. lia.
Defined.

(** X13.  Registering a record that is not pending and cancelling it again
    gives back the pending list, the count, the clock and the calls on record
    as they were. *)
Theorem cancelTimer_undoes_startTimer :
  ∀ (w : World) (pArg : ptr),
    wf w → pArg ∉ pending w → getCount w < MAX_LIST_PTRS →
    pending (cancelTimer pArg (startTimer pArg w)) = pending w
    ∧ getCount (cancelTimer pArg (startTimer pArg w)) = getCount w
    ∧ getPresentTime (cancelTimer pArg (startTimer pArg w)) = getPresentTime w
    ∧ calls (cancelTimer pArg (startTimer pArg w)) = calls w
    ∧ Timer_isFull (cancelTimer pArg (startTimer pArg w)) = false.
Proof.
  intros w pArg Hwf Hnin Hroom.
  destruct (startTimer_wf_spec pArg w Hwf Hroom) as (Hwf' & small & big & Hp & Hp').
  assert (Hs : pArg ∉ small).
  { intros Hin. apply Hnin. rewrite Hp. apply elem_of_app. by left. }
  destruct (cancelTimer_present (startTimer pArg w) pArg small big Hwf' Hp' Hs)
    as [Hp'' Hwf''].
  assert (Hcnt : getCount (cancelTimer pArg (startTimer pArg w)) = getCount w).
  { rewrite <- !length_pending by done. by rewrite Hp'', Hp. }
  split_and!.
  - by rewrite Hp'', Hp.
  - done.
  - unfold getPresentTime. apply startTimer_clock.
  - apply startTimer_calls.
  - unfold Timer_isFull, isFull. apply Nat.eqb_neq.
    unfold getCount, GetCount in Hcnt, Hroom. rewrite Hcnt. lia.
Qed.

Lemma cancelTimer_undoes_startTimer_witness :
  let w := startTimer 1 (World_new example_heap) in
  pending (cancelTimer 2 (startTimer 2 w)) = pending w
  ∧ getCount (cancelTimer 2 (startTimer 2 w)) = getCount w
  ∧ getPresentTime (cancelTimer 2 (startTimer 2 w)) = getPresentTime w
  ∧ calls (cancelTimer 2 (startTimer 2 w)) = calls w
  ∧ Timer_isFull (cancelTimer 2 (startTimer 2 w)) = false.
Proof.
  apply (cancelTimer_undoes_startTimer (startTimer 1 (World_new example_heap)) 2).
  - split; [reflexivity | simpl; unfold MAX_LIST_PTRS; lia].
  - apply (bool_decide_unpack _). by vm_compute.
  - vm_compute. lia.
Defined.

(** ** Records the scheduler does not hold *)

Lemma calls_on_app p cs cs' : calls_on p (cs ++ cs') = calls_on p cs ++ calls_on p cs'.
Proof. unfold calls_on. apply filter_app. Qed.

Lemma calls_on_in_order p w now cs :
  p ∉ pending w → Forall (call_in_order w now) cs → calls_on p cs = [].
Proof.
  intros Hnin Hall. unfold calls_on. apply filter_none.
  eapply Forall_impl; [exact Hall|].
  intros c (Hin & _) Hc. apply Hnin. by rewrite <- Hc.
Qed.

(** One operation other than the registration of [p] leaves a record [p]
    that is not pending as it is. *)
Lemma run_op_outside fuel o w w' p :
  wf w → p ∉ pending w → o ≠ op_startTimer p → run_op fuel o w = Some w' →
  wf w' ∧ (p ∉ pending w') ∧ heap w' p = heap w p
  ∧ ∃ cs, calls w' = calls w ++ cs ∧ calls_on p cs = [].
Proof.
  intros Hwf Hnin Ho Hrun. destruct o as [q|q|]; simpl in Hrun.
  - injection Hrun as <-.
    assert (Hq : p ≠ q) by congruence.
    split_and!.
    + by apply startTimer_wf.
    + intros Hin. apply startTimer_pending_sub in Hin as [->|Hin]; done.
    + by apply startTimer_heap_other.
    + exists []. by rewrite app_nil_r, startTimer_calls.
  - injection Hrun as <-. split_and!.
    + by apply cancelTimer_wf.
    + intros Hin.
      assert (Hf : p ∈ filter (λ x, x = p) (pending (cancelTimer q w)))
        by (by apply list_elem_of_filter).
      destruct (decide (q = p)) as [->|Hqp].
      * destruct (decide (p ∈ pending w)) as [|Hn]; [done|].
        by rewrite cancelTimer_absent in Hin.
      * rewrite cancelTimer_filter in Hf by done.
        by apply list_elem_of_filter in Hf as [_ Hf].
    + done.
    + exists []. by rewrite app_nil_r.
  - destruct (NextTick_frame fuel w w' Hwf Hrun) as (Hwf' & Hperm & _ & _).
    split; [done|]. split; [by rewrite Hperm|].
    revert Hrun. unfold NextTick. cbv zeta. fold (next_time w).
    destruct (Nat.eqb_spec 0 (getCount (set_clock (next_time w) w))) as [Hz|Hnz].
    + intros [= <-]. split; [done|]. exists []. by rewrite app_nil_r.
    + intros Hrun.
      assert (Hpos : 0 < getCount (set_clock (next_time w) w)) by lia.
      destruct (NextTick_while_calls fuel (set_clock (next_time w) w) w' Hwf Hpos Hrun)
        as (cs & Hcs & Hall & _ & Hout).
      split; [by apply Hout|].
      exists cs. split; [done|].
      by apply (calls_on_in_order p _ _ cs Hnin Hall).
Qed.

(** X14.  A record that is not pending is left alone, whatever is done with
    the scheduler, until it is registered: no callback is made on it, no field
    of it is written and it does not become pending. *)
Theorem unregistered_record_left_alone :
  ∀ (fuel : nat) (ops : list op) (w w' : World) (p : ptr),
    wf w → p ∉ pending w →
    Forall (λ o, o ≠ op_startTimer p) ops →
    run fuel ops w = Some w' →
    (p ∉ pending w')
    ∧ heap w' p = heap w p
    ∧ ∃ cs, calls w' = calls w ++ cs ∧ calls_on p cs = [].
Proof.
  intros fuel ops. induction ops as [|o ops IH]; intros w w' p Hwf Hnin Hall Hrun.
  - injection Hrun as <-. split_and!; [done | done | ].
    exists []. by rewrite app_nil_r.
  - apply Forall_cons in Hall as [Ho Hall]. simpl in Hrun.
    destruct (run_op fuel o w) as [w1|] eqn:Hop; [|done].
    destruct (run_op_outside fuel o w w1 p Hwf Hnin Ho Hop)
      as (Hwf1 & Hnin1 & Hh1 & cs1 & Hcs1 & Hon1).
    destruct (IH w1 w' p Hwf1 Hnin1 Hall Hrun) as (Hnin' & Hh' & cs & Hcs & Hon).
    split_and!; [done | by rewrite Hh', Hh1 | ].
    exists (cs1 ++ cs). split.
    + by rewrite Hcs, Hcs1, <- app_assoc.
    + by rewrite calls_on_app, Hon1, Hon.
Qed.

Lemma unregistered_record_left_alone_witness :
  let ops := [op_startTimer 1; op_NextTick; op_cancelTimer 2; op_NextTick;
              op_NextTick; op_NextTick; op_NextTick] in
  match run 6 ops (World_new example_heap) with
  | Some w' =>
      (2 ∉ pending w')
      ∧ heap w' 2 = heap (World_new example_heap) 2
      ∧ ∃ cs, calls w' = calls (World_new example_heap) ++ cs ∧ calls_on 2 cs = []
  | None => False
  end.
Proof.
  cbv zeta.
  destruct (run 6 _ (World_new example_heap)) as [w'|] eqn:E.
  - refine (unregistered_record_left_alone 6 _ (World_new example_heap) w' 2
              (wf_World_new _) _ _ E).
    + apply (bool_decide_unpack _). by vm_compute.
    + repeat constructor; discriminate.
  - by vm_compute in E.
Defined.

(** X15.  From a state the scheduler can reach, a cancelled record is out of
    the list, and from then on no callback is made on it and no field of it is
    written, until it is registered again. *)
Theorem cancelled_record_left_alone :
  ∀ (fuel : nat) (ops : list op) (w w' : World) (p : ptr),
    reachable w →
    Forall (λ o, o ≠ op_startTimer p) ops →
    run fuel ops (cancelTimer p w) = Some w' →
    (p ∉ pending (cancelTimer p w))
    ∧ (p ∉ pending w')
    ∧ heap w' p = heap w p
    ∧ ∃ cs, calls w' = calls w ++ cs ∧ calls_on p cs = [].
Proof.
  intros fuel ops w w' p Hreach Hall Hrun.
  destruct (reachable_Inv w Hreach) as [HO _].
  pose proof (ord_wf w HO) as Hwf. pose proof (ord_nodup w HO) as Hnd.
  assert (Hgone : p ∉ pending (cancelTimer p w)).
  { destruct (decide (p ∈ pending w)) as [Hin|Hnin]; [|by rewrite cancelTimer_absent].
    apply list_elem_of_split_l in Hin as (l1 & l2 & Hpe & Hn).
    destruct (cancelTimer_present w p l1 l2 Hwf Hpe Hn) as [-> _].
    rewrite Hpe in Hnd. apply NoDup_app in Hnd as (_ & _ & Hnd).
    apply NoDup_cons in Hnd as [Hnd _].
    intros Hin. apply elem_of_app in Hin as [Hin|Hin]; done. }
  split; [done|].
  assert (Hgen : ∀ ops w1 w2, wf w1 → p ∉ pending w1 →
            Forall (λ o, o ≠ op_startTimer p) ops → run fuel ops w1 = Some w2 →
            (p ∉ pending w2) ∧ heap w2 p = heap w1 p
            ∧ ∃ cs, calls w2 = calls w1 ++ cs ∧ calls_on p cs = []).
  { clear. induction ops as [|o ops IH]; intros w1 w2 Hwf Hnin Hall Hrun.
    - injection Hrun as <-. split_and!; [done | done | ].
      exists []. by rewrite app_nil_r.
    - apply Forall_cons in Hall as [Ho Hall]. simpl in Hrun.
      destruct (run_op fuel o w1) as [w3|] eqn:Hop; [|done].
      destruct (run_op_outside fuel o w1 w3 p Hwf Hnin Ho Hop)
        as (Hwf3 & Hnin3 & Hh3 & cs3 & Hcs3 & Hon3).
      destruct (IH w3 w2 Hwf3 Hnin3 Hall Hrun) as (Hnin' & Hh' & cs & Hcs & Hon).
      split_and!; [done | by rewrite Hh', Hh3 | ].
      exists (cs3 ++ cs). split.
      + by rewrite Hcs, Hcs3, <- app_assoc.
      + by rewrite calls_on_app, Hon3, Hon. }
  exact (Hgen ops (cancelTimer p w) w' (cancelTimer_wf w p Hwf) Hgone Hall Hrun).
Qed.

Lemma cancelled_record_left_alone_witness :
  let w := startTimer 2 (startTimer 1 (World_new example_heap)) in
  let ops := [op_NextTick; op_NextTick; op_NextTick; op_NextTick; op_NextTick;
              op_NextTick; op_NextTick; op_NextTick] in
  match run 6 ops (cancelTimer 2 w) with
  | Some w' =>
      (2 ∉ pending (cancelTimer 2 w))
      ∧ (2 ∉ pending w')
      ∧ heap w' 2 = heap w 2
      ∧ ∃ cs, calls w' = calls w ++ cs ∧ calls_on 2 cs = []
  | None => False
  end.
Proof.
  cbv zeta.
  destruct (run 6 _ (cancelTimer 2 _)) as [w'|] eqn:E.
  - refine (cancelled_record_left_alone 6 _
              (startTimer 2 (startTimer 1 (World_new example_heap))) w' 2 _ _ E).
    + apply reach_startTimer; [apply reach_startTimer; [apply reach_new| |]| |].
      * apply (bool_decide_unpack _). by vm_compute.
      * by vm_compute.
      * apply (bool_decide_unpack _). by vm_compute.
      * by vm_compute.
    + repeat constructor; discriminate.
  - by vm_compute in E.
Defined.

(** ** The head of the list decides a tick *)



(** ** One tick, seen from a pending record *)

Lemma div_mod_succ (k d : Z) :
  (0 ≤ k)%Z → (0 < d)%Z →
  (k mod d = d - 1 → (k + 1) / d = k / d + 1 ∧ (k + 1) mod d = 0)%Z
  ∧ (k mod d ≠ d - 1 → (k + 1) / d = k / d ∧ (k + 1) mod d = k mod d + 1)%Z.
Proof.
  intros Hk Hd.
  pose proof (Z.div_mod k d ltac:(lia)) as Hdm.
  pose proof (Z.mod_pos_bound k d Hd) as Hb.
  split; intros Hr.
  - assert (He : (k + 1 = d * (k / d + 1) + 0)%Z) by nia.
    split.
    + symmetry. apply (Z.div_unique_pos _ _ _ 0); [lia | exact He].
    + symmetry. apply (Z.mod_unique_pos _ _ (k / d + 1)); [lia | exact He].
  - assert (He : (k + 1 = d * (k / d) + (k mod d + 1))%Z) by lia.
    split.
    + symmetry. apply (Z.div_unique_pos _ _ _ (k mod d + 1)); [lia | exact He].
    + symmetry. apply (Z.mod_unique_pos _ _ (k / d)); [lia | exact He].
Qed.

(** With [p] due, the loop of [NextTick] calls it exactly once and re-arms it
    one period after the present time. *)
Lemma NextTick_while_one p : ∀ fuel w w',
  Ordered w → p ∈ pending w → due w p →
  NextTick_while fuel w = Some w' →
  ∃ cs, calls w' = calls w ++ cs
        ∧ length (calls_on p cs) = 1
        ∧ _timeOut (heap w' p)
          = ((_timePeriod (heap w p) + _presentTime (timer w)) mod 0x8000)%Z.
Proof.
  induction fuel as [|fuel IH]; intros w w' HO Hin Hdue Hrun; [done|].
  pose proof (ord_wf w HO) as Hwf.
  assert (Hc : 0 < getCount w).
  { rewrite <- (length_pending w Hwf). destruct (pending w); [by apply elem_of_nil in Hin|].
    simpl. lia. }
  cbn [NextTick_while] in Hrun.
  destruct (pending_nonempty w Hwf Hc) as (x & post & Hp).
  rewrite (GET_TIMEOUT_head w x post Hwf Hp) in Hrun.
  assert (Hx : x ∈ pending w) by (rewrite Hp; left).
  assert (Hdx : due w x).
  { destruct (decide (x = p)) as [->|Hxp]; [done|].
    pose proof (ord_sorted w HO) as Hs. rewrite Hp in Hs, Hin.
    apply StronglySorted_cons in Hs as [Hall _].
    apply elem_of_cons in Hin as [->|Hin]; [done|].
    rewrite Forall_forall in Hall. pose proof (Hall p Hin) as Hle.
    unfold before in Hle.
    assert (Hpin : p ∈ pending w) by (rewrite Hp; by right).
    apply (until_zero_due w p (ord_clock w HO) (ord_range w HO p Hpin)) in Hdue.
    apply (until_zero_due w x (ord_clock w HO) (ord_range w HO x Hx)).
    pose proof (until_range w x). lia. }
  destruct (Z.eqb_spec (_presentTime (timer w)) (_timeOut (heap w x))) as [He|Hne];
    [|by rewrite Hdx in Hne].
  destruct (fire_head_spec w x post Hwf Hp) as (Ht & Hhx & Hother & Hcs & Hwf1 & _).
  destruct (decide (x = p)) as [->|Hxp].
  - pose proof (fire_head_not_due w p post HO Hp Hdue) as Hnd.
    destruct (NextTick_while_skips p fuel (fire_head w) w' Hwf1) as (cs & Hcs' & Hall & Hh);
      [ by rewrite (fire_head_count w p post) | done | done | ].
    exists (callFunction p (updateTimeOut (heap w p)).2 :: cs). split_and!.
    + by rewrite Hcs', Hcs, <- app_assoc.
    + unfold calls_on. rewrite filter_cons_True by done.
      rewrite (filter_none (λ c, call_this c = p) cs); [done|].
      eapply Forall_impl; [exact Hall|]. by intros c Hc'.
    + rewrite Hh.
      destruct (fire_head_fields w p post Hwf Hp) as [-> _]. by rewrite Hdue.
  - assert (Hpx : p ≠ x) by congruence.
    destruct (IH (fire_head w) w') as (cs & Hcs' & Hlen & Hto).
    + by apply (fire_head_Ordered w x post).
    + by rewrite (fire_head_perm w x post).
    + by apply (fire_head_due_other w x post).
    + done.
    + exists (callFunction x (updateTimeOut (heap w x)).2 :: cs). split_and!.
      * by rewrite Hcs', Hcs, <- app_assoc.
      * unfold calls_on. rewrite filter_cons_False by (simpl; congruence).
        exact Hlen.
      * by rewrite Hto, Ht, (Hother p Hpx).
Qed.

(** One tick, seen from a pending record: the ticks until it is due go down
    by one, or it is called once and is due again one period later. *)
Lemma NextTick_one p fuel w w' :
  Inv w → p ∈ pending w → NextTick fuel w = Some w' →
  ∃ cs, calls w' = calls w ++ cs
        ∧ _timePeriod (heap w' p) = _timePeriod (heap w p)
        ∧ p ∈ pending w'
        ∧ ((until w p ≠ 1%Z ∧ calls_on p cs = []
            ∧ until w' p = (until w p - 1)%Z)
           ∨ (until w p = 1%Z ∧ length (calls_on p cs) = 1
              ∧ until w' p = (_timePeriod (heap w p) mod 0x8000)%Z)).
Proof.
  intros HInv Hin Hrun.
  pose proof HInv as [HO Hnone]. pose proof (ord_wf w HO) as Hwf.
  pose proof (ord_clock w HO) as Hclock.
  pose proof (ord_range w HO p Hin) as Hrange.
  pose proof (Hnone p Hin) as Hnd. unfold due in Hnd.
  destruct (NextTick_frame fuel w w' Hwf Hrun) as (Hwf' & Hperm & Hclock' & _).
  fold (next_time w) in Hclock'.
  pose proof (set_clock_Ordered w HInv) as HO0.
  assert (Hc : 0 < getCount w).
  { rewrite <- (length_pending w Hwf). destruct (pending w); [by apply elem_of_nil in Hin|].
    simpl. lia. }
  assert (Hnext : next_time w = ((_presentTime (timer w) + 1) mod 0x8000)%Z)
    by apply land_u16_7fff.
  revert Hrun. unfold NextTick. cbv zeta. fold (next_time w).
  destruct (Nat.eqb_spec 0 (getCount (set_clock (next_time w) w))) as [Hz|_];
    [change (getCount (set_clock (next_time w) w)) with (getCount w) in Hz; lia|].
  intros Hrun.
  destruct (NextTick_while_calls fuel (set_clock (next_time w) w) w' Hwf Hc Hrun)
    as (cs0 & Hcs0 & _ & Hkeep & _).
  destruct (decide (due (set_clock (next_time w) w) p)) as [Hdue|Hndue].
  - destruct (NextTick_while_one p fuel (set_clock (next_time w) w) w' HO0 Hin Hdue Hrun)
      as (cs & Hcs & Hlen & Hto).
    exists cs. split_and!; [done | apply Hkeep | by rewrite Hperm | ].
    right. split_and!.
    + unfold due in Hdue. simpl in Hdue. unfold until, ticks_until.
      rewrite Hdue, Hnext. unfold in_clock_range in Hclock. zmod.
    + done.
    + unfold until. rewrite Hto, Hclock'. simpl.
      rewrite Z.add_comm. apply startTimer_until. rewrite Hnext.
      unfold in_clock_range. apply Z.mod_pos_bound. lia.
  - destruct (NextTick_while_skips p fuel (set_clock (next_time w) w) w' Hwf Hc Hndue Hrun)
      as (cs & Hcs & Hall & Hh).
    exists cs. split_and!; [done | apply Hkeep | by rewrite Hperm | ].
    left.
    assert (Hu : until w' p = (until w p - 1)%Z).
    { unfold until. rewrite Hh, Hclock', Hnext. simpl.
      by apply tick_until. }
    split_and!.
    + unfold due in Hndue. simpl in Hndue. unfold until, ticks_until.
      rewrite Hnext in Hndue. unfold in_clock_range in Hclock, Hrange.
      intros Hone. apply Hndue. zmod.
    + unfold calls_on. apply filter_none.
      eapply Forall_impl; [exact Hall|]. by intros c Hc'.
    + done.
Qed.

(** ** An exhausted record *)

Lemma NextTick_rounds_succ : ∀ n w,
  NextTick_rounds (S n) w = NextTick_rounds 1 (NextTick_rounds n w).
Proof.
  induction n as [|n IH]; intros w; [done|].
  change (NextTick_rounds (S (S n)) w)
    with (if (_presentTime (timer w) =? GET_TIMEOUT w 0)%Z
          then NextTick_rounds (S n) (fire_head w) else w).
  change (NextTick_rounds (S n) w)
    with (if (_presentTime (timer w) =? GET_TIMEOUT w 0)%Z
          then NextTick_rounds n (fire_head w) else w).
  destruct (_presentTime (timer w) =? GET_TIMEOUT w 0)%Z eqn:E.
  - apply IH.
  - cbn [NextTick_rounds]. by rewrite E.
Qed.

Lemma NextTick_rounds_clock : ∀ n w,
  wf w → 0 < getCount w →
  _presentTime (timer (NextTick_rounds n w)) = _presentTime (timer w).
Proof.
  induction n as [|n IH]; intros w Hwf Hc; cbn [NextTick_rounds]; [done|].
  destruct (_ =? _)%Z; [|done].
  destruct (pending_nonempty w Hwf Hc) as (x & post & Hp).
  destruct (fire_head_spec w x post Hwf Hp) as (Ht & _ & _ & _ & Hwf1 & _).
  rewrite IH; [done | done | by rewrite (fire_head_count w x post)].
Qed.

Lemma exhausted_example_Inv : Inv exhausted_example.
Proof.
  assert (Hp : pending exhausted_example = [1; 2; 3]) by reflexivity.
  split; [constructor|].
  - exact exhausted_example_wf.
  - by vm_compute.
  - rewrite Hp. apply (bool_decide_unpack _). by vm_compute.
  - intros p Hin. rewrite Hp in Hin.
    repeat (apply elem_of_cons in Hin as [->|Hin]; [by vm_compute|]).
    by apply elem_of_nil in Hin.
  - exact exhausted_example_periods_ok.
  - rewrite Hp. repeat constructor; unfold before; by vm_compute.
  - intros p Hin. rewrite Hp in Hin. unfold due.
    repeat (apply elem_of_cons in Hin as [->|Hin]; [by vm_compute|]).
    by apply elem_of_nil in Hin.
Qed.

(** C5.  [NextTick] never removes a record.  Whenever a call returns, the
    count is what it was and the list holds the same references, each as often
    as before, whatever [_repeats] the fired records had and whatever
    [clockAlarm] returned; the same is true after any number of rounds of the
    loop of a call that does not return.  The call does return when no pending
    record has a period that is a multiple of [0x8000].

    A record that has used up its repeats is treated as any other.  In every
    round of the loop that finds the head due, the head is called, is left as
    [clockAlarm] leaves the updated object, has its wake time one period after
    the clock, and is moved behind the slots that compare less and in front of
    one that does not compare less, whatever [clockAlarm] returned.  And when
    the list is in order with nothing due, as in every state the scheduler
    reaches, a record that is due on the tick is called once, is still
    pending, wakes one period later and the list is in order again. *)
Theorem NextTick_never_removes :
  ∀ (w : World),
    wf w →
    (∀ fuel w', NextTick fuel w = Some w' →
       getCount w' = getCount w
       ∧ pending w' ≡ₚ pending w
       ∧ (∀ p, p ∈ pending w → p ∈ pending w')
       ∧ wf w')
    ∧ (∀ n, 0 < getCount w →
         getCount (NextTick_rounds n (set_clock (next_time w) w)) = getCount w
         ∧ pending (NextTick_rounds n (set_clock (next_time w) w)) ≡ₚ pending w)
    ∧ (periods_ok w → ∃ w', NextTick (S (getCount w)) w = Some w')
    ∧ (∀ n wn x post,
         0 < getCount w →
         wn = NextTick_rounds n (set_clock (next_time w) w) →
         pending wn = x :: post →
         _timeOut (heap wn x) = next_time w →
         ∃ wn',
           wn' = NextTick_rounds (S n) (set_clock (next_time w) w)
           ∧ calls wn' = calls wn ++ [callFunction x (updateTimeOut (heap wn x)).2]
           ∧ heap wn' x = (clockAlarm x (updateTimeOut (heap wn x)).2).2
           ∧ _timeOut (heap wn' x)
             = ((_timePeriod (heap wn x) + next_time w) mod 0x8000)%Z
           ∧ ∃ small big,
               post = small ++ big
               ∧ pending wn' = small ++ x :: big
               ∧ Forall (λ q, (key wn' q < key wn' x)%Z) small
               ∧ (∀ b, head big = Some b → (key wn' x ≤ key wn' b)%Z))
    ∧ (∀ p fuel w',
         Inv w → p ∈ pending w → _timeOut (heap w p) = next_time w →
         NextTick fuel w = Some w' →
         p ∈ pending w'
         ∧ _timeOut (heap w' p)
           = ((_timePeriod (heap w p) + next_time w) mod 0x8000)%Z
         ∧ sort_invariant w'
         ∧ ∃ cs, calls w' = calls w ++ cs ∧ length (calls_on p cs) = 1).
Proof.
  intros w Hwf. split_and!.
  - intros fuel w' Hrun.
    destruct (NextTick_frame fuel w w' Hwf Hrun) as (Hwf' & Hperm & _).
    split_and!; [by apply getCount_perm | done | | done].
    intros p Hp. by rewrite Hperm.
  - intros n Hc.
    destruct (NextTick_rounds_frame n (set_clock (next_time w) w) Hwf Hc)
      as [Hwf' Hperm].
    split; [|done]. by apply (getCount_perm _ (set_clock (next_time w) w)).
  - by apply NextTick_terminates.
  - intros n wn x post Hc -> Hp Hdue.
    set (wn := NextTick_rounds n (set_clock (next_time w) w)) in *.
    destruct (NextTick_rounds_frame n (set_clock (next_time w) w) Hwf Hc)
      as [Hwfn _]. fold wn in Hwfn.
    pose proof (NextTick_rounds_clock n (set_clock (next_time w) w) Hwf Hc) as Hclk.
    fold wn in Hclk. simpl in Hclk.
    assert (Hstep : NextTick_rounds (S n) (set_clock (next_time w) w) = fire_head wn).
    { rewrite NextTick_rounds_succ. fold wn. cbn [NextTick_rounds].
      by rewrite (GET_TIMEOUT_head wn x post Hwfn Hp), Hdue, Hclk, Z.eqb_refl. }
    exists (fire_head wn). split; [by rewrite Hstep|].
    destruct (fire_head_spec wn x post Hwfn Hp) as (_ & Hx & _ & Hcs & _ & Hsplit).
    destruct (fire_head_fields wn x post Hwfn Hp) as [Hto _].
    split_and!; [done | done | by rewrite Hto, Hdue | done].
  - intros p fuel w' HInv Hin Hdue Hrun.
    destruct (NextTick_frame fuel w w' Hwf Hrun) as (_ & Hperm & _ & _).
    pose proof (NextTick_Inv fuel w w' HInv Hrun) as [HO' _].
    pose proof (set_clock_Ordered w HInv) as HO0.
    assert (Hc : 0 < getCount w).
    { rewrite <- (length_pending w Hwf).
      destruct (pending w); [by apply elem_of_nil in Hin | simpl; lia]. }
    revert Hrun. unfold NextTick. cbv zeta. fold (next_time w).
    destruct (Nat.eqb_spec 0 (getCount (set_clock (next_time w) w))) as [Hz|_];
      [change (getCount (set_clock (next_time w) w)) with (getCount w) in Hz; lia|].
    intros Hrun.
    destruct (NextTick_while_one p fuel (set_clock (next_time w) w) w' HO0 Hin Hdue Hrun)
      as (cs & Hcs & Hlen & Hto).
    split_and!; [by rewrite Hperm | exact Hto | by apply Ordered_sort_invariant | ].
    by exists cs.
Qed.

Lemma NextTick_never_removes_witness :
  let w := exhausted_example in
  (clockAlarm 1 (updateTimeOut (heap w 1)).2).1.2 = false
  ∧ (∃ w1,
       w1 = NextTick_rounds 1 (set_clock (next_time w) w)
       ∧ calls w1 = calls w ++ [callFunction 1 (updateTimeOut (heap w 1)).2]
       ∧ heap w1 1 = (clockAlarm 1 (updateTimeOut (heap w 1)).2).2
       ∧ _timeOut (heap w1 1) = ((_timePeriod (heap w 1) + next_time w) mod 0x8000)%Z
       ∧ ∃ small big,
           [2; 3] = small ++ big
           ∧ pending w1 = small ++ 1 :: big
           ∧ Forall (λ q, (key w1 q < key w1 1)%Z) small
           ∧ (∀ b, head big = Some b → (key w1 1 ≤ key w1 b)%Z))
  ∧ match NextTick 4 w with
    | Some w' =>
        (getCount w' = getCount w
         ∧ pending w' ≡ₚ pending w
         ∧ (∀ p, p ∈ pending w → p ∈ pending w')
         ∧ wf w')
        ∧ 1 ∈ pending w'
        ∧ _timeOut (heap w' 1)
          = ((_timePeriod (heap w 1) + next_time w) mod 0x8000)%Z
        ∧ sort_invariant w'
        ∧ ∃ cs, calls w' = calls w ++ cs ∧ length (calls_on 1 cs) = 1
    | None => False
    end.
Proof.
  cbv zeta.
  destruct (NextTick_never_removes exhausted_example exhausted_example_wf)
    as (Hkeep & _ & _ & Hround & Htick).
  split; [by vm_compute|]. split.
  - exact (Hround 0 (set_clock (next_time exhausted_example) exhausted_example)
             1 [2; 3] (Nat.lt_0_succ 2) eq_refl eq_refl eq_refl).
  - destruct (NextTick 4 exhausted_example) as [w'|] eqn:E; [|by vm_compute in E].
    split; [exact (Hkeep 4 w' E)|].
    apply (Htick 1 4 w' exhausted_example_Inv); [|reflexivity | exact E].
    apply (bool_decide_unpack _). by vm_compute.
Defined.

(** ** A registered record is called once every period *)

Lemma startTimer_pending_mono p q w :
  wf w → p ∈ pending w → p ∈ pending (startTimer q w).
Proof.
  intros Hwf Hin. destruct (decide (getCount w < MAX_LIST_PTRS)) as [Hroom|Hfull].
  - destruct (startTimer_wf_spec q w Hwf Hroom) as (_ & small & big & Hp & ->).
    rewrite Hp in Hin. apply elem_of_app in Hin as [Hin|Hin];
      apply elem_of_app; [by left | right; by right].
  - rewrite startTimer_full; [done|].
    apply Nat.eqb_eq. destruct Hwf as [_ Hle]. unfold getCount, GetCount in Hfull. lia.
Qed.

Lemma cancelTimer_pending_other p q w :
  wf w → q ≠ p → p ∈ pending w → p ∈ pending (cancelTimer q w).
Proof.
  intros Hwf Hq Hin.
  assert (Hf : p ∈ filter (λ x, x = p) (pending w)) by (by apply list_elem_of_filter).
  rewrite <- (cancelTimer_filter (λ x, x = p) q w Hwf Hq) in Hf.
  by apply list_elem_of_filter in Hf as [_ Hf].
Qed.

(** [k] ticks after a state in which [p] is pending and due in exactly one
    period. *)
Lemma ticks_later_spec p k w w' :
  ticks_later p k w w' →
  reachable w → p ∈ pending w →
  until w p = (_timePeriod (heap w p) mod 0x8000)%Z →
  reachable w' ∧ p ∈ pending w'
  ∧ _timePeriod (heap w' p) = _timePeriod (heap w p)
  ∧ ∃ cs, calls w' = calls w ++ cs
          ∧ Z.of_nat (length (calls_on p cs))
            = (Z.of_nat k / (_timePeriod (heap w p) mod 0x8000))%Z
          ∧ until w' p
            = (_timePeriod (heap w p) mod 0x8000
               - Z.of_nat k mod (_timePeriod (heap w p) mod 0x8000))%Z.
Proof.
  intros Hlater Hreach Hin Hu.
  assert (Hd : (0 < _timePeriod (heap w p) mod 0x8000)%Z).
  { destruct (reachable_Inv w Hreach) as [HO _].
    pose proof (ord_period w HO p Hin) as Hok. unfold period_ok in Hok.
    pose proof (Z.mod_pos_bound (_timePeriod (heap w p)) 0x8000 ltac:(lia)). lia. }
  set (d := (_timePeriod (heap w p) mod 0x8000)%Z) in *.
  induction Hlater as [w|k w w' q Hl IH Hq Hnin Hok|k w w' q Hl IH Hq
                       |k w w' q te Hl IH Hq Hnin|k w w' fuel w'' Hl IH Hrun].
  - split_and!; [done | done | done | ].
    exists []. rewrite app_nil_r. split_and!; [done| |].
    + change (Z.of_nat 0) with 0%Z. by rewrite Z.div_0_l by lia.
    + change (Z.of_nat 0) with 0%Z. rewrite Z.mod_0_l by lia. lia.
  - destruct (IH Hreach Hin Hu Hd) as (Hr & Hi & Hper & cs & Hcs & Hn & Hunt).
    pose proof (ord_wf w' (proj1 (reachable_Inv w' Hr))) as Hwf'.
    assert (Hpq : p ≠ q) by congruence.
    split_and!.
    + by apply reach_startTimer.
    + by apply startTimer_pending_mono.
    + by rewrite (startTimer_heap_other q w' p Hpq).
    + exists cs. split_and!; [by rewrite startTimer_calls | done | ].
      unfold until. by rewrite (startTimer_heap_other q w' p Hpq), startTimer_clock.
  - destruct (IH Hreach Hin Hu Hd) as (Hr & Hi & Hper & cs & Hcs & Hn & Hunt).
    pose proof (ord_wf w' (proj1 (reachable_Inv w' Hr))) as Hwf'.
    split_and!.
    + by apply reach_cancelTimer.
    + by apply cancelTimer_pending_other.
    + done.
    + exists cs. by split_and!.
  - destruct (IH Hreach Hin Hu Hd) as (Hr & Hi & Hper & cs & Hcs & Hn & Hunt).
    assert (Hh : heap (set_elem q te w') p = heap w' p)
      by (simpl; by rewrite fn_lookup_insert_ne).
    split_and!.
    + by apply reach_write.
    + done.
    + by rewrite Hh.
    + exists cs. split_and!; [done | done | ].
      unfold until. by rewrite Hh.
  - destruct (IH Hreach Hin Hu Hd) as (Hr & Hi & Hper & cs & Hcs & Hn & Hunt).
    destruct (NextTick_one p fuel w' w'' (reachable_Inv w' Hr) Hi Hrun)
      as (cs1 & Hcs1 & Hper1 & Hi1 & Hcase).
    change (_timePeriod (heap w p) mod 0x8000)%Z with d in Hn, Hunt.
    pose proof (div_mod_succ (Z.of_nat k) d ltac:(lia) Hd) as [Hwrap Hstep].
    pose proof (Z.mod_pos_bound (Z.of_nat k) d Hd) as Hkb.
    replace (Z.of_nat (S k)) with (Z.of_nat k + 1)%Z by lia.
    split_and!.
    + by apply (reach_NextTick w' fuel).
    + done.
    + by rewrite Hper1.
    + exists (cs ++ cs1). split; [by rewrite Hcs1, Hcs, <- app_assoc|].
      rewrite calls_on_app, length_app, Nat2Z.inj_add.
      destruct Hcase as [(Hne & Hon & Hunt1)|(Heq & Hon & Hunt1)].
      * destruct Hstep as [Hq Hm]; [lia|].
        rewrite Hon, Hunt1, Hq, Hm. simpl. lia.
      * destruct Hwrap as [Hq Hm]; [lia|].
        rewrite Hon, Hunt1, Hq, Hm, Hper. fold d. simpl. lia.
Qed.

Lemma run_ticks_later p fuel : ∀ n k w0 w w',
  ticks_later p k w0 w →
  run fuel (replicate n op_NextTick) w = Some w' →
  ticks_later p (k + n) w0 w'.
Proof.
  induction n as [|n IH]; intros k w0 w w' Hl Hrun.
  - injection Hrun as <-. by rewrite Nat.add_0_r.
  - simpl in Hrun. destruct (NextTick fuel w) as [w1|] eqn:E; [|done].
    replace (k + S n) with (S k + n) by lia.
    apply (IH (S k) w0 w1 w'); [|done].
    by apply (later_NextTick p k w0 w fuel w1).
Qed.

(** X17.  In a state the scheduler can reach, a record that is not pending
    and is registered, with room in the list, with a period that is not a
    multiple of [0x8000] is called back once every [d = period mod 0x8000]
    ticks, as long as it is left to the scheduler and the other records are
    handled as in [reachable]: registered only while they are not pending and
    with a period that is not a multiple of [0x8000], cancelled at any time,
    written only while they are not pending ([ticks_later]).  Then [k] ticks
    after [startTimer] exactly [k / d] calls have been made on the record, it
    is still pending, and [d - k mod d] ticks remain until the next call. *)
Theorem registered_record_fires_every_period :
  ∀ (w w' : World) (p : ptr) (k : nat),
    reachable w → p ∉ pending w → period_ok (heap w p) →
    getCount w < MAX_LIST_PTRS →
    ticks_later p k (startTimer p w) w' →
    ∃ cs,
      calls w' = calls w ++ cs
      ∧ Z.of_nat (length (calls_on p cs))
        = (Z.of_nat k / (_timePeriod (heap w p) mod 0x8000))%Z
      ∧ p ∈ pending w'
      ∧ until w' p
        = (_timePeriod (heap w p) mod 0x8000
           - Z.of_nat k mod (_timePeriod (heap w p) mod 0x8000))%Z.
Proof.
  intros w w' p k Hreach Hnin Hok Hroom Hlater.
  pose proof (ord_wf w (proj1 (reachable_Inv w Hreach))) as Hwf.
  pose proof (ord_clock w (proj1 (reachable_Inv w Hreach))) as Hclock.
  destruct (startTimer_wf_spec p w Hwf Hroom) as (_ & small & big & _ & Hp').
  assert (Hper : _timePeriod (heap (startTimer p w) p) = _timePeriod (heap w p)).
  { unfold startTimer. rewrite InsertTimer_heap. simpl. by rewrite fn_lookup_insert. }
  destruct (ticks_later_spec p k (startTimer p w) w' Hlater)
    as (_ & Hin' & _ & cs & Hcs & Hn & Hunt).
  - by apply reach_startTimer.
  - rewrite Hp'. apply elem_of_app. right. left.
  - unfold until. rewrite startTimer_timeOut, startTimer_clock, Hper.
    by apply startTimer_until.
  - exists cs. rewrite Hper in Hn, Hunt. rewrite startTimer_calls in Hcs.
    by split_and!.
Qed.

Lemma registered_record_fires_every_period_witness :
  let w := startTimer 2 (World_new example_heap) in
  match run 6 (replicate 12 op_NextTick) (startTimer 1 w) with
  | Some w' =>
      ∃ cs,
        calls w' = calls w ++ cs
        ∧ Z.of_nat (length (calls_on 1 cs))
          = (Z.of_nat 12 / (_timePeriod (heap w 1) mod 0x8000))%Z
        ∧ 1 ∈ pending w'
        ∧ until w' 1
          = (_timePeriod (heap w 1) mod 0x8000
             - Z.of_nat 12 mod (_timePeriod (heap w 1) mod 0x8000))%Z
  | None => False
  end.
Proof.
  cbv zeta.
  destruct (run 6 _ (startTimer 1 _)) as [w'|] eqn:E.
  - apply (registered_record_fires_every_period
             (startTimer 2 (World_new example_heap)) w' 1 12).
    + apply reach_startTimer; [apply reach_new | | by vm_compute].
      apply (bool_decide_unpack _). by vm_compute.
    + apply (bool_decide_unpack _). by vm_compute.
    + by vm_compute.
    + vm_compute. lia.
    + exact (run_ticks_later 1 6 12 0 _ _ w' (later_now 1 _) E).
  - by vm_compute in E.
Defined.

(** ** Modifying a running timer *)






